(** * pyutils: extended Euclid, Farey sequences and Dirichlet convolution

    A shallow embedding of [pyutils/math/functions.py] and
    [pyutils/math/sequences.py].

    - Python integers are [Z]; [divmod] and [//] are floor division, which is
      what [Z.div] and [Z.modulo] compute for a non-zero divisor.
    - A fraction handled by the Farey code is a tuple [(numerator,
      denominator)], here a pair [Z * Z].
    - The values of an arithmetic function are numbers.  Sums and products
      of integers and of [Fraction]s are exact, and [convolution] and its
      specialisations are modelled on exact rationals in lowest terms, [Qc],
      an integer being the one of denominator one.  [dirichlet_inverse]
      divides as well: [/] is exact on [Fraction]s, so that [g] over [Qc] is
      the code on a [Fraction]-valued [f], whereas on integers [/] gives a
      [float].  The module [Numeric] has the same code over Python's numbers
      [int], [Fraction] and [float], the latter as IEEE 754 binary64.
    - A call that can raise returns an [outcome]; a generator is a state
      machine whose [next] either yields, stops or raises. *)

From Stdlib Require Import String ZArith List Lia Bool Permutation Sorted.
From Stdlib Require Import Znumtheory QArith Qcanon FinFun.
From Stdlib Require SpecFloat.
From Equations Require Import Equations.
Import ListNotations.

Local Open Scope Z_scope.

(* ===================================================================== *)
(** ** Exceptions and results of calls *)
(* ===================================================================== *)

Inductive exn : Type :=
| ValueError (msg : string)
| ZeroDivisionError
| RecursionError
| OverflowError.

Inductive outcome (A : Type) : Type :=
| Returns (a : A)
| Raises (e : exn).
Arguments Returns {A} a.
Arguments Raises {A} e.

Definition bind {A B : Type} (m : outcome A) (k : A -> outcome B) : outcome B :=
  match m with
  | Returns a => k a
  | Raises e => Raises e
  end.

Notation "x <- m ;; k" := (bind m (fun x => k))
  (at level 61, m at next level, right associativity).
Notation "' p <- m ;; k" := (bind m (fun x => let 'p := x in k))
  (at level 61, p pattern, m at next level, right associativity).

(** [divmod(a, b)] and [a // b]: floor division, [ZeroDivisionError] on a
    zero divisor. *)
Definition py_divmod (a b : Z) : outcome (Z * Z) :=
  if b =? 0 then Raises ZeroDivisionError else Returns (a / b, a mod b).

Definition py_floordiv (a b : Z) : outcome Z :=
  if b =? 0 then Raises ZeroDivisionError else Returns (a / b).

(** [range(a, b)]. *)
Definition range (a b : Z) : list Z :=
  map (fun i => a + Z.of_nat i) (seq 0 (Z.to_nat (b - a))).

Definition inspect {A : Type} (a : A) : {b : A | a = b} := exist _ a eq_refl.

(* ===================================================================== *)
(** ** functions.py: the extended Euclidean algorithm *)
(* ===================================================================== *)

Record Euclidean : Type := mkEuclidean
  { Euclidean_gcd : Z; Euclidean_x : Z; Euclidean_y : Z }.

(** The [while b:] loop of [extended_gcd]; it returns the final
    [(a, x1, x2)].  The remainder of a floor division is strictly smaller
    in absolute value than the divisor, which is the measure. *)
Equations? euclid_loop (a b x1 y1 x2 y2 : Z) : outcome (Z * Z * Z)
  by wf (Z.abs_nat b) lt :=
  euclid_loop a b x1 y1 x2 y2 with Z.eq_dec b 0 := {
    | left _ => Returns (a, x1, x2)
    | right _ with inspect (py_divmod a b) := {
        | exist _ (Raises e) _ => Raises e
        | exist _ (Returns (div, mod_)) _ =>
            euclid_loop b mod_ y1 (x1 - div * y1) y2 (x2 - div * y2) } }.
Proof.
  unfold py_divmod in *. destruct (Z.eqb_spec b 0); [congruence|].
  injection e as _ <-.
  pose proof (Z.mod_pos_bound a b). pose proof (Z.mod_neg_bound a b). lia.
Qed.

Definition extended_gcd (a b : Z) : outcome Euclidean :=
  '(a', x1, x2) <- euclid_loop a b 1 0 0 1 ;;
  let sign := if 0 <? a' then 1 else -1 in
  Returns (mkEuclidean (sign * a') (sign * x1) (sign * x2)).

(* ===================================================================== *)
(** ** sequences.py: Stern-Brocot search and the Farey generator *)
(* ===================================================================== *)

Definition _fract_comp (r s : Z * Z) : Z := fst r * snd s - snd r * fst s.

(** [==] on tuples of two integers. *)
Definition pair_eqb (r s : Z * Z) : bool :=
  (fst r =? fst s) && (snd r =? snd s).

(** [_impl_fract_ceil] is recursive and, on bounds with a denominator that
    is not positive, may recurse for ever; [depth] is the number of stack
    frames the interpreter allows, and [RecursionError] is what a call
    that needs more raises. *)
Fixpoint _impl_fract_ceil (depth : nat) (first last fract : Z * Z) (n : Z)
  : outcome (Z * Z) :=
  match depth with
  | O => Raises RecursionError
  | S depth' =>
      if pair_eqb fract first || pair_eqb fract last then Returns fract
      else
        let mediant := (fst first + fst last, snd first + snd last) in
        if n <? snd mediant then Returns last
        else if _fract_comp fract mediant <? 0
             then _impl_fract_ceil depth' first mediant fract n
             else _impl_fract_ceil depth' mediant last fract n
  end.

Definition _fract_ceil (depth : nat) (fract : Z * Z) (n : Z) : outcome (Z * Z) :=
  _impl_fract_ceil depth (0, 1) (1, 1) fract n.

(** [Fraction(num, den)] of the standard library, read back as the pair
    [(numerator, denominator)]: lowest terms, positive denominator. *)
Definition Fraction (num den : Z) : outcome (Z * Z) :=
  if den =? 0 then Raises ZeroDivisionError
  else
    let g := Z.gcd num den in
    let g := if den <? 0 then - g else g in
    Returns (num / g, den / g).

(** One [next] of a generator: a value and the state it is suspended in,
    the end of the iteration, or an exception. *)
Inductive gen_step (S A : Type) : Type :=
| Yield (x : A) (s : S)
| StopIteration
| Throw (e : exn).
Arguments Yield {S A} x s.
Arguments StopIteration {S A}.
Arguments Throw {S A} e.

(** The generator [farey]: not started yet, suspended at the [yield] of
    the loop, or exhausted. *)
Inductive farey_state : Type :=
| Start (depth : nat) (n : Z) (first last : Z * Z)
| Yielded (n a b c d : Z) (last : Z * Z)
| Finished.

(** From the test of the [while] to the next [yield] or the end. *)
Definition farey_loop (n a b c d : Z) (last : Z * Z)
  : gen_step farey_state (Z * Z) :=
  if _fract_comp (a, b) last <? 0 then Yield (a, b) (Yielded n a b c d last)
  else if pair_eqb (a, b) last then Yield last Finished
  else StopIteration.

(** The code before the loop: the first two terms [a/b] and [c/d]. *)
Definition farey_prologue (depth : nat) (n : Z) (first last : Z * Z)
  : outcome (Z * Z * Z * Z * (Z * Z)) :=
  first <- Fraction (fst first) (snd first) ;;
  last <- Fraction (fst last) (snd last) ;;
  '(a, b) <- (if snd first <=? n then Returns first
              else _fract_ceil depth first n) ;;
  e <- extended_gcd b (- a) ;;
  let x := Euclidean_x e in
  let y := Euclidean_y e in
  r <- py_floordiv (n - y) b ;;
  let c := r * a + x in
  let d := r * b + y in
  Returns (a, b, c, d, last).

Definition farey_next (s : farey_state) : gen_step farey_state (Z * Z) :=
  match s with
  | Start depth n first last =>
      match farey_prologue depth n first last with
      | Raises e => Throw e
      | Returns (a, b, c, d, last) => farey_loop n a b c d last
      end
  | Yielded n a b c d last =>
      match py_floordiv (n + b) d with
      | Raises e => Throw e
      | Returns r => farey_loop n c d (r * c - a) (r * d - b) last
      end
  | Finished => StopIteration
  end.

Definition farey (depth : nat) (n : Z) (first last : Z * Z) : farey_state :=
  Start depth n first last.

(** [generates s l]: iterating the generator from state [s] yields the
    terms of [l] in order and then stops. *)
Inductive generates : farey_state -> list (Z * Z) -> Prop :=
| generates_stop s :
    farey_next s = StopIteration -> generates s []
| generates_yield s x s' l :
    farey_next s = Yield x s' -> generates s' l -> generates s (x :: l).

(** [list(...)] with a bound on the number of [next] calls. *)
Fixpoint collect (fuel : nat) (s : farey_state) : option (list (Z * Z)) :=
  match fuel with
  | O => None
  | S fuel' =>
      match farey_next s with
      | Yield x s' => option_map (cons x) (collect fuel' s')
      | StopIteration => Some []
      | Throw _ => None
      end
  end.

(** Order and reducedness of fractions with positive denominators. *)
Definition fract_lt (r s : Z * Z) : Prop := fst r * snd s < fst s * snd r.
Definition fract_le (r s : Z * Z) : Prop := fst r * snd s <= fst s * snd r.
Definition reduced (r : Z * Z) : Prop := 0 < snd r /\ Z.gcd (fst r) (snd r) = 1.

(* ===================================================================== *)
(** ** The number-theory collaborators (sympy.ntheory, math) *)
(* ===================================================================== *)

(** [sympy.ntheory.divisors(n)]: the sorted list of the positive divisors
    of [abs(n)], empty for zero.  [divisors(n, True)] generates the same
    numbers in another order; the sums below are exact, so the order is
    immaterial. *)
Definition divisors (n : Z) : list Z :=
  filter (fun d => Z.abs n mod d =? 0) (range 1 (Z.abs n + 1)).

(** [sympy.ntheory.totient(n)]: how many [k] in [1..n] are coprime to [n]. *)
Definition totient (n : Z) : Z :=
  Z.of_nat (length (filter (fun k => Z.gcd n k =? 1) (range 1 (n + 1)))).

Definition is_prime (p : Z) : bool :=
  (1 <? p) && forallb (fun d => negb (p mod d =? 0)) (range 2 p).

Definition has_square_factor (n : Z) : bool :=
  existsb (fun d => n mod (d * d) =? 0) (range 2 (n + 1)).

Definition prime_divisors (n : Z) : list Z := filter is_prime (divisors n).

(** [sympy.ntheory.mobius(n)] for [n >= 1]: zero when a square greater than
    one divides [n], otherwise [1] or [-1] with the parity of the number of
    prime factors. *)
Definition mobius (n : Z) : Z :=
  if has_square_factor n then 0
  else if Nat.even (length (prime_divisors n)) then 1 else -1.

(* ===================================================================== *)
(** ** functions.py: Dirichlet convolution *)
(* ===================================================================== *)

Definition Z2Qc (z : Z) : Qc := Q2Qc (inject_Z z).

(** [sum(...)]: a left fold from zero. *)
Definition py_sum (l : list Qc) : Qc := fold_left Qcplus l (Z2Qc 0).

Definition convolution (f g : Z -> Qc) : Z -> Qc :=
  fun n => py_sum (map (fun d => (f d * g (n / d)%Z)%Qc) (divisors n)).

Definition divisor_sum (f : Z -> Qc) : Z -> Qc :=
  convolution f (fun _ => Z2Qc 1).

Definition mobius_inverse (f : Z -> Qc) : Z -> Qc :=
  convolution f (fun n => Z2Qc (mobius n)).

Definition gcd_composition (f : Z -> Qc) : Z -> Qc :=
  convolution f (fun n => Z2Qc (totient n)).

(** [map] with the membership proof of each element at hand, for the
    recursion of [g] below through the proper divisors. *)
Fixpoint map_In {A B : Type} (l : list A) : (forall x, In x l -> B) -> list B :=
  match l with
  | [] => fun _ => []
  | x :: l' => fun h =>
      h x (or_introl eq_refl) :: map_In l' (fun y Hy => h y (or_intror Hy))
  end.

Definition is_nil {A : Type} (l : list A) : bool :=
  match l with [] => true | _ => false end.

(** The function [g] that [dirichlet_inverse(f)] returns, for an [f] whose
    values are [Fraction]s: [x / f(1)] is then the exact division of
    [Fraction]s, also of the integer [1] by one.  ([Numeric.g] below is the
    same code for values of any of the number types.)  [lru_cache] stores
    the values of a pure function and does not change them. *)
Equations? g (f : Z -> Qc) (n : Z) : Qc by wf (Z.abs_nat n) lt :=
  g f n :=
    let divs := removelast (divisors n) in
    let x :=
      if is_nil divs then Z2Qc 1
      else (- py_sum (map_In divs
                        (fun d Hd => (f (n / d)%Z * g f d)%Qc)))%Qc in
    (x / f 1%Z)%Qc.
Proof.
  (* the last of the divisors of a non-zero [n] is [abs(n)] itself, and the
     others are smaller *)
  unfold divs, divisors, range in Hd. clear divs.
  destruct (Z.eq_dec n 0) as [->|Hn]; [contradiction|].
  replace (Z.to_nat (Z.abs n + 1 - 1)) with (S (Z.to_nat (Z.abs n - 1))) in Hd by lia.
  rewrite seq_S, map_app, filter_app in Hd. cbn [map filter] in Hd.
  replace (1 + Z.of_nat (0 + Z.to_nat (Z.abs n - 1))) with (Z.abs n) in Hd by lia.
  rewrite Z.mod_same, Z.eqb_refl, removelast_last in Hd by lia.
  apply filter_In in Hd as [Hd _]. apply in_map_iff in Hd as (i & <- & Hi).
  apply in_seq in Hi. lia.
Qed.

Definition dirichlet_inverse (f : Z -> Qc) : outcome (Z -> Qc) :=
  if Qc_eq_bool (f 1) (Z2Qc 0)
  then Raises (ValueError "Function 'f' is not invertible, as f(1) == 0.")
  else Returns (g f).

(* ===================================================================== *)
(** ** Python's numbers: [int], [Fraction] and [float] *)
(* ===================================================================== *)

(** A [float] is an IEEE 754 binary64 number: a significand of 53 bits,
    rounding to the nearest with ties to even. *)
Definition float : Type := SpecFloat.spec_float.

Definition float_add : float -> float -> float := SpecFloat.SFadd 53 1024.
Definition float_mul : float -> float -> float := SpecFloat.SFmul 53 1024.
Definition float_div : float -> float -> float := SpecFloat.SFdiv 53 1024.
Definition float_neg : float -> float := SpecFloat.SFopp.

Definition float_is_zero (x : float) : bool :=
  match x with SpecFloat.S754_zero _ => true | _ => false end.

(** An operation on integers whose correctly rounded result is beyond the
    range of [float] raises [OverflowError]. *)
Definition float_in_range (x : float) : outcome float :=
  match x with
  | SpecFloat.S754_infinity _ => Raises OverflowError
  | _ => Returns x
  end.

(** [float(z)] for an integer: the nearest [float]. *)
Definition float_of_int (z : Z) : outcome float :=
  float_in_range (SpecFloat.binary_normalize 53 1024 z 0 false).

(** The integer [z] as it stands, not rounded, for the division below. *)
Definition int_unrounded (z : Z) : float :=
  match z with
  | Z0 => SpecFloat.S754_zero false
  | Zpos m => SpecFloat.S754_finite false m 0
  | Zneg m => SpecFloat.S754_finite true m 0
  end.

(** [a / b] for two integers, true division: the quotient rounded once. *)
Definition int_truediv (a b : Z) : outcome float :=
  if b =? 0 then Raises ZeroDivisionError
  else float_in_range (float_div (int_unrounded a) (int_unrounded b)).

Inductive number : Type :=
| PyInt (z : Z)
| PyFraction (q : Qc)
| PyFloat (x : float).

(** [float(v)]; of a [Fraction] it is [numerator / denominator]. *)
Definition to_float (v : number) : outcome float :=
  match v with
  | PyInt z => float_of_int z
  | PyFraction q => int_truediv (Qnum q) (Zpos (Qden q))
  | PyFloat x => Returns x
  end.

(** The value of an [int] or [Fraction] as a [Fraction]. *)
Definition to_Fraction (v : number) : option Qc :=
  match v with
  | PyInt z => Some (Z2Qc z)
  | PyFraction q => Some q
  | PyFloat _ => None
  end.

(** The binary operators: two integers give an integer (a [float] when
    divided), an operand that is a [float] makes the other one a [float],
    and otherwise the result is a [Fraction]. *)
Definition number_add (v w : number) : outcome number :=
  match v, w with
  | PyInt a, PyInt b => Returns (PyInt (a + b))
  | PyFloat _, _ | _, PyFloat _ =>
      x <- to_float v ;; y <- to_float w ;; Returns (PyFloat (float_add x y))
  | PyFraction p, PyInt b => Returns (PyFraction (p + Z2Qc b))
  | PyInt a, PyFraction q => Returns (PyFraction (Z2Qc a + q))
  | PyFraction p, PyFraction q => Returns (PyFraction (p + q))
  end.

Definition number_mul (v w : number) : outcome number :=
  match v, w with
  | PyInt a, PyInt b => Returns (PyInt (a * b))
  | PyFloat _, _ | _, PyFloat _ =>
      x <- to_float v ;; y <- to_float w ;; Returns (PyFloat (float_mul x y))
  | PyFraction p, PyInt b => Returns (PyFraction (p * Z2Qc b))
  | PyInt a, PyFraction q => Returns (PyFraction (Z2Qc a * q))
  | PyFraction p, PyFraction q => Returns (PyFraction (p * q))
  end.

Definition Fraction_truediv (p q : Qc) : outcome number :=
  if Qc_eq_bool q (Z2Qc 0) then Raises ZeroDivisionError
  else Returns (PyFraction (p / q)).

Definition number_truediv (v w : number) : outcome number :=
  match v, w with
  | PyInt a, PyInt b => x <- int_truediv a b ;; Returns (PyFloat x)
  | PyFloat _, _ | _, PyFloat _ =>
      x <- to_float v ;; y <- to_float w ;;
      if float_is_zero y then Raises ZeroDivisionError
      else Returns (PyFloat (float_div x y))
  | PyFraction p, PyInt b => Fraction_truediv p (Z2Qc b)
  | PyInt a, PyFraction q => Fraction_truediv (Z2Qc a) q
  | PyFraction p, PyFraction q => Fraction_truediv p q
  end.

(** [-v]. *)
Definition number_neg (v : number) : number :=
  match v with
  | PyInt a => PyInt (- a)
  | PyFraction p => PyFraction (- p)
  | PyFloat x => PyFloat (float_neg x)
  end.

(** [bool(v)]: false at zero only. *)
Definition number_bool (v : number) : bool :=
  match v with
  | PyInt a => negb (a =? 0)
  | PyFraction p => negb (Qnum p =? 0)
  | PyFloat x => negb (float_is_zero x)
  end.

(** The exact value of a finite [float]. *)
Definition float_value (x : float) : option Qc :=
  match x with
  | SpecFloat.S754_zero _ => Some (Z2Qc 0)
  | SpecFloat.S754_finite s m e =>
      let m := if s then Zneg m else Zpos m in
      Some (if 0 <=? e then Z2Qc (m * 2 ^ e)
            else (Z2Qc m / Z2Qc (2 ^ (- e)))%Qc)
  | _ => None
  end.

(** [v == w]: numbers of different types are compared by their exact
    values. *)
Definition number_eq (v w : number) : bool :=
  match v, w with
  | PyFloat x, PyFloat y => SpecFloat.SFeqb x y
  | PyFloat x, _ =>
      match float_value x, to_Fraction w with
      | Some p, Some q => Qc_eq_bool p q
      | _, _ => false
      end
  | _, PyFloat y =>
      match to_Fraction v, float_value y with
      | Some p, Some q => Qc_eq_bool p q
      | _, _ => false
      end
  | _, _ =>
      match to_Fraction v, to_Fraction w with
      | Some p, Some q => Qc_eq_bool p q
      | _, _ => false
      end
  end.

(* ===================================================================== *)
(** ** functions.py over Python's numbers *)
(* ===================================================================== *)

(** [convolution] and [dirichlet_inverse] as they are written, for
    arithmetic functions with values of any of the three types; a call of
    such a function returns a number or raises. *)
Module Numeric.

(** [sum(...)] of a generator expression: from the integer zero, each item
    is computed and then added, from left to right, which is how CPython
    adds up to its version 3.11 (later versions compensate the rounding
    errors of a sum of more than two floats). *)
Definition sum (items : list (outcome number)) : outcome number :=
  fold_left (fun acc item => r <- acc ;; v <- item ;; number_add r v)
            items (Returns (PyInt 0)).

Section Convolution.

(** [sympy.ntheory.divisors(n, True)] generates the divisors in an order
    that its documentation leaves open; the order is a parameter. *)
Variable divisors_unordered : Z -> list Z.

Definition convolution (f g : Z -> outcome number) : Z -> outcome number :=
  fun n =>
    sum (map (fun d => a <- f d ;; b <- g (n / d) ;; number_mul a b)
             (divisors_unordered n)).

End Convolution.

(** The function [g] that [dirichlet_inverse(f)] returns; [divisors(n)] is
    a sorted list. *)
Equations? g (f : Z -> outcome number) (n : Z) : outcome number
  by wf (Z.abs_nat n) lt :=
  g f n :=
    let divs := removelast (divisors n) in
    x <- (if is_nil divs then Returns (PyInt 1)
          else s <- sum (map_In divs
                           (fun d Hd =>
                              a <- f (n / d) ;; b <- g f d ;; number_mul a b)) ;;
               Returns (number_neg s)) ;;
    d <- f 1 ;;
    number_truediv x d.
Proof.
  unfold divs, divisors, range in Hd. clear divs.
  destruct (Z.eq_dec n 0) as [->|Hn]; [contradiction|].
  replace (Z.to_nat (Z.abs n + 1 - 1)) with (S (Z.to_nat (Z.abs n - 1))) in Hd by lia.
  rewrite seq_S, map_app, filter_app in Hd. cbn [map filter] in Hd.
  replace (1 + Z.of_nat (0 + Z.to_nat (Z.abs n - 1))) with (Z.abs n) in Hd by lia.
  rewrite Z.mod_same, Z.eqb_refl, removelast_last in Hd by lia.
  apply filter_In in Hd as [Hd _]. apply in_map_iff in Hd as (i & <- & Hi).
  apply in_seq in Hi. lia.
Qed.

Definition dirichlet_inverse (f : Z -> outcome number)
  : outcome (Z -> outcome number) :=
  v <- f 1 ;;
  if negb (number_bool v)
  then Raises (ValueError "Function 'f' is not invertible, as f(1) == 0.")
  else Returns (g f).

End Numeric.

(** An arithmetic function whose values are [Fraction]s. *)
Definition Fraction_valued (q : Z -> Qc) : Z -> outcome number :=
  fun n => Returns (PyFraction (q n)).

(** An arithmetic function whose values are integers. *)
Definition int_valued (z : Z -> Z) : Z -> outcome number :=
  fun n => Returns (PyInt (z n)).

(* ===================================================================== *)
(** ** Notions used to state the results *)
(* ===================================================================== *)

(** [r] is the ceiling of [fract] among the fractions of denominator at
    most [n]: the least of them that is at least [fract]. *)
Definition fract_ceiling (n : Z) (fract r : Z * Z) : Prop :=
  reduced r /\ snd r <= n /\ fract_le fract r /\
  forall s : Z * Z, 0 < snd s <= n -> fract_le fract s -> fract_le r s.

(** [sum] of a list of integers. *)
Definition sum_Z (l : list Z) : Z := fold_right Z.add 0 l.

(** The reduced fractions of [0..1] with denominator at most [n], listed by
    denominator. *)
Definition farey_terms (n : Z) : list (Z * Z) :=
  (0, 1) ::
  flat_map (fun q => map (fun p => (p, q))
                         (filter (fun p => Z.gcd q p =? 1) (range 1 (q + 1))))
           (range 1 (n + 1)).

(** A term of the [n]th Farey sequence. *)
Definition farey_term (n : Z) (t : Z * Z) : Prop :=
  1 <= snd t <= n /\ Z.gcd (fst t) (snd t) = 1 /\ 0 <= fst t <= snd t.

(** The loop invariant: [a/b] and [c/d] are neighbours in the [n]th
    Farey sequence. *)
Definition farey_inv (n a b c d : Z) : Prop :=
  1 <= b <= n /\ 1 <= d <= n /\ b * c - a * d = 1 /\ n < b + d /\ 0 <= a <= b.

(** The unit of the convolution: [1] at [1] and [0] elsewhere. *)
Definition unit_function (n : Z) : Qc := if n =? 1 then Z2Qc 1 else Z2Qc 0.

(* ===================================================================== *)
(** ** Generators in general *)
(* ===================================================================== *)

Section Generators.

Context {St A : Type}.
Variable next : St -> gen_step St A.

(** [gen_yields s l]: from state [s] the generator yields the terms of [l]
    and then stops. *)
Inductive gen_yields : St -> list A -> Prop :=
| gen_yields_stop s :
    next s = StopIteration -> gen_yields s []
| gen_yields_yield s x s' l :
    next s = Yield x s' -> gen_yields s' l -> gen_yields s (x :: l).

(** The term of index [k], when the generator gets that far. *)
Fixpoint gen_nth (k : nat) (s : St) : option A :=
  match next s with
  | Yield x s' => match k with O => Some x | S k' => gen_nth k' s' end
  | StopIteration => None
  | Throw _ => None
  end.

(** [itertools.islice(..., k)] as a list: the first [k] terms, fewer when
    the generator ends or raises before. *)
Fixpoint gen_take (k : nat) (s : St) : list A :=
  match k with
  | O => []
  | S k' =>
      match next s with
      | Yield x s' => x :: gen_take k' s'
      | StopIteration => []
      | Throw _ => []
      end
  end.

End Generators.

(* ===================================================================== *)
(** ** sequences.py: [farey_length] *)
(* ===================================================================== *)

Inductive farey_length_state : Type :=
| FLStart (n : Z)
| FLYielded (n i length : Z).

(** The test of [for i in range(n)] and the [yield]. *)
Definition farey_length_loop (n i length : Z)
  : gen_step farey_length_state Z :=
  if i <? n then Yield length (FLYielded n i length) else StopIteration.

Definition farey_length_next (s : farey_length_state)
  : gen_step farey_length_state Z :=
  match s with
  | FLStart n => farey_length_loop n 0 1
  | FLYielded n i length =>
      farey_length_loop n (i + 1) (length + totient (i + 1))
  end.

Definition farey_length (n : Z) : farey_length_state := FLStart n.

(* ===================================================================== *)
(** ** mathematics/sequences.py: the earlier [farey] *)
(* ===================================================================== *)

Inductive farey_old_state : Type :=
| OStart (n : Z) (first last : Z * Z)
| OYielded (n a b c d : Z) (last : Z * Z)
| OLast.

Definition farey_old_loop (n a b c d : Z) (last : Z * Z)
  : gen_step farey_old_state (Z * Z) :=
  if negb (pair_eqb (a, b) last) then Yield (a, b) (OYielded n a b c d last)
  else Yield (a, b) OLast.

Section FareyOldCode.

(** Modelled from the spec: the [extended_gcd] that this file imports from
    the module [functions] beside it, which is not among the sources.  It
    is a parameter, [egcd], and the results about this version of [farey]
    assume of it the contract that the specification gives:
    [(d, x, y)] with [a*x + b*y = d = gcd(|a|, |b|)]. *)
Variable egcd : Z -> Z -> outcome Euclidean.

Definition farey_old_prologue (n : Z) (first last : Z * Z)
  : outcome (Z * Z * Z * Z * (Z * Z)) :=
  r <- Fraction (fst first) (snd first) ;;
  s <- Fraction (fst last) (snd last) ;;
  let a := fst r in
  let b := snd r in
  let last := s in
  e <- egcd b (- a) ;;
  let x := Euclidean_x e in
  let y := Euclidean_y e in
  r <- py_floordiv (n - y) b ;;
  let c := r * a + x in
  let d := r * b + y in
  Returns (a, b, c, d, last).

Definition farey_old_next (s : farey_old_state)
  : gen_step farey_old_state (Z * Z) :=
  match s with
  | OStart n first last =>
      match farey_old_prologue n first last with
      | Raises e => Throw e
      | Returns (a, b, c, d, last) => farey_old_loop n a b c d last
      end
  | OYielded n a b c d last =>
      match py_floordiv (n + b) d with
      | Raises e => Throw e
      | Returns r => farey_old_loop n c d (r * c - a) (r * d - b) last
      end
  | OLast => StopIteration
  end.

End FareyOldCode.

Definition farey_old (n : Z) (first last : Z * Z) : farey_old_state :=
  OStart n first last.

(** The contract of [extended_gcd]. *)
Definition extended_gcd_contract (egcd : Z -> Z -> outcome Euclidean) : Prop :=
  forall a b, a <> 0 \/ b <> 0 ->
    exists d x y, egcd a b = Returns (mkEuclidean d x y) /\
                  a * x + b * y = d /\ d = Z.gcd (Z.abs a) (Z.abs b).

(** A term of the [n]th Farey sequence extended to all rationals: lowest
    terms and denominator at most [n]. *)
Definition farey_member (n : Z) (t : Z * Z) : Prop :=
  reduced t /\ snd t <= n.

(** Neighbours in that sequence. *)
Definition farey_adjacent (n a b c d : Z) : Prop :=
  1 <= b <= n /\ 1 <= d <= n /\ b * c - a * d = 1 /\ n < b + d.

(* ===================================================================== *)
(** ** functions.py: [lcm], [double_factorial], [fusc], [unrelated] *)
(* ===================================================================== *)

(** [functools.reduce(function, iterable, initial)] for a function that
    can raise. *)
Fixpoint py_reduce (f : Z -> Z -> outcome Z) (iterable : list Z) (initial : Z)
  : outcome Z :=
  match iterable with
  | [] => Returns initial
  | b :: rest => a <- f initial b ;; py_reduce f rest a
  end.

(** [lcm(a, b, ...)] and [lcm(iterable)] fold the same integers,
    [iterable] here. *)
Definition lcm (iterable : list Z) : outcome Z :=
  py_reduce (fun a b => q <- py_floordiv a (Z.gcd a b) ;; Returns (q * b))
            iterable 1.

(** [range(start, stop, step)] for a step that is not zero. *)
Definition range_step (start stop step : Z) : list Z :=
  let len := if 0 <? step then (stop - start + step - 1) / step
             else (start - stop - step - 1) / (- step) in
  map (fun i => start + Z.of_nat i * step) (seq 0 (Z.to_nat len)).

(** [functools.reduce(mul, iterable)], without an initial value: [None]
    stands for the [TypeError] that an empty iterable raises. *)
Definition py_reduce_mul (iterable : list Z) : option Z :=
  match iterable with
  | [] => None
  | x :: rest => Some (fold_left Z.mul rest x)
  end.

Definition double_factorial (n : Z) : option Z :=
  if (-1 <=? n) && (n <? 2) then Some 1
  else py_reduce_mul (range_step n 1 (-2)).

(** [fusc] recurses on [n // 2]; [depth] is the number of stack frames
    that are allowed, as for [_impl_fract_ceil].  The cache of [lru_cache]
    keeps values and does not change them. *)
Fixpoint fusc (depth : nat) (n : Z) : outcome Z :=
  match depth with
  | O => Raises RecursionError
  | S depth' =>
      if n =? 0 then Returns 0
      else if Z.land n (n - 1) =? 0 then Returns 1
      else if n mod 2 =? 0 then fusc depth' (n / 2)
      else
        a <- fusc depth' (n / 2) ;;
        b <- fusc depth' (n / 2 + 1) ;;
        Returns (a + b)
  end.

(** The terms that the generator [_upsilon(n)] yields. *)
Definition _upsilon (n : Z) : list Z :=
  filter (fun k => (1 <? Z.gcd n k) && (Z.gcd n k <? k)) (range 1 n).

(** [sympy.ntheory.divisor_count(n)]: the number of divisors. *)
Definition divisor_count (n : Z) : Z := Z.of_nat (length (divisors n)).

Definition unrelated (n : Z) : Z := n - totient n - divisor_count n + 1.

(* ===================================================================== *)
(** ** sequences.py: the other generators *)
(* ===================================================================== *)

(** [extended_fibonacci(x, y)]: before the first [yield], after it, and in
    the loop, where the state holds [x] and [y] as the assignment after the
    [yield] leaves them. *)
Inductive fibonacci_state : Type :=
| FibStart (x y : Z)
| FibFirst (x y : Z)
| FibLoop (x y : Z).

Definition extended_fibonacci_next (s : fibonacci_state)
  : gen_step fibonacci_state Z :=
  match s with
  | FibStart x y => Yield x (FibFirst x y)
  | FibFirst x y => Yield y (FibLoop x y)
  | FibLoop x y => let z := x + y in Yield z (FibLoop y z)
  end.

Definition extended_fibonacci (x y : Z) : fibonacci_state := FibStart x y.
Definition fibonacci : fibonacci_state := extended_fibonacci 0 1.
Definition lucas : fibonacci_state := extended_fibonacci 2 1.

(** [collatz(n)]. *)
Inductive collatz_state : Type :=
| CStart (n : Z)
| CYielded (n : Z)
| CLast.

Definition collatz_loop (n : Z) : gen_step collatz_state Z :=
  if negb (n =? 1) then Yield n (CYielded n) else Yield 1 CLast.

Definition collatz_next (s : collatz_state) : gen_step collatz_state Z :=
  match s with
  | CStart n => collatz_loop n
  | CYielded n => collatz_loop (if n mod 2 =? 0 then n / 2 else 3 * n + 1)
  | CLast => StopIteration
  end.

Definition collatz (n : Z) : collatz_state := CStart n.

(** [shortcut_collatz(n)]. *)
Definition shortcut_collatz_loop (n : Z) : gen_step collatz_state Z :=
  if 1 <? n then Yield n (CYielded n) else Yield 1 CLast.

Definition shortcut_collatz_next (s : collatz_state) : gen_step collatz_state Z :=
  match s with
  | CStart n => shortcut_collatz_loop n
  | CYielded n =>
      let n := if negb (n mod 2 =? 0) then 3 * n + 1 else n in
      shortcut_collatz_loop (n / 2)
  | CLast => StopIteration
  end.

Definition shortcut_collatz (n : Z) : collatz_state := CStart n.

(** [perfect_squares(a, b)]. *)
Inductive perfect_squares_state : Type :=
| PSStart (a b : Z)
| PSYielded (a b square : Z).

Definition perfect_squares_loop (a b square : Z)
  : gen_step perfect_squares_state Z :=
  if square <? b ^ 2 then Yield square (PSYielded a b square)
  else StopIteration.

Definition perfect_squares_next (s : perfect_squares_state)
  : gen_step perfect_squares_state Z :=
  match s with
  | PSStart a b => perfect_squares_loop a b (a ^ 2)
  | PSYielded a b square =>
      let a := a + 1 in
      perfect_squares_loop a b (square + (2 * a - 1))
  end.

Definition perfect_squares (a b : Z) : perfect_squares_state := PSStart a b.

(** The function [inner] of [least_non_divisors]: its [while] loop does
    not end for every [n], so [fuel] bounds the number of tests and [None]
    is a loop that needs more. *)
Fixpoint inner_loop (fuel : nat) (n m : Z) : option Z :=
  match fuel with
  | O => None
  | S fuel' =>
      if n mod m =? 0 then inner_loop fuel' n (m + 1) else Some m
  end.

Definition inner (fuel : nat) (n : Z) : option Z := inner_loop fuel n 1.

(** [list(least_non_divisors(a, b))], with the fuel of each [inner]. *)
Fixpoint sequence_options {A : Type} (l : list (option A)) : option (list A) :=
  match l with
  | [] => Some []
  | None :: _ => None
  | Some x :: rest => option_map (cons x) (sequence_options rest)
  end.

Definition least_non_divisors (fuel : nat) (a b : Z) : option (list Z) :=
  sequence_options (map (inner fuel) (range a b)).

(** [hamming_weight(n, subseq)]: the loop doubles the list while it is
    shorter than [2**n], which for a negative [n] is a float below one.
    [fuel] bounds the number of rounds. *)
Fixpoint hamming_weight_loop (fuel : nat) (n : Z) (weights : list Z)
  : option (list Z) :=
  match fuel with
  | O => None
  | S fuel' =>
      if (0 <=? n) && (Z.of_nat (length weights) <? 2 ^ n)
      then hamming_weight_loop fuel' n (weights ++ map (fun i => i + 1) weights)
      else Some weights
  end.

Definition hamming_weight (fuel : nat) (n : Z) (subseq : option (list Z))
  : option (list Z) :=
  let weights :=
    match subseq with
    | None | Some [] => [0]
    | Some l => l
    end in
  hamming_weight_loop fuel n weights.

(** The number of ones in the binary writing of a natural number. *)
Fixpoint ones (p : positive) : Z :=
  match p with
  | xH => 1
  | xO q => ones q
  | xI q => 1 + ones q
  end.

Definition binary_weight (k : Z) : Z :=
  match k with
  | Zpos p => ones p
  | _ => 0
  end.

(* ===================================================================== *)
(** ** utils.py: [ensure_unique] *)
(* ===================================================================== *)

(** [i <= max_skips], where [max_skips] is a number or, [None],
    [float('inf')]. *)
Definition within_skips (i : Z) (max_skips : option Z) : bool :=
  match max_skips with
  | None => true
  | Some m => i <=? m
  end.

(** The terms that [ensure_unique(iterable, max_skips)] yields from a
    finite iterable of integers; [old] is the set of the terms yielded so
    far and [i] the number of terms skipped since the last one. *)
Fixpoint ensure_unique_loop (max_skips : option Z) (old : list Z) (i : Z)
  (iterator : list Z) : list Z :=
  if within_skips i max_skips then
    match iterator with
    | [] => []
    | x :: rest =>
        if in_dec Z.eq_dec x old
        then ensure_unique_loop max_skips old (i + 1) rest
        else x :: ensure_unique_loop max_skips (x :: old) 0 rest
    end
  else [].

Definition ensure_unique (iterable : list Z) (max_skips : option Z) : list Z :=
  ensure_unique_loop max_skips [] 0 iterable.

(** The first occurrence of each element, in order. *)
Fixpoint first_occurrences (l : list Z) : list Z :=
  match l with
  | [] => []
  | x :: rest => x :: remove Z.eq_dec x (first_occurrences rest)
  end.


(** What [shortcut_collatz] keeps of the terms of [collatz]: the term
    after an odd one is skipped. *)
Fixpoint shortcut_terms (skip : bool) (l : list Z) : list Z :=
  match l with
  | [] => []
  | x :: rest =>
      if skip then shortcut_terms false rest
      else x :: shortcut_terms (negb (x mod 2 =? 0)) rest
  end.

(* ===================================================================== *)
(** ** Results about [extended_gcd] *)
(* ===================================================================== *)

Lemma py_divmod_Returns (a b q r : Z) :
  py_divmod a b = Returns (q, r) -> b <> 0 /\ q = a / b /\ r = a mod b.
Proof.
  unfold py_divmod. destruct (Z.eqb_spec b 0); [discriminate|].
  intros [= <- <-]. auto.
Qed.

Lemma py_divmod_Raises (a b : Z) (e : exn) : py_divmod a b = Raises e -> b = 0.
Proof.
  unfold py_divmod. destruct (Z.eqb_spec b 0); [auto | discriminate].
Qed.

(** The loop keeps [a] and [b] linear combinations of the arguments
    [a0], [b0] of the call, with coefficients [(x1, x2)] and [(y1, y2)], and
    keeps their gcd. *)
Lemma euclid_loop_spec (a0 b0 a b x1 y1 x2 y2 : Z) :
  a = a0 * x1 + b0 * x2 ->
  b = a0 * y1 + b0 * y2 ->
  exists a' x y,
    euclid_loop a b x1 y1 x2 y2 = Returns (a', x, y) /\
    a' = a0 * x + b0 * y /\
    Z.abs a' = Z.gcd a b.
Proof.
  funelim (euclid_loop a b x1 y1 x2 y2); intros Ha Hb.
  - exists a, x1, x2. subst b. rewrite Z.gcd_0_r. auto.
  - destruct (py_divmod_Returns _ _ _ _ e) as (Hnz & Hq & Hr). clear Heqcall.
    match goal with
    | IH : forall _ _, _ -> _ -> exists _, _ |- _ =>
        destruct (IH a0 b0) as (a' & x & y & Hrun & Hlin & Hgcd)
    end.
    + assumption.
    + pose proof (Z.div_mod a b Hnz). subst div. nia.
    + exists a', x, y. repeat split; try assumption.
      subst mod_. rewrite Hgcd, (Z.gcd_comm b), Z.gcd_mod by assumption.
      apply Z.gcd_comm.
  - pose proof (py_divmod_Raises _ _ _ e1). contradiction.
Qed.

(** C1: for integers [a], [b] not both zero, [extended_gcd(a, b)] returns
    [(d, x, y)] with [a*x + b*y = d] and [d = gcd(|a|, |b|) >= 0], whatever
    the signs of [a] and [b]. *)
Theorem extended_gcd_bezout (a b : Z) :
  a <> 0 \/ b <> 0 ->
  exists d x y,
    extended_gcd a b = Returns (mkEuclidean d x y) /\
    a * x + b * y = d /\
    d = Z.gcd (Z.abs a) (Z.abs b) /\
    0 <= d.
Proof.
  intros Hne.
  destruct (euclid_loop_spec a b a b 1 0 0 1)
    as (a' & x & y & Hrun & Hlin & Hgcd); [ring | ring |].
  unfold extended_gcd. rewrite Hrun. cbn [bind].
  pose proof (Z.gcd_nonneg a b) as Hpos.
  rewrite Z.gcd_abs_l, Z.gcd_abs_r.
  destruct (Z.ltb_spec 0 a').
  - exists (1 * a'), (1 * x), (1 * y). repeat split; lia.
  - exists (-1 * a'), (-1 * x), (-1 * y). repeat split; lia.
Qed.

Lemma extended_gcd_bezout_witness :
  exists d x y,
    extended_gcd 240 (-46) = Returns (mkEuclidean d x y) /\
    240 * x + (-46) * y = d /\
    d = Z.gcd (Z.abs 240) (Z.abs (-46)) /\
    0 <= d.
Proof. apply (extended_gcd_bezout 240 (-46)). left. lia. Defined.

(** The scenario of the specification: [extended_gcd(240, 46)]. *)
Example extended_gcd_240_46 :
  extended_gcd 240 46 = Returns (mkEuclidean 2 (-9) 47).
Proof. reflexivity. Qed.

(** C7, as the code has it: with both arguments zero the loop body never
    runs, nothing is raised, and the triple [(0, -1, 0)] is returned. *)
Theorem extended_gcd_zero_zero :
  extended_gcd 0 0 = Returns (mkEuclidean 0 (-1) 0).
Proof. reflexivity. Qed.

(** C7 counterexample: the call [extended_gcd(0, 0)] raises nothing. *)
Lemma extended_gcd_zero_zero_no_raise :
  ~ exists e, extended_gcd 0 0 = Raises e.
Proof. intros [e He]. vm_compute in He. discriminate He. Qed.

(* ===================================================================== *)
(** ** Fractions: neighbours in the Stern-Brocot tree *)
(* ===================================================================== *)

Lemma pair_eqb_spec (r s : Z * Z) : reflect (r = s) (pair_eqb r s).
Proof.
  destruct r as [a b], s as [c d]. unfold pair_eqb. cbn [fst snd].
  destruct (Z.eqb_spec a c), (Z.eqb_spec b d); constructor; congruence.
Qed.

(** Two fractions in lowest terms with the same value are the same pair. *)
Lemma reduced_eq (a b p q : Z) :
  reduced (a, b) -> reduced (p, q) -> a * q = p * b -> (a, b) = (p, q).
Proof.
  unfold reduced. cbn [fst snd]. intros [Hb Hab] [Hq Hpq] Heq.
  assert (Hbq : (b | q)).
  { apply Z.gauss with (m := a); [|rewrite Z.gcd_comm; exact Hab].
    exists p. lia. }
  assert (Hqb : (q | b)).
  { apply Z.gauss with (m := p); [|rewrite Z.gcd_comm; exact Hpq].
    exists a. lia. }
  assert (b = q) by (apply Z.divide_antisym_nonneg; [lia | lia | assumption | assumption]).
  subst q. f_equal. nia.
Qed.

(** Neighbours [a/b < c/d] with [b*c - a*d = 1] are in lowest terms. *)
Lemma neighbours_reduced (a b c d : Z) :
  0 < b -> 0 < d -> b * c - a * d = 1 -> reduced (a, b) /\ reduced (c, d).
Proof.
  intros Hb Hd H. unfold reduced. cbn [fst snd]. split; split; try assumption.
  - apply Z.bezout_1_gcd. exists (- d), c. lia.
  - apply Z.bezout_1_gcd. exists b, (- a). lia.
Qed.

(** A fraction strictly between two neighbours has a denominator of at
    least the sum of theirs. *)
Lemma between_neighbours (a b c d u v : Z) :
  0 < b -> 0 < d -> 0 < v -> b * c - a * d = 1 ->
  a * v < u * b -> u * d < c * v -> b + d <= v.
Proof.
  intros Hb Hd Hv H H1 H2.
  assert (E : v = b * (c * v - u * d) + d * (u * b - a * v)) by nia.
  nia.
Qed.

Lemma fract_lt_le_trans (a b p q u v : Z) :
  0 < b -> 0 < q -> 0 < v ->
  a * q < p * b -> p * v <= u * q -> a * v < u * b.
Proof. intros. nia. Qed.

(* ===================================================================== *)
(** ** Results about [_impl_fract_ceil] *)
(* ===================================================================== *)

(** Each recursive call replaces a bound by the mediant, so the sum of the
    two denominators grows by at least one while it has to stay at most
    [n]: [n + 2 - (b + d)] frames are enough. *)
Lemma _impl_fract_ceil_returns (depth : nat) (first last fract : Z * Z) (n : Z) :
  0 < snd first -> 0 < snd last ->
  n + 2 - (snd first + snd last) <= Z.of_nat depth -> (1 <= depth)%nat ->
  exists r, _impl_fract_ceil depth first last fract n = Returns r.
Proof.
  revert first last. induction depth as [|k IH]; intros first last Hb Hd Hk H1; [lia|].
  cbn [_impl_fract_ceil].
  destruct (pair_eqb fract first || pair_eqb fract last); [eauto|].
  cbn [snd]. destruct (Z.ltb_spec n (snd first + snd last)); [eauto|].
  destruct (_fract_comp fract _ <? 0); apply IH; cbn [snd]; lia.
Qed.

(** With neighbours [first <= fract <= last] of denominators at most [n]
    as bounds, the search returns the ceiling of [fract]. *)
Lemma _impl_fract_ceil_spec (depth : nat) (a b c d p q n : Z) :
  1 <= b <= n -> 1 <= d <= n -> b * c - a * d = 1 ->
  reduced (p, q) -> a * q <= p * b -> p * d <= c * q ->
  n + 2 - (b + d) <= Z.of_nat depth -> (1 <= depth)%nat ->
  exists r, _impl_fract_ceil depth (a, b) (c, d) (p, q) n = Returns r /\
            fract_ceiling n (p, q) r.
Proof.
  revert a b c d. induction depth as [|k IH];
    intros a b c d Hb Hd Hadj Hred Hlo Hhi Hk H1; [lia|].
  destruct (neighbours_reduced a b c d) as [Hrab Hrcd]; [lia | lia | exact Hadj |].
  assert (Hq : 0 < q) by apply Hred.
  cbn [_impl_fract_ceil].
  destruct (pair_eqb_spec (p, q) (a, b)) as [E1|N1].
  { injection E1 as -> ->. eexists. split; [reflexivity|].
    unfold fract_ceiling, fract_le. cbn [fst snd].
    repeat split; try apply Hrab; lia. }
  destruct (pair_eqb_spec (p, q) (c, d)) as [E2|N2].
  { injection E2 as -> ->. eexists. split; [reflexivity|].
    unfold fract_ceiling, fract_le. cbn [fst snd].
    repeat split; try apply Hrcd; lia. }
  cbn [orb fst snd].
  assert (Hlo' : a * q < p * b).
  { destruct (Z.eq_dec (a * q) (p * b)) as [E|]; [|lia].
    exfalso. apply N1. symmetry. apply reduced_eq; assumption. }
  assert (Hhi' : p * d < c * q).
  { destruct (Z.eq_dec (p * d) (c * q)) as [E|]; [|lia].
    exfalso. apply N2. apply reduced_eq; assumption. }
  destruct (Z.ltb_spec n (b + d)) as [Hdeep|Hfit].
  { eexists. split; [reflexivity|].
    unfold fract_ceiling, fract_le. cbn [fst snd].
    split; [exact Hrcd|]. split; [lia|]. split; [lia|].
    intros [u v]. cbn [fst snd]. intros Hv Hs.
    destruct (Z.le_gt_cases (c * v) (u * d)) as [|Hlt]; [assumption|].
    exfalso.
    assert (a * v < u * b) by (apply (fract_lt_le_trans a b p q u v); lia).
    pose proof (between_neighbours a b c d u v). lia. }
  unfold _fract_comp. cbn [fst snd].
  destruct (Z.ltb_spec (p * (b + d) - q * (a + c)) 0).
  - apply IH; try assumption; try lia.
  - apply IH; try assumption; try lia.
Qed.

(** C3: for a fraction [fract] in lowest terms with [0 <= fract <= 1] and
    [n >= 1], the search started at [0/1] and [1/1] returns the least
    fraction [f >= fract] of denominator at most [n]. *)
Theorem fract_ceil_least (depth : nat) (p q n : Z) :
  1 <= n -> reduced (p, q) -> 0 <= p <= q -> (Z.to_nat n <= depth)%nat ->
  exists r, _impl_fract_ceil depth (0, 1) (1, 1) (p, q) n = Returns r /\
            fract_ceiling n (p, q) r.
Proof.
  intros Hn Hred Hp Hdepth.
  apply _impl_fract_ceil_spec; try assumption; lia.
Qed.

Lemma fract_ceil_least_witness :
  exists r, _impl_fract_ceil 5 (0, 1) (1, 1) (2, 7) 5 = Returns r /\
            fract_ceiling 5 (2, 7) r.
Proof.
  apply (fract_ceil_least 5 2 7 5).
  - lia.
  - split; [cbn; lia | reflexivity].
  - lia.
  - vm_compute. lia.
Defined.

(** C9: on bounds with positive denominators and [n >= 1] the recursion
    of the search ends, and [n] stack frames are enough for it. *)
Theorem fract_ceil_terminates (depth : nat) (first last fract : Z * Z) (n : Z) :
  1 <= n -> 0 < snd first -> 0 < snd last -> (Z.to_nat n <= depth)%nat ->
  exists r, _impl_fract_ceil depth first last fract n = Returns r.
Proof.
  intros Hn Hb Hd Hdepth.
  apply _impl_fract_ceil_returns; try assumption; lia.
Qed.

Lemma fract_ceil_terminates_witness :
  exists r, _impl_fract_ceil 7 (1, 3) (5, 2) (22, 7) 7 = Returns r.
Proof.
  apply (fract_ceil_terminates 7 (1, 3) (5, 2) (22, 7) 7).
  - lia.
  - cbn. lia.
  - cbn. lia.
  - vm_compute. lia.
Defined.

(* ===================================================================== *)
(** ** Lists *)
(* ===================================================================== *)

Lemma in_range (a b x : Z) : In x (range a b) <-> a <= x < b.
Proof.
  unfold range. rewrite in_map_iff. split.
  - intros (i & <- & Hi). apply in_seq in Hi. lia.
  - intros H. exists (Z.to_nat (x - a)). split; [lia|]. apply in_seq. lia.
Qed.

Lemma range_sorted (a b : Z) : StronglySorted Z.lt (range a b).
Proof.
  unfold range. generalize (Z.to_nat (b - a)) as k. generalize 0%nat as s.
  intros s k. revert s. induction k as [|k IH]; intros s; simpl; constructor.
  - apply IH.
  - apply Forall_forall. intros x Hx. apply in_map_iff in Hx as (i & <- & Hi).
    apply in_seq in Hi. lia.
Qed.

Lemma StronglySorted_filter {A : Type} (R : A -> A -> Prop) (p : A -> bool) (l : list A) :
  StronglySorted R l -> StronglySorted R (filter p l).
Proof.
  induction 1 as [|x l Hs IH Hall]; simpl; [constructor|].
  destruct (p x); [|exact IH]. constructor; [exact IH|].
  rewrite Forall_forall in *. intros y Hy. apply Hall.
  apply filter_In in Hy. tauto.
Qed.

Lemma removelast_sorted_lt (k : Z) (l : list Z) :
  (forall x, In x l -> x <= k) -> StronglySorted Z.lt l ->
  forall x, In x (removelast l) -> x < k.
Proof.
  induction l as [|y l IH]; intros Hb Hs x Hx; [contradiction|].
  destruct l as [|z l]; [contradiction|].
  inversion Hs as [|? ? Hs' Hall]; subst.
  change (In x (y :: removelast (z :: l))) in Hx. destruct Hx as [<-|Hx].
  - inversion Hall as [|? ? Hyz _]; subst.
    pose proof (Hb z (or_intror (or_introl eq_refl))). lia.
  - apply IH; auto. intros w Hw. apply Hb. right. exact Hw.
Qed.

Lemma range_NoDup (a b : Z) : NoDup (range a b).
Proof.
  unfold range. apply Injective_map_NoDup; [|apply seq_NoDup].
  intros i j. lia.
Qed.

Lemma StronglySorted_NoDup {A : Type} (R : A -> A -> Prop) (l : list A) :
  (forall x, ~ R x x) -> StronglySorted R l -> NoDup l.
Proof.
  intros Hirr. induction 1 as [|x l Hs IH Hall]; constructor; [|exact IH].
  intros Hin. rewrite Forall_forall in Hall. exact (Hirr x (Hall x Hin)).
Qed.

Lemma NoDup_flat_map {A B : Type} (f : A -> list B) (l : list A) :
  NoDup l -> (forall x, In x l -> NoDup (f x)) ->
  (forall x y z, In x l -> In y l -> In z (f x) -> In z (f y) -> x = y) ->
  NoDup (flat_map f l).
Proof.
  induction 1 as [|x l Hx Hl IH]; intros Hf Hdisj; cbn [flat_map]; [constructor|].
  apply NoDup_app. repeat split.
  - apply Hf. left. reflexivity.
  - apply IH.
    + intros y Hy. apply Hf. right. exact Hy.
    + intros y1 y2 z H1 H2. apply Hdisj; right; assumption.
  - intros z Hz Hz'. apply in_flat_map in Hz' as (y & Hy & Hzy).
    assert (x = y) by (apply (Hdisj x y z); [left; reflexivity | right; exact Hy | exact Hz | exact Hzy]).
    subst y. contradiction.
Qed.

(* ===================================================================== *)
(** ** The Farey terms and their number *)
(* ===================================================================== *)

Lemma farey_terms_length (n : Z) :
  Z.of_nat (length (farey_terms n)) = sum_Z (map totient (range 1 (n + 1))) + 1.
Proof.
  unfold farey_terms. cbn [length]. rewrite Nat2Z.inj_succ.
  induction (range 1 (n + 1)) as [|q l IH]; [reflexivity|].
  cbn [flat_map map sum_Z fold_right]. rewrite length_app, length_map, Nat2Z.inj_add.
  unfold sum_Z in IH. unfold totient at 1. lia.
Qed.

Lemma in_farey_terms (n : Z) (t : Z * Z) :
  1 <= n -> In t (farey_terms n) <-> farey_term n t.
Proof.
  intros Hn. unfold farey_terms, farey_term. destruct t as [p q]. cbn [fst snd In].
  rewrite in_flat_map. split.
  - intros [E|(q' & Hq' & Hin)].
    + injection E as <- <-. cbn. lia.
    + apply in_map_iff in Hin as (p' & [= <- <-] & Hp').
      apply filter_In in Hp' as [Hr Hg]. apply in_range in Hr, Hq'.
      apply Z.eqb_eq in Hg. rewrite Z.gcd_comm. lia.
  - intros (Hq & Hg & Hp). destruct (Z.eq_dec p 0) as [->|Hp0].
    + left. rewrite Z.gcd_0_l in Hg. f_equal. lia.
    + right. exists q. split; [apply in_range; lia|].
      apply in_map_iff. exists p. split; [reflexivity|].
      apply filter_In. split; [apply in_range; lia|].
      apply Z.eqb_eq. rewrite Z.gcd_comm. exact Hg.
Qed.

Lemma farey_terms_NoDup (n : Z) : NoDup (farey_terms n).
Proof.
  unfold farey_terms. constructor.
  - rewrite in_flat_map. intros (q & _ & Hin).
    apply in_map_iff in Hin as (p & [= -> _] & Hp).
    apply filter_In in Hp as [Hp _]. apply in_range in Hp. lia.
  - apply NoDup_flat_map.
    + apply range_NoDup.
    + intros q _. apply Injective_map_NoDup.
      * intros p p' [= ->]. reflexivity.
      * apply NoDup_filter, range_NoDup.
    + intros q q' t _ _ H1 H2.
      apply in_map_iff in H1 as (p & <- & _).
      apply in_map_iff in H2 as (p' & [= _ ->] & _). reflexivity.
Qed.

(* ===================================================================== *)
(** ** The loop of [farey] *)
(* ===================================================================== *)

Section FareyLoop.

Variable n : Z.
Hypothesis n_pos : 1 <= n.

Lemma farey_inv_term (a b c d : Z) : farey_inv n a b c d -> farey_term n (a, b).
Proof.
  unfold farey_inv, farey_term. cbn [fst snd]. intros (Hb & Hd & Hadj & Hsum & Ha).
  repeat split; try lia.
  apply (neighbours_reduced a b c d); lia.
Qed.

(** At the top of the order there is only [1/1]. *)
Lemma farey_inv_last (a b c d : Z) : farey_inv n a b c d -> b <= a -> (a, b) = (1, 1).
Proof.
  unfold farey_inv. intros (Hb & Hd & Hadj & Hsum & Ha) Hba.
  assert (a = b) by lia. subst a.
  assert (b = 1).
  { apply Z.divide_1_r_nonneg; [lia|]. exists (c - d). lia. }
  congruence.
Qed.

(** The step [r = (n + b) // d; a, b, c, d = c, d, r*c - a, r*d - b]. *)
Lemma farey_inv_step (a b c d : Z) :
  farey_inv n a b c d -> a < b ->
  farey_inv n c d ((n + b) / d * c - a) ((n + b) / d * d - b).
Proof.
  unfold farey_inv. intros (Hb & Hd & Hadj & Hsum & Ha) Hab.
  set (r := (n + b) / d).
  assert (Hr1 : d * r <= n + b) by (apply Z.mul_div_le; lia).
  assert (Hr2 : n + b < d * Z.succ r) by (apply Z.mul_succ_div_gt; lia).
  assert (Hc : 0 <= c <= d).
  { split; [nia|].
    destruct (Z.le_gt_cases c d) as [|Hgt]; [assumption|]. exfalso.
    assert (b * (d + 1) - a * d <= 1) by nia.
    assert (d <= d * (b - a)) by nia. lia. }
  repeat split; try lia.
Qed.

(** Each step brings the term closer to one by at least [1/n^2]. *)
Lemma farey_step_measure (a b c d : Z) (k : nat) :
  farey_inv n a b c d ->
  n * n * (b - a) <= Z.of_nat (S k) * b ->
  n * n * (d - c) <= Z.of_nat k * d.
Proof.
  unfold farey_inv. intros (Hb & Hd & Hadj & Hsum & Ha) Hk.
  rewrite Nat2Z.inj_succ in Hk.
  assert (Hbd : b * d <= n * n) by nia.
  assert (E : n * n * (d - c) * b = n * n * (b - a) * d - n * n) by nia.
  assert (H : n * n * (d - c) * b <= Z.of_nat k * d * b) by nia.
  nia.
Qed.

(** Nothing of the [n]th Farey sequence lies strictly between [a/b] and
    [c/d]. *)
Lemma farey_inv_next (a b c d : Z) (t : Z * Z) :
  farey_inv n a b c d -> farey_term n t ->
  fract_lt (a, b) t -> fract_le (c, d) t.
Proof.
  unfold farey_inv, farey_term, fract_lt, fract_le. destruct t as [u v]. cbn [fst snd].
  intros (Hb & Hd & Hadj & Hsum & Ha) (Hv & _ & _) Hlt.
  destruct (Z.le_gt_cases (c * v) (u * d)) as [|Hgt]; [assumption|]. exfalso.
  pose proof (between_neighbours a b c d u v). lia.
Qed.

Lemma farey_loop_generates (k : nat) (a b c d : Z) :
  farey_inv n a b c d ->
  n * n * (b - a) <= Z.of_nat k * b ->
  exists l,
    (forall s, farey_next s = farey_loop n a b c d (1, 1) -> generates s l) /\
    Forall (farey_term n) l /\
    Forall (fract_le (a, b)) l /\
    StronglySorted fract_lt l /\
    (forall t, farey_term n t -> fract_le (a, b) t -> In t l).
Proof.
  revert a b c d. induction k as [|k IH]; intros a b c d Hinv Hk.
  - (* the measure is zero: the term is 1/1 *)
    assert (Hba : b <= a) by (unfold farey_inv in Hinv; nia).
    pose proof (farey_inv_last a b c d Hinv Hba) as E. injection E as -> ->.
    exists [(1, 1)]. split; [|split; [|split; [|split]]].
    + intros s Hs. eapply generates_yield; [exact Hs|].
      apply generates_stop. reflexivity.
    + constructor; [|constructor]. exact (farey_inv_term _ _ _ _ Hinv).
    + constructor; [|constructor]. unfold fract_le. cbn. lia.
    + constructor; constructor.
    + intros [u v]. unfold farey_term, fract_le. cbn [fst snd]. intros (Hv & Hg & Hu) Hle.
      left. assert (u = v) by lia. subst u.
      rewrite Z.gcd_diag in Hg. f_equal; lia.
  - destruct (Z.lt_ge_cases a b) as [Hab|Hba].
    + pose proof (farey_inv_step a b c d Hinv Hab) as Hinv'.
      pose proof (farey_step_measure a b c d k Hinv Hk) as Hk'.
      destruct (IH _ _ _ _ Hinv' Hk') as (l & Hgen & Hterm & Hle & Hsort & Hall).
      assert (Hcd : fract_lt (a, b) (c, d)).
      { unfold fract_lt, farey_inv in *. cbn [fst snd]. lia. }
      assert (Hb0 : 0 < b) by (unfold farey_inv in Hinv; lia).
      assert (Hd0 : 0 < d) by (unfold farey_inv in Hinv; lia).
      assert (Hlt : Forall (fract_lt (a, b)) l).
      { rewrite Forall_forall in *. intros [u v] Ht.
        specialize (Hle _ Ht). specialize (Hterm _ Ht).
        unfold fract_lt, fract_le, farey_term in *. cbn [fst snd] in *. nia. }
      exists ((a, b) :: l). split; [|split; [|split; [|split]]].
      * intros s Hs. eapply generates_yield.
        -- rewrite Hs. unfold farey_loop, _fract_comp. cbn [fst snd].
           destruct (Z.ltb_spec (a * 1 - b * 1) 0); [reflexivity | lia].
        -- apply Hgen. cbn [farey_next]. unfold py_floordiv.
           destruct (Z.eqb_spec d 0); [lia | reflexivity].
      * constructor; [exact (farey_inv_term _ _ _ _ Hinv) | exact Hterm].
      * constructor; [unfold fract_le; cbn; lia|].
        eapply Forall_impl; [|exact Hlt]. intros t. unfold fract_lt, fract_le. lia.
      * constructor; assumption.
      * intros [u v] Ht Hle'.
        destruct (Z.eq_dec (a * v) (u * b)) as [E|NE].
        -- left. apply reduced_eq; [| |exact E].
           ++ apply (neighbours_reduced a b c d); unfold farey_inv in Hinv; lia.
           ++ unfold farey_term in Ht. unfold reduced. cbn [fst snd] in *. split; lia.
        -- right. apply Hall; [exact Ht|].
           apply (farey_inv_next a b c d); [exact Hinv | exact Ht |].
           unfold fract_lt, fract_le in *. cbn [fst snd] in *. lia.
    + pose proof (farey_inv_last a b c d Hinv Hba) as E. injection E as -> ->.
      exists [(1, 1)]. split; [|split; [|split; [|split]]].
      * intros s Hs. eapply generates_yield; [exact Hs|].
        apply generates_stop. reflexivity.
      * constructor; [|constructor]. exact (farey_inv_term _ _ _ _ Hinv).
      * constructor; [|constructor]. unfold fract_le. cbn. lia.
      * constructor; constructor.
      * intros [u v]. unfold farey_term, fract_le. cbn [fst snd]. intros (Hv & Hg & Hu) Hle.
        left. assert (u = v) by lia. subst u.
        rewrite Z.gcd_diag in Hg. f_equal; lia.
Qed.

(** With the default bounds the code before the loop finds [0/1] and its
    successor [1/n]. *)
Lemma farey_prologue_default (depth : nat) :
  farey_prologue depth n (0, 1) (1, 1) = Returns (0, 1, 1, n, (1, 1)).
Proof.
  unfold farey_prologue. cbn [fst snd]. 
  change (Fraction 0 1) with (Returns (A := Z * Z) (0, 1)).
  change (Fraction 1 1) with (Returns (A := Z * Z) (1, 1)).
  cbn [bind snd].
  destruct (Z.leb_spec 1 n); [|lia]. cbn [bind].
  change (extended_gcd 1 (- 0)) with (Returns (mkEuclidean 1 1 0)).
  cbn [bind Euclidean_x Euclidean_y]. unfold py_floordiv. cbn [Z.eqb bind].
  rewrite Z.sub_0_r, Z.div_1_r. repeat f_equal; lia.
Qed.

End FareyLoop.

(** A generator yields one sequence only. *)
Lemma generates_functional (s : farey_state) (l l' : list (Z * Z)) :
  generates s l -> generates s l' -> l = l'.
Proof.
  intros H. revert l'. induction H as [s Hs|s x s' l Hs _ IH]; intros l' H';
    inversion H' as [? Hs'|? x' s'' l'' Hs' Hrest]; subst; try congruence.
  rewrite Hs in Hs'. injection Hs' as <- <-. f_equal. apply IH. exact Hrest.
Qed.

(** [list(...)] returns it, given enough calls of [next]. *)
Lemma generates_collect (s : farey_state) (l : list (Z * Z)) :
  generates s l -> collect (S (length l)) s = Some l.
Proof.
  induction 1 as [s Hs|s x s' l Hs _ IH].
  - cbn. rewrite Hs. reflexivity.
  - cbn [length collect]. rewrite Hs. cbn [collect] in IH. rewrite IH. reflexivity.
Qed.

(** C2: for [n >= 1], [farey(n)] with the default bounds yields exactly
    [phi(1) + ... + phi(n) + 1] terms, in strictly increasing order, each
    [(numerator, denominator)] with [1 <= denominator <= n] and
    [gcd(numerator, denominator) = 1]. *)
Theorem farey_default_sequence (depth : nat) (n : Z) :
  1 <= n ->
  exists l,
    generates (farey depth n (0, 1) (1, 1)) l /\
    Z.of_nat (length l) = sum_Z (map totient (range 1 (n + 1))) + 1 /\
    StronglySorted fract_lt l /\
    Forall (fun t => 1 <= snd t <= n /\ Z.gcd (fst t) (snd t) = 1) l.
Proof.
  intros Hn.
  destruct (farey_loop_generates n Hn (Z.to_nat (n * n)) 0 1 1 n)
    as (l & Hgen & Hterm & _ & Hsort & Hall).
  { unfold farey_inv. lia. }
  { nia. }
  exists l. split; [|split; [|split]].
  - apply Hgen. unfold farey. cbn [farey_next].
    rewrite (farey_prologue_default n Hn). reflexivity.
  - rewrite <- farey_terms_length. f_equal. apply Permutation_length.
    apply NoDup_Permutation.
    + apply (StronglySorted_NoDup fract_lt); [|exact Hsort].
      intros t. unfold fract_lt. lia.
    + apply farey_terms_NoDup.
    + intros t. rewrite (in_farey_terms n t Hn). split.
      * rewrite Forall_forall in Hterm. apply Hterm.
      * intros Ht. apply Hall; [exact Ht|].
        unfold fract_le, farey_term in *. cbn [fst snd]. lia.
  - exact Hsort.
  - eapply Forall_impl; [|exact Hterm]. unfold farey_term. tauto.
Qed.

Lemma farey_default_sequence_witness :
  exists l,
    generates (farey 0 5 (0, 1) (1, 1)) l /\
    Z.of_nat (length l) = sum_Z (map totient (range 1 (5 + 1))) + 1 /\
    StronglySorted fract_lt l /\
    Forall (fun t => 1 <= snd t <= 5 /\ Z.gcd (fst t) (snd t) = 1) l.
Proof. apply (farey_default_sequence 0 5). lia. Defined.

(** The scenario of the specification: [list(farey(5))]. *)
Example farey_5 :
  collect 12 (farey 0 5 (0, 1) (1, 1)) =
  Some [(0, 1); (1, 5); (1, 4); (1, 3); (2, 5); (1, 2);
        (3, 5); (2, 3); (3, 4); (4, 5); (1, 1)].
Proof. reflexivity. Qed.

Example farey_1 :
  collect 3 (farey 0 1 (0, 1) (1, 1)) = Some [(0, 1); (1, 1)].
Proof. reflexivity. Qed.

(* ===================================================================== *)
(** ** Exact sums *)
(* ===================================================================== *)

Lemma Z2Qc_add (a b : Z) : Z2Qc (a + b) = (Z2Qc a + Z2Qc b)%Qc.
Proof.
  apply Qc_is_canon. unfold Z2Qc, Qcplus, Q2Qc, this.
  rewrite !Qred_correct, inject_Z_plus. reflexivity.
Qed.

Lemma Z2Qc_opp (a : Z) : Z2Qc (- a) = (- Z2Qc a)%Qc.
Proof.
  apply Qc_is_canon. unfold Z2Qc, Qcopp, Q2Qc, this.
  rewrite !Qred_correct, inject_Z_opp. reflexivity.
Qed.

Lemma py_sum_nil : py_sum [] = 0%Qc.
Proof. reflexivity. Qed.

Lemma py_sum_cons (x : Qc) (l : list Qc) : py_sum (x :: l) = (x + py_sum l)%Qc.
Proof.
  unfold py_sum. cbn [fold_left]. change (Z2Qc 0) with 0%Qc.
  generalize 0%Qc as acc. revert x.
  induction l as [|y l IH]; intros x acc; cbn [fold_left]; [ring|].
  rewrite (IH y (acc + x)%Qc), (IH y acc), (IH x acc). ring.
Qed.

Lemma py_sum_app (l l' : list Qc) : py_sum (l ++ l') = (py_sum l + py_sum l')%Qc.
Proof.
  induction l as [|x l IH]; cbn [app].
  - rewrite py_sum_nil. ring.
  - rewrite !py_sum_cons, IH. ring.
Qed.

Lemma py_sum_Permutation (l l' : list Qc) :
  Permutation l l' -> py_sum l = py_sum l'.
Proof.
  induction 1; rewrite ?py_sum_cons; try congruence. ring.
Qed.

Section Sums.

Context {A : Type}.

Lemma py_sum_map_ext (F G : A -> Qc) (l : list A) :
  (forall x, In x l -> F x = G x) -> py_sum (map F l) = py_sum (map G l).
Proof.
  intros H. f_equal. apply map_ext_in. exact H.
Qed.

Lemma py_sum_map_zero (F : A -> Qc) (l : list A) :
  (forall x, In x l -> F x = 0%Qc) -> py_sum (map F l) = 0%Qc.
Proof.
  induction l as [|x l IH]; intros H; cbn [map]; [reflexivity|].
  rewrite py_sum_cons, IH, H; [ring | left; reflexivity |].
  intros y Hy. apply H. right. exact Hy.
Qed.

Lemma py_sum_map_add (F G : A -> Qc) (l : list A) :
  py_sum (map (fun x => (F x + G x)%Qc) l) =
  (py_sum (map F l) + py_sum (map G l))%Qc.
Proof.
  induction l as [|x l IH]; cbn [map]; rewrite ?py_sum_nil, ?py_sum_cons, ?IH; ring.
Qed.

Lemma py_sum_map_scale (c : Qc) (F : A -> Qc) (l : list A) :
  py_sum (map (fun x => (c * F x)%Qc) l) = (c * py_sum (map F l))%Qc.
Proof.
  induction l as [|x l IH]; cbn [map]; rewrite ?py_sum_nil, ?py_sum_cons, ?IH; ring.
Qed.

Lemma py_sum_map_opp (F : A -> Qc) (l : list A) :
  py_sum (map (fun x => (- F x)%Qc) l) = (- py_sum (map F l))%Qc.
Proof.
  induction l as [|x l IH]; cbn [map]; rewrite ?py_sum_nil, ?py_sum_cons, ?IH; ring.
Qed.

Lemma py_sum_filter_split (p : A -> bool) (F : A -> Qc) (l : list A) :
  py_sum (map F l) =
  (py_sum (map F (filter p l)) +
   py_sum (map F (filter (fun x => negb (p x)) l)))%Qc.
Proof.
  induction l as [|x l IH]; cbn [map filter]; [rewrite py_sum_nil; ring|].
  rewrite py_sum_cons, IH.
  destruct (p x); cbn [negb map]; rewrite py_sum_cons; ring.
Qed.

Lemma py_sum_flat_map {B : Type} (h : A -> list B) (F : B -> Qc) (l : list A) :
  py_sum (map F (flat_map h l)) =
  py_sum (map (fun x => py_sum (map F (h x))) l).
Proof.
  induction l as [|x l IH]; cbn [flat_map map]; [reflexivity|].
  rewrite map_app, py_sum_app, py_sum_cons, IH. reflexivity.
Qed.

End Sums.

(** The term of a key that occurs once in a list. *)
Lemma py_sum_select (F : Z -> Qc) (k : Z) (l : list Z) :
  NoDup l -> In k l ->
  py_sum (map (fun d => if d =? k then F d else 0%Qc) l) = F k.
Proof.
  induction 1 as [|x l Hx Hl IH]; intros Hin; [contradiction|].
  cbn [map]. rewrite py_sum_cons. destruct Hin as [->|Hin].
  - rewrite Z.eqb_refl, py_sum_map_zero; [ring|].
    intros y Hy. destruct (Z.eqb_spec y k); [congruence | reflexivity].
  - rewrite IH by assumption. destruct (Z.eqb_spec x k); [congruence | ring].
Qed.

(* ===================================================================== *)
(** ** Divisors *)
(* ===================================================================== *)

Lemma in_divisors (n d : Z) :
  1 <= n -> In d (divisors n) <-> 1 <= d /\ (d | n).
Proof.
  intros Hn. unfold divisors. rewrite filter_In, in_range, Z.abs_eq by lia.
  rewrite Z.eqb_eq. split.
  - intros [Hd Hm]. split; [lia|]. apply Z.mod_divide; [lia | exact Hm].
  - intros [Hd Hdiv]. split.
    + apply Z.divide_pos_le in Hdiv; lia.
    + apply Z.mod_divide; [lia | exact Hdiv].
Qed.

Lemma divisors_NoDup (n : Z) : NoDup (divisors n).
Proof. apply NoDup_filter, range_NoDup. Qed.

Lemma divisors_sorted (n : Z) : StronglySorted Z.lt (divisors n).
Proof. apply StronglySorted_filter, range_sorted. Qed.

Lemma divisors_bound (n d : Z) : 1 <= n -> In d (divisors n) -> 1 <= d <= n.
Proof.
  intros Hn Hd. apply in_divisors in Hd as [Hd Hdiv]; [|exact Hn].
  apply Z.divide_pos_le in Hdiv; lia.
Qed.

(** The cofactor [n // d] of a divisor. *)
Lemma divisors_cofactor (n d : Z) :
  1 <= n -> In d (divisors n) ->
  In (n / d) (divisors n) /\ d * (n / d) = n /\ n / (n / d) = d.
Proof.
  intros Hn Hd. apply in_divisors in Hd as [Hd [k Hk]]; [|exact Hn].
  assert (E : n / d = k) by (subst n; apply Z.div_mul; lia).
  rewrite E. assert (1 <= k) by nia. repeat split.
  - apply in_divisors; [exact Hn|]. split; [assumption|]. exists d. lia.
  - lia.
  - subst n. rewrite Z.mul_comm. apply Z.div_mul. lia.
Qed.

Lemma divisors_cofactor_Permutation (n : Z) :
  1 <= n -> Permutation (map (fun d => n / d) (divisors n)) (divisors n).
Proof.
  intros Hn. apply NoDup_Permutation.
  - apply Injective_map_NoDup_in; [|apply divisors_NoDup].
    intros d d' Hd Hd' E.
    destruct (divisors_cofactor n d Hn Hd) as (_ & _ & <-).
    destruct (divisors_cofactor n d' Hn Hd') as (_ & _ & <-).
    rewrite E. reflexivity.
  - apply divisors_NoDup.
  - intros d. rewrite in_map_iff. split.
    + intros (e & <- & He). apply (divisors_cofactor n e Hn He).
    + intros Hd. exists (n / d).
      destruct (divisors_cofactor n d Hn Hd) as (Hc & _ & E). auto.
Qed.

(** Summing over the divisors or over their cofactors is the same. *)
Lemma py_sum_divisors_cofactor (F : Z -> Qc) (n : Z) :
  1 <= n ->
  py_sum (map (fun d => F (n / d)) (divisors n)) = py_sum (map F (divisors n)).
Proof.
  intros Hn. rewrite <- (map_map (fun d => n / d) F).
  apply py_sum_Permutation, Permutation_map, divisors_cofactor_Permutation.
  exact Hn.
Qed.

(** For [n >= 1] the sorted list of divisors ends with [n], which
    [divisors(n)[:-1]] leaves out. *)
Lemma sorted_removelast (k : Z) (l : list Z) :
  StronglySorted Z.lt l -> (forall x, In x l -> x <= k) -> In k l ->
  l = removelast l ++ [k].
Proof.
  induction 1 as [|x l Hs IH Hall]; intros Hb Hin; [contradiction|].
  destruct l as [|y l].
  - destruct Hin as [->|[]]. reflexivity.
  - change (removelast (x :: y :: l)) with (x :: removelast (y :: l)).
    cbn [app]. f_equal. apply IH.
    + intros z Hz. apply Hb. right. exact Hz.
    + destruct Hin as [->|Hin]; [|exact Hin].
      exfalso. inversion Hall as [|? ? Hky _]; subst.
      pose proof (Hb y (or_intror (or_introl eq_refl))). lia.
Qed.

Lemma divisors_removelast (n : Z) :
  1 <= n -> divisors n = removelast (divisors n) ++ [n].
Proof.
  intros Hn. apply sorted_removelast.
  - apply divisors_sorted.
  - intros d Hd. apply (divisors_bound n d Hn Hd).
  - apply in_divisors; [exact Hn|]. split; [lia | apply Z.divide_refl].
Qed.

Lemma in_removelast_divisors (n d : Z) :
  1 <= n -> In d (removelast (divisors n)) <-> In d (divisors n) /\ d < n.
Proof.
  intros Hn. pose proof (divisors_NoDup n) as Hnd.
  pose proof (divisors_sorted n) as Hs.
  rewrite (divisors_removelast n Hn) in Hnd, Hs |- * at 2.
  rewrite in_app_iff. cbn [In]. split.
  - intros Hd. split; [left; exact Hd|].
    apply (removelast_sorted_lt n (divisors n)); [| |exact Hd].
    + intros x Hx. apply (divisors_bound n x Hn Hx).
    + apply divisors_sorted.
  - intros [[Hd|[E|[]]] Hlt]; [exact Hd | lia].
Qed.

Lemma is_nil_removelast_divisors (n : Z) :
  1 <= n -> is_nil (removelast (divisors n)) = (n =? 1).
Proof.
  intros Hn. destruct (Z.eqb_spec n 1) as [->|Hne]; [reflexivity|].
  assert (H1 : In 1 (removelast (divisors n))).
  { apply in_removelast_divisors; [exact Hn|]. split; [|lia].
    apply in_divisors; [exact Hn|]. split; [lia | apply Z.divide_1_l]. }
  destruct (removelast (divisors n)); [contradiction | reflexivity].
Qed.

(* ===================================================================== *)
(** ** Results about [convolution] *)
(* ===================================================================== *)

(** Exchanging a divisor and its cofactor exchanges the two functions. *)
Lemma convolution_swap (f h : Z -> Qc) (n : Z) :
  1 <= n -> convolution f h n = convolution h f n.
Proof.
  intros Hn. unfold convolution.
  rewrite <- (py_sum_divisors_cofactor (fun d => (h d * f (n / d)%Z)%Qc) n Hn).
  apply py_sum_map_ext. intros d Hd.
  destruct (divisors_cofactor n d Hn Hd) as (_ & _ & ->). ring.
Qed.

(** C10: the convolution is commutative in its two functions:
    [convolution(f, g)(n) = convolution(g, f)(n)] for [n >= 1]. *)
Theorem convolution_comm (f h : Z -> Qc) (n : Z) :
  1 <= n -> convolution f h n = convolution h f n.
Proof. exact (convolution_swap f h n). Qed.

Lemma convolution_comm_witness :
  convolution (fun n => Z2Qc (n * n)) (fun n => Z2Qc (mobius n)) 12 =
  convolution (fun n => Z2Qc (mobius n)) (fun n => Z2Qc (n * n)) 12.
Proof. apply (convolution_comm _ _ 12). lia. Defined.

(* ===================================================================== *)
(** ** Results about [dirichlet_inverse] *)
(* ===================================================================== *)

Lemma map_In_map {A B : Type} (h : A -> B) (l : list A) :
  map_In l (fun x _ => h x) = map h l.
Proof.
  induction l as [|x l IH]; cbn [map_In map]; [reflexivity|].
  f_equal. exact IH.
Qed.

(** The recursion of [g], as the source writes it. *)
Lemma g_recursion (f : Z -> Qc) (n : Z) :
  g f n =
  ((if is_nil (removelast (divisors n)) then Z2Qc 1
    else - py_sum (map (fun d => f (n / d)%Z * g f d)
                       (removelast (divisors n)))) / f 1%Z)%Qc.
Proof.
  rewrite g_equation_1. cbv zeta.
  rewrite (map_In_map (fun d => (f (n / d)%Z * g f d)%Qc)). reflexivity.
Qed.

Lemma Qc_eq_bool_false (x y : Qc) : x <> y -> Qc_eq_bool x y = false.
Proof.
  intros H. destruct (Qc_eq_bool x y) eqn:E; [|reflexivity].
  apply Qc_eq_bool_correct in E. contradiction.
Qed.

Lemma Qc_eq_bool_true (x : Qc) : Qc_eq_bool x x = true.
Proof.
  unfold Qc_eq_bool. destruct (Qc_eq_dec x x); [reflexivity | contradiction].
Qed.

Lemma dirichlet_inverse_Returns (f : Z -> Qc) :
  f 1 <> Z2Qc 0 -> dirichlet_inverse f = Returns (g f).
Proof.
  intros H. unfold dirichlet_inverse. rewrite Qc_eq_bool_false; auto.
Qed.

(** C8: [dirichlet_inverse(f)] raises the error ["... not invertible ..."]
    exactly when [f(1) = 0], and then returns nothing; when [f(1) <> 0]
    it returns a function and raises nothing. *)
Theorem dirichlet_inverse_raises_iff (f : Z -> Qc) :
  (dirichlet_inverse f =
     Raises (ValueError "Function 'f' is not invertible, as f(1) == 0.")
   <-> f 1 = Z2Qc 0) /\
  ((exists e, dirichlet_inverse f = Raises e) <-> f 1 = Z2Qc 0) /\
  ((exists g', dirichlet_inverse f = Returns g') <-> f 1 <> Z2Qc 0).
Proof.
  unfold dirichlet_inverse.
  destruct (Qc_eq_dec (f 1) (Z2Qc 0)) as [E|NE].
  - rewrite E, Qc_eq_bool_true. repeat split; try (intros; reflexivity); eauto.
    + intros [g' H]. discriminate H.
    + intros H. contradiction.
  - rewrite (Qc_eq_bool_false _ _ NE). repeat split; eauto.
    + intros H. discriminate H.
    + intros H. contradiction.
    + intros [e H]. discriminate H.
    + intros H. contradiction.
Qed.

(** The inverse is an inverse: [convolution(f, g)] is the unit. *)
Lemma convolution_inverse (f : Z -> Qc) (n : Z) :
  f 1 <> Z2Qc 0 -> 1 <= n -> convolution f (g f) n = unit_function n.
Proof.
  intros Hf Hn. rewrite (convolution_swap f (g f) n Hn). unfold convolution.
  rewrite (divisors_removelast n Hn) at 1. rewrite map_app, py_sum_app.
  cbn [map]. rewrite py_sum_cons, py_sum_nil, Z.div_same by lia.
  rewrite (g_recursion f n). rewrite (is_nil_removelast_divisors n Hn).
  unfold unit_function. change (Z2Qc 0) with 0%Qc in *. change (Z2Qc 1) with 1%Qc.
  destruct (Z.eqb_spec n 1) as [->|Hne].
  - cbn [removelast divisors map]. change (removelast (divisors 1)) with (@nil Z).
    cbn [map]. rewrite py_sum_nil. field. exact Hf.
  - rewrite (py_sum_map_ext (fun d => (g f d * f (n / d)%Z)%Qc)
               (fun d => (f (n / d)%Z * g f d)%Qc)) by (intros; ring).
    field. exact Hf.
Qed.

(** The inverse of the unit is the unit. *)
Lemma g_unit (h : Z -> Qc) (n : Z) :
  (forall m, 1 <= m -> h m = unit_function m) -> 1 <= n ->
  g h n = unit_function n.
Proof.
  intros Hh Hn. rewrite g_recursion, (is_nil_removelast_divisors n Hn).
  rewrite (Hh 1) by lia. unfold unit_function. cbn [Z.eqb Pos.eqb].
  change (Z2Qc 0) with 0%Qc. change (Z2Qc 1) with 1%Qc.
  destruct (Z.eqb_spec n 1) as [->|Hne]; [field; discriminate|].
  rewrite py_sum_map_zero; [field; discriminate|].
  intros d Hd. apply in_removelast_divisors in Hd as [Hd Hlt]; [|exact Hn].
  destruct (divisors_cofactor n d Hn Hd) as (Hc & Hmul & _).
  apply (divisors_bound n _ Hn) in Hc.
  rewrite Hh by lia. unfold unit_function.
  destruct (Z.eqb_spec (n / d) 1) as [E|_]; [|change (Z2Qc 0) with 0%Qc; ring].
  rewrite E in Hmul. lia.
Qed.

(** C4, for a [Fraction]-valued [f] and with the precondition of
    [dirichlet_inverse]: when [f(1) <> 0],
    [dirichlet_inverse(convolution(f, dirichlet_inverse(f)))(n)] is [1]
    for [n = 1] and [0] for every other [n >= 1]. *)
Theorem dirichlet_inverse_round_trip (f : Z -> Qc) :
  f 1 <> Z2Qc 0 ->
  exists g1 g2,
    dirichlet_inverse f = Returns g1 /\
    dirichlet_inverse (convolution f g1) = Returns g2 /\
    forall n, 1 <= n -> g2 n = if n =? 1 then Z2Qc 1 else Z2Qc 0.
Proof.
  intros Hf. exists (g f), (g (convolution f (g f))).
  split; [apply dirichlet_inverse_Returns; exact Hf|]. split.
  - apply dirichlet_inverse_Returns.
    rewrite (convolution_inverse f 1 Hf) by lia. discriminate.
  - intros n Hn. apply (g_unit _ n); [|exact Hn].
    intros m Hm. apply convolution_inverse; assumption.
Qed.

(** For [f(n) = Fraction(n + 2, 5)]. *)
Lemma dirichlet_inverse_round_trip_witness :
  exists g1 g2,
    dirichlet_inverse (fun n => Z2Qc (n + 2) / Z2Qc 5)%Qc = Returns g1 /\
    dirichlet_inverse (convolution (fun n => Z2Qc (n + 2) / Z2Qc 5)%Qc g1)
    = Returns g2 /\
    forall n, 1 <= n -> g2 n = if n =? 1 then Z2Qc 1 else Z2Qc 0.
Proof.
  apply (dirichlet_inverse_round_trip (fun n => Z2Qc (n + 2) / Z2Qc 5)%Qc).
  discriminate.
Defined.

(** The scenario of the specification: the inverse of the constant one is
    the Moebius function. *)
Example dirichlet_inverse_of_one :
  map (g (fun _ => Z2Qc 1)) [1; 2; 4; 6] = map Z2Qc [1; -1; 0; 1].
Proof. cbn [map]. repeat f_equal; apply Qc_is_canon; vm_compute; reflexivity. Qed.

(** C4 counterexample: for the zero function the inner call raises, so the
    composition has no value at all. *)
Lemma dirichlet_inverse_round_trip_zero :
  ~ exists g1 g2,
      dirichlet_inverse (fun _ => Z2Qc 0) = Returns g1 /\
      dirichlet_inverse (convolution (fun _ => Z2Qc 0) g1) = Returns g2 /\
      g2 1 = Z2Qc 1.
Proof. intros (g1 & g2 & H & _). discriminate H. Qed.

(* ===================================================================== *)
(** ** [dirichlet_inverse] over Python's numbers *)
(* ===================================================================== *)

Lemma sum_Fractions_from (l : list Qc) (a : Qc) :
  fold_left (fun acc item => r <- acc ;; v <- item ;; number_add r v)
            (map (fun q => Returns (PyFraction q)) l)
            (Returns (PyFraction a))
  = Returns (PyFraction (fold_left Qcplus l a)).
Proof.
  revert a. induction l as [|q l IH]; intros a; [reflexivity|].
  cbn [map fold_left bind number_add]. apply IH.
Qed.

(** A sum of [Fraction]s is exact. *)
Lemma sum_Fractions (l : list Qc) :
  l <> [] ->
  Numeric.sum (map (fun q => Returns (PyFraction q)) l)
  = Returns (PyFraction (py_sum l)).
Proof.
  destruct l as [|q l]; [congruence|]. intros _.
  unfold Numeric.sum, py_sum. cbn [map fold_left bind number_add].
  apply sum_Fractions_from.
Qed.

Lemma map_In_ext_map {A B : Type} (l : list A)
      (h : forall x, In x l -> B) (h' : A -> B) :
  (forall x (Hx : In x l), h x Hx = h' x) -> map_In l h = map h' l.
Proof.
  induction l as [|x l IH]; intros H; [reflexivity|].
  cbn [map_In map]. f_equal; [apply H|].
  apply IH. intros y Hy. apply H.
Qed.

Lemma Fraction_truediv_exact (p q : Qc) :
  q <> Z2Qc 0 -> Fraction_truediv p q = Returns (PyFraction (p / q)).
Proof.
  intros H. unfold Fraction_truediv. rewrite Qc_eq_bool_false by exact H.
  reflexivity.
Qed.

Lemma removelast_divisors_smaller (n d : Z) :
  In d (removelast (divisors n)) -> (Z.abs_nat d < Z.abs_nat n)%nat.
Proof.
  intros Hd.
  destruct (Z.eq_dec n 0) as [->|Hn]; [cbn in Hd; contradiction|].
  assert (E : divisors n = divisors (Z.abs n))
    by (unfold divisors; rewrite Z.abs_idemp; reflexivity).
  rewrite E in Hd.
  apply in_removelast_divisors in Hd as [Hd Hlt]; [|lia].
  apply divisors_bound in Hd; lia.
Qed.

(** On an [f] whose values at the positive integers are [Fraction]s, the
    [g] of [dirichlet_inverse] computes [Fraction]s, with the exact
    division: it is [g] over [Qc]. *)
Lemma g_Fractions (f : Z -> outcome number) (q : Z -> Qc) (n : Z) :
  (forall k, 1 <= k -> f k = Returns (PyFraction (q k))) ->
  q 1 <> Z2Qc 0 -> 1 <= n ->
  Numeric.g f n = Returns (PyFraction (g q n)).
Proof.
  intros Hf Hq.
  remember (Z.abs_nat n) as k eqn:Hk. revert n Hk.
  induction k as [k IH] using lt_wf_ind. intros n Hk Hn.
  rewrite Numeric.g_equation_1, g_recursion. cbv zeta.
  rewrite (Hf 1) by lia.
  destruct (removelast (divisors n)) as [|d0 ds] eqn:Hdivs.
  - cbn [is_nil bind number_truediv].
    apply Fraction_truediv_exact, Hq.
  - cbn [is_nil].
    rewrite (map_In_ext_map (d0 :: ds) _
               (fun d => Returns (PyFraction (q (n / d)%Z * g q d)))).
    + rewrite <- (map_map (fun d => (q (n / d)%Z * g q d)%Qc)
                          (fun v => Returns (PyFraction v))).
      rewrite sum_Fractions by discriminate.
      cbn [bind number_neg number_truediv].
      apply Fraction_truediv_exact, Hq.
    + intros d Hd. rewrite <- Hdivs in Hd.
      pose proof (removelast_divisors_smaller n d Hd) as Hlt.
      apply in_removelast_divisors in Hd as [Hd _]; [|exact Hn].
      destruct (divisors_cofactor n d Hn Hd) as (Hc & _).
      apply (divisors_bound n _ Hn) in Hc.
      apply (divisors_bound n _ Hn) in Hd.
      rewrite (Hf (n / d)) by lia. cbn [bind].
      rewrite (IH (Z.abs_nat d)) with (n := d); [reflexivity | | reflexivity |];
        lia.
Qed.

(** The convolution of two functions whose values are [Fraction]s is the
    exact one, in whatever order the divisors come. *)
Lemma convolution_Fractions (divisors_unordered : Z -> list Z)
      (f h : Z -> outcome number) (q r : Z -> Qc) (n : Z) :
  (forall k, 1 <= k -> f k = Returns (PyFraction (q k))) ->
  (forall k, 1 <= k -> h k = Returns (PyFraction (r k))) ->
  Permutation (divisors_unordered n) (divisors n) -> 1 <= n ->
  Numeric.convolution divisors_unordered f h n
  = Returns (PyFraction (convolution q r n)).
Proof.
  intros Hf Hh Hperm Hn. unfold Numeric.convolution, convolution.
  assert (Hin : forall d, In d (divisors_unordered n) -> 1 <= d /\ 1 <= n / d).
  { intros d Hd. apply (Permutation_in _ Hperm) in Hd.
    destruct (divisors_cofactor n d Hn Hd) as (Hc & _).
    apply (divisors_bound n _ Hn) in Hc.
    apply (divisors_bound n _ Hn) in Hd. lia. }
  rewrite (map_ext_in _ (fun d => Returns (PyFraction (q d * r (n / d)%Z)))).
  - rewrite <- (map_map (fun d => (q d * r (n / d)%Z)%Qc)
                        (fun v => Returns (PyFraction v))).
    rewrite sum_Fractions.
    + f_equal. f_equal. apply py_sum_Permutation, Permutation_map, Hperm.
    + intros E. apply map_eq_nil in E. rewrite E in Hperm.
      apply Permutation_nil in Hperm.
      assert (H1 : In 1 (divisors n))
        by (apply in_divisors; [exact Hn|]; split; [lia | apply Z.divide_1_l]).
      rewrite Hperm in H1. contradiction.
  - intros d Hd. destruct (Hin d Hd) as [H1 H2].
    rewrite (Hf d H1), (Hh (n / d) H2). reflexivity.
Qed.

Lemma number_bool_Fraction (p : Qc) :
  p <> Z2Qc 0 -> number_bool (PyFraction p) = true.
Proof.
  intros Hp. cbn [number_bool]. destruct (Z.eqb_spec (Qnum p) 0) as [E|]; [|reflexivity].
  exfalso. apply Hp. apply Qc_is_canon. unfold Qeq. rewrite E. reflexivity.
Qed.

(** Over Python's numbers, and with the divisors in whatever order: when
    the values of [f] are [Fraction]s and [f(1)] is not zero,
    [dirichlet_inverse(convolution(f, dirichlet_inverse(f)))] is the unit,
    in [Fraction]s. *)
Lemma dirichlet_inverse_round_trip_Fractions
      (divisors_unordered : Z -> list Z) (q : Z -> Qc) :
  (forall k, 1 <= k -> Permutation (divisors_unordered k) (divisors k)) ->
  q 1 <> Z2Qc 0 ->
  exists g1 g2,
    Numeric.dirichlet_inverse (Fraction_valued q) = Returns g1 /\
    Numeric.dirichlet_inverse
      (Numeric.convolution divisors_unordered (Fraction_valued q) g1)
    = Returns g2 /\
    forall n, 1 <= n -> g2 n = Returns (PyFraction (unit_function n)).
Proof.
  intros Hperm Hq.
  set (f := Fraction_valued q).
  set (h := Numeric.convolution divisors_unordered f (Numeric.g f)).
  assert (Hh : forall k, 1 <= k -> h k = Returns (PyFraction (unit_function k))).
  { intros k Hk. subst h.
    rewrite (convolution_Fractions divisors_unordered f (Numeric.g f) q (g q) k);
      try (apply Hperm; exact Hk); try exact Hk.
    - rewrite convolution_inverse by assumption. reflexivity.
    - intros; reflexivity.
    - intros j Hj. apply g_Fractions; try assumption. intros; reflexivity. }
  exists (Numeric.g f), (Numeric.g h). split; [|split].
  - unfold Numeric.dirichlet_inverse, f, Fraction_valued. cbn [bind].
    rewrite number_bool_Fraction by exact Hq. reflexivity.
  - fold h. unfold Numeric.dirichlet_inverse. rewrite (Hh 1) by lia. cbn [bind].
    rewrite number_bool_Fraction by discriminate. reflexivity.
  - intros n Hn.
    rewrite (g_Fractions h unit_function n Hh) by (discriminate || exact Hn).
    rewrite (g_unit unit_function n) by (auto; exact Hn). reflexivity.
Qed.

(** With integers for values the same code divides in [float]s.  For
    [f(n) = n*n + 2] the convolution with the inverse is [2^-51] at [3], not
    zero, and the round trip is [-2^-51] there, with the divisors in
    ascending and in descending order alike. *)
Example dirichlet_inverse_round_trip_int :
  let f := int_valued (fun n => n * n + 2) in
  let residue := SpecFloat.S754_finite false 4503599627370496 (-103) in
  (g1 <- Numeric.dirichlet_inverse f ;;
   Numeric.convolution divisors f g1 3) = Returns (PyFloat residue) /\
  (g1 <- Numeric.dirichlet_inverse f ;;
   g2 <- Numeric.dirichlet_inverse (Numeric.convolution divisors f g1) ;;
   g2 3) = Returns (PyFloat (float_neg residue)) /\
  (g1 <- Numeric.dirichlet_inverse f ;;
   g2 <- Numeric.dirichlet_inverse
           (Numeric.convolution (fun n => rev (divisors n)) f g1) ;;
   g2 3) = Returns (PyFloat (float_neg residue)) /\
  number_eq (PyFloat (float_neg residue)) (PyInt 0) = false.
Proof. vm_compute. repeat split. Qed.

(** For [f(n) = n + 2] in integers, inverting twice gives
    [6.999999999999999] at [5]. *)
Example dirichlet_inverse_twice_int :
  let f := int_valued (fun n => n + 2) in
  let almost_7 := SpecFloat.S754_finite false 7881299347898367 (-50) in
  (g1 <- Numeric.dirichlet_inverse f ;;
   g2 <- Numeric.dirichlet_inverse g1 ;;
   g2 5) = Returns (PyFloat almost_7) /\
  number_eq (PyFloat almost_7) (PyInt 7) = false.
Proof. vm_compute. repeat split. Qed.

(* ===================================================================== *)
(** ** Primes, squares and the Moebius function *)
(* ===================================================================== *)

Lemma is_prime_spec (p : Z) : is_prime p = true <-> Z.prime p.
Proof.
  unfold is_prime, Z.prime. rewrite andb_true_iff, Z.ltb_lt, forallb_forall.
  split; intros [Hp H]; (split; [exact Hp|]).
  - intros d Hd Hdiv. specialize (H d). rewrite in_range in H.
    specialize (H ltac:(lia)). apply negb_true_iff, Z.eqb_neq in H.
    apply H, Z.mod_divide; [lia | exact Hdiv].
  - intros d Hd. apply in_range in Hd. apply negb_true_iff, Z.eqb_neq.
    intros Hm. apply (H d); [lia|]. apply Z.mod_divide; [lia | exact Hm].
Qed.

Lemma exists_prime_divisor (n : Z) : 2 <= n -> exists p, Z.prime p /\ (p | n).
Proof.
  intros Hn. assert (Hk : n <= Z.of_nat (Z.to_nat n)) by lia.
  revert Hn Hk. generalize (Z.to_nat n) as k. intros k. revert n.
  induction k as [|k IH]; intros n Hn Hk; [lia|].
  destruct (prime_dec n) as [Hp|Hnp].
  - exists n. split; [apply prime_alt; exact Hp | apply Z.divide_refl].
  - destruct (not_prime_divide n ltac:(lia) Hnp) as (d & Hd & Hdn).
    destruct (IH d ltac:(lia) ltac:(lia)) as (p & Hp & Hpd).
    exists p. split; [exact Hp | exact (Z.divide_trans _ _ _ Hpd Hdn)].
Qed.

Lemma has_square_factor_spec (n : Z) :
  1 <= n ->
  has_square_factor n = true <-> exists d, 2 <= d /\ (d * d | n).
Proof.
  intros Hn. unfold has_square_factor. rewrite existsb_exists. split.
  - intros (d & Hd & Hm). apply in_range in Hd. apply Z.eqb_eq in Hm.
    exists d. split; [lia|]. apply Z.mod_divide; [nia | exact Hm].
  - intros (d & Hd & Hdiv). exists d. split.
    + apply in_range. apply Z.divide_pos_le in Hdiv; nia.
    + apply Z.eqb_eq, Z.mod_divide; [nia | exact Hdiv].
Qed.

Lemma mobius_square (p d : Z) :
  Z.prime p -> 1 <= d -> (p * p | d) -> mobius d = 0.
Proof.
  intros Hp Hd Hdiv. unfold mobius.
  assert (H : has_square_factor d = true).
  { apply has_square_factor_spec; [exact Hd|].
    exists p. split; [apply Z.prime_ge_2; exact Hp | exact Hdiv]. }
  rewrite H. reflexivity.
Qed.

Lemma has_square_factor_prime_mul (p d : Z) :
  Z.prime p -> 1 <= d -> ~ (p | d) ->
  has_square_factor (p * d) = has_square_factor d.
Proof.
  intros Hp Hd Hnd. pose proof (Z.prime_ge_2 p Hp) as Hp2.
  apply eq_true_iff_eq.
  rewrite (has_square_factor_spec (p * d)) by nia.
  rewrite (has_square_factor_spec d) by exact Hd.
  split; intros (e & He & Hdiv); exists e; (split; [exact He|]).
  - destruct (Z.BoolSpec_divide p e) as [[k Hk]|Hpe].
    + exfalso. apply Hnd. subst e.
      assert (Hdiv' : (p * (p * k * k) | p * d)).
      { destruct Hdiv as [z Hz]. exists z. lia. }
      apply Z.mul_divide_cancel_l in Hdiv'; [|lia].
      apply Z.divide_trans with (2 := Hdiv').
      exists (k * k). lia.
    + apply Z.gauss with (m := p); [exact Hdiv|].
      rewrite Z.gcd_comm. apply Z.coprime_mul_r; apply Z.coprime_prime_l; assumption.
  - apply Z.divide_mul_r. exact Hdiv.
Qed.

Lemma in_prime_divisors (n q : Z) :
  1 <= n -> In q (prime_divisors n) <-> Z.prime q /\ (q | n).
Proof.
  intros Hn. unfold prime_divisors. rewrite filter_In, is_prime_spec, in_divisors by exact Hn.
  split; [tauto|]. intros [Hq Hdiv]. pose proof (Z.prime_ge_2 q Hq).
  split; [split; [lia | exact Hdiv] | exact Hq].
Qed.

Lemma prime_divisors_prime_mul (p d : Z) :
  Z.prime p -> 1 <= d -> ~ (p | d) ->
  Permutation (prime_divisors (p * d)) (p :: prime_divisors d).
Proof.
  intros Hp Hd Hnd. pose proof (Z.prime_ge_2 p Hp) as Hp2.
  apply NoDup_Permutation.
  - apply NoDup_filter, divisors_NoDup.
  - constructor; [|apply NoDup_filter, divisors_NoDup].
    rewrite in_prime_divisors by exact Hd. tauto.
  - intros q. cbn [In]. rewrite !in_prime_divisors by nia. split.
    + intros [Hq Hdiv]. apply Z.divide_prime_mul in Hdiv as [Hqp|Hqd]; [| |exact Hq].
      * left. symmetry. apply Z.divide_prime_prime; assumption.
      * right. split; assumption.
    + intros [<-|[Hq Hdiv]].
      * split; [exact Hp | apply Z.divide_factor_l].
      * split; [exact Hq | apply Z.divide_mul_r; exact Hdiv].
Qed.

Lemma mobius_prime_mul (p d : Z) :
  Z.prime p -> 1 <= d -> ~ (p | d) -> mobius (p * d) = - mobius d.
Proof.
  intros Hp Hd Hnd. unfold mobius.
  rewrite (has_square_factor_prime_mul p d Hp Hd Hnd).
  rewrite (Permutation_length (prime_divisors_prime_mul p d Hp Hd Hnd)).
  cbn [length]. rewrite Nat.even_succ, <- Nat.negb_even.
  destruct (has_square_factor d), (Nat.even (length (prime_divisors d))); reflexivity.
Qed.

(** The divisors of [n] that a prime factor [p] of [n] divides exactly once
    are [p] times the divisors that it does not divide. *)
Lemma divisors_prime_shift (p n : Z) :
  Z.prime p -> 1 <= n -> (p | n) ->
  Permutation
    (filter (fun d => negb (d mod (p * p) =? 0))
            (filter (fun d => d mod p =? 0) (divisors n)))
    (map (Z.mul p) (filter (fun d => negb (d mod p =? 0)) (divisors n))).
Proof.
  intros Hp Hn Hpn. pose proof (Z.prime_ge_2 p Hp) as Hp2.
  apply NoDup_Permutation.
  - apply NoDup_filter, NoDup_filter, divisors_NoDup.
  - apply Injective_map_NoDup; [|apply NoDup_filter, divisors_NoDup].
    intros x y. nia.
  - intros x. rewrite in_map_iff, !filter_In, in_divisors by exact Hn.
    rewrite negb_true_iff, Z.eqb_eq, Z.eqb_neq. split.
    + intros [[[Hx Hxn] Hm] Hm2]. apply Z.mod_divide in Hm; [|lia].
      destruct Hm as [k Hk]. exists k. split; [lia|].
      rewrite filter_In, in_divisors, negb_true_iff, Z.eqb_neq by exact Hn.
      repeat split.
      * nia.
      * apply Z.divide_trans with (2 := Hxn). exists p. lia.
      * intros Hkp. apply Hm2. apply Z.mod_divide in Hkp; [|lia].
        apply Z.mod_divide; [nia|]. destruct Hkp as [j Hj]. exists j. nia.
    + intros (k & <- & Hk).
      rewrite filter_In, in_divisors, negb_true_iff, Z.eqb_neq in Hk by exact Hn.
      destruct Hk as [[Hk Hkn] Hkp].
      assert (Hnd : ~ (p | k)) by (intros H; apply Hkp, Z.mod_divide; [lia | exact H]).
      repeat split.
      * nia.
      * destruct Hpn as [m Hm]. subst n. rewrite (Z.mul_comm m p).
        apply Z.mul_divide_mono_l. apply Z.gauss with (m := p).
        -- rewrite Z.mul_comm. exact Hkn.
        -- rewrite Z.gcd_comm. apply Z.coprime_prime_l; assumption.
      * apply Z.mod_divide; [lia|]. apply Z.divide_factor_l.
      * intros Hm. apply Z.mod_divide in Hm; [|nia].
        apply Z.mul_divide_cancel_l in Hm; [|lia]. contradiction.
Qed.

(** The sum of the Moebius function over the divisors of [n]. *)
Lemma mobius_sum (n : Z) :
  1 <= n ->
  py_sum (map (fun d => Z2Qc (mobius d)) (divisors n)) = unit_function n.
Proof.
  intros Hn. unfold unit_function. destruct (Z.eqb_spec n 1) as [->|Hne]; [reflexivity|].
  destruct (exists_prime_divisor n ltac:(lia)) as (p & Hp & Hpn).
  pose proof (Z.prime_ge_2 p Hp) as Hp2.
  set (F := fun d => Z2Qc (mobius d)).
  rewrite (py_sum_filter_split (fun d => d mod p =? 0) F).
  rewrite (py_sum_filter_split (fun d => negb (d mod (p * p) =? 0)) F
             (filter (fun d => d mod p =? 0) (divisors n))).
  rewrite (py_sum_Permutation _ _
             (Permutation_map F (divisors_prime_shift p n Hp Hn Hpn))).
  rewrite map_map.
  rewrite (py_sum_map_ext (fun d => F (p * d)) (fun d => (- F d)%Qc)).
  2:{ intros d Hd. apply filter_In in Hd as [Hd Hm].
      apply (divisors_bound n d Hn) in Hd.
      apply negb_true_iff, Z.eqb_neq in Hm. unfold F.
      rewrite mobius_prime_mul, Z2Qc_opp; [reflexivity | exact Hp | lia |].
      intros H. apply Hm, Z.mod_divide; [lia | exact H]. }
  rewrite py_sum_map_opp.
  rewrite (py_sum_map_zero F (filter (fun x => negb (negb (x mod (p * p) =? 0))) _)).
  2:{ intros d Hd. apply filter_In in Hd as [Hd Hm].
      apply filter_In in Hd as [Hd _]. apply (divisors_bound n d Hn) in Hd.
      rewrite negb_involutive in Hm. apply Z.eqb_eq in Hm. unfold F.
      rewrite (mobius_square p d Hp); [reflexivity | lia |].
      apply Z.mod_divide; [nia | exact Hm]. }
  change (Z2Qc 0) with 0%Qc. ring.
Qed.

(* ===================================================================== *)
(** ** Associativity of the convolution and Moebius inversion *)
(* ===================================================================== *)

(** The pairs [(e, d)] with [e | d | n], listed by [d] and listed by [e]. *)
Lemma divisor_pairs_Permutation (n : Z) :
  1 <= n ->
  Permutation
    (flat_map (fun d => map (fun e => (e, d)) (divisors d)) (divisors n))
    (flat_map (fun e => map (fun k => (e, e * k)) (divisors (n / e))) (divisors n)).
Proof.
  intros Hn. apply NoDup_Permutation.
  - apply NoDup_flat_map.
    + apply divisors_NoDup.
    + intros d _. apply Injective_map_NoDup; [|apply divisors_NoDup].
      intros e e' [= ->]. reflexivity.
    + intros d d' t _ _ H1 H2.
      apply in_map_iff in H1 as (e & <- & _).
      apply in_map_iff in H2 as (e' & [= _ ->] & _). reflexivity.
  - apply NoDup_flat_map.
    + apply divisors_NoDup.
    + intros e He. apply (divisors_bound n e Hn) in He.
      apply Injective_map_NoDup; [|apply divisors_NoDup].
      intros k k' [= H]. nia.
    + intros e e' t _ _ H1 H2.
      apply in_map_iff in H1 as (k & <- & _).
      apply in_map_iff in H2 as (k' & [= -> _] & _). reflexivity.
  - intros [e d]. rewrite !in_flat_map. split.
    + intros (d' & Hd' & Hin). apply in_map_iff in Hin as (e' & [= -> ->] & He).
      pose proof (divisors_bound n d Hn Hd') as Hdb.
      apply in_divisors in He as [He [k Hk]]; [|lia].
      apply in_divisors in Hd' as [Hd [m Hm]]; [|exact Hn].
      assert (Hen : n / e = m * k).
      { subst n d. rewrite Z.mul_assoc. apply Z.div_mul. lia. }
      exists e. split.
      * apply in_divisors; [exact Hn|]. split; [exact He|].
        exists (m * k). lia.
      * apply in_map_iff. exists k. split; [f_equal; lia|].
        rewrite Hen. apply in_divisors; [nia|]. split; [nia|].
        exists m. reflexivity.
    + intros (e' & He' & Hin). apply in_map_iff in Hin as (k & [= -> <-] & Hk).
      destruct (divisors_cofactor n e Hn He') as (Hc & Hmul & _).
      pose proof (divisors_bound n e Hn He') as Heb.
      pose proof (divisors_bound n _ Hn Hc) as Hcb.
      apply in_divisors in Hk as [Hk [m Hm]]; [|lia].
      exists (e * k). split.
      * apply in_divisors; [exact Hn|]. split; [nia|].
        exists m. rewrite <- Hmul, Hm. ring.
      * apply in_map_iff. exists e. split; [reflexivity|].
        apply in_divisors; [nia|]. split; [lia|]. apply Z.divide_factor_l.
Qed.

Lemma convolution_assoc (f g' h : Z -> Qc) (n : Z) :
  1 <= n ->
  convolution (convolution f g') h n = convolution f (convolution g' h) n.
Proof.
  intros Hn. unfold convolution.
  set (T := fun t : Z * Z =>
              (f (fst t) * g' (snd t / fst t)%Z * h (n / snd t)%Z)%Qc).
  transitivity (py_sum (map T
    (flat_map (fun d => map (fun e => (e, d)) (divisors d)) (divisors n)))).
  - rewrite py_sum_flat_map. apply py_sum_map_ext. intros d _.
    rewrite map_map. unfold T. cbn [fst snd].
    rewrite (py_sum_map_ext (fun e => (f e * g' (d / e)%Z * h (n / d)%Z)%Qc)
               (fun e => (h (n / d)%Z * (f e * g' (d / e)%Z))%Qc))
      by (intros; ring).
    rewrite py_sum_map_scale. ring.
  - rewrite (py_sum_Permutation _ _
               (Permutation_map T (divisor_pairs_Permutation n Hn))).
    rewrite py_sum_flat_map. apply py_sum_map_ext. intros e He.
    pose proof (divisors_bound n e Hn He) as Heb.
    rewrite map_map, <- py_sum_map_scale. apply py_sum_map_ext. intros k Hk.
    destruct (divisors_cofactor n e Hn He) as (Hc & _ & _).
    pose proof (divisors_bound n _ Hn Hc) as Hcb.
    apply divisors_bound in Hk; [|lia].
    unfold T. cbn [fst snd].
    rewrite (Z.mul_comm e k), Z.div_mul by lia.
    rewrite (Z.mul_comm k e), <- Z.div_div by lia. ring.
Qed.

(** Convolution with the unit. *)
Lemma convolution_unit_r (f : Z -> Qc) (u : Z -> Qc) (n : Z) :
  1 <= n -> (forall m, 1 <= m -> u m = unit_function m) ->
  convolution f u n = f n.
Proof.
  intros Hn Hu. unfold convolution.
  rewrite (divisors_removelast n Hn) at 1. rewrite map_app, py_sum_app.
  cbn [map]. rewrite py_sum_cons, py_sum_nil, Z.div_same, (Hu 1) by lia.
  rewrite py_sum_map_zero.
  - unfold unit_function. cbn [Z.eqb Pos.eqb]. change (Z2Qc 1) with 1%Qc. ring.
  - intros d Hd. apply in_removelast_divisors in Hd as [Hd Hlt]; [|exact Hn].
    destruct (divisors_cofactor n d Hn Hd) as (Hc & Hmul & _).
    apply (divisors_bound n _ Hn) in Hc.
    rewrite Hu by lia. unfold unit_function.
    destruct (Z.eqb_spec (n / d) 1) as [E|_]; [|change (Z2Qc 0) with 0%Qc; ring].
    rewrite E in Hmul. lia.
Qed.

(** C5: [mobius_inverse(divisor_sum(f))(n) = f(n)] for [n >= 1]. *)
Theorem mobius_inversion (f : Z -> Qc) (n : Z) :
  1 <= n -> mobius_inverse (divisor_sum f) n = f n.
Proof.
  intros Hn. unfold mobius_inverse, divisor_sum.
  rewrite (convolution_assoc f _ _ n Hn).
  apply convolution_unit_r; [exact Hn|].
  intros m Hm. rewrite (convolution_swap _ _ m Hm). unfold convolution.
  rewrite (py_sum_map_ext _ (fun d => Z2Qc (mobius d))).
  - apply mobius_sum. exact Hm.
  - intros d _. change (Z2Qc 1) with 1%Qc. ring.
Qed.

Lemma mobius_inversion_witness :
  mobius_inverse (divisor_sum (fun n => Z2Qc (n * n))) 12 = Z2Qc (12 * 12).
Proof. apply (mobius_inversion (fun n => Z2Qc (n * n)) 12). lia. Defined.

(* ===================================================================== *)
(** ** The totient and sums over gcds *)
(* ===================================================================== *)

(** The [k] of [1..n] with [gcd(n, k) = d] are [d] times the [j] of
    [1..n/d] coprime to [n/d]. *)
Lemma gcd_class_Permutation (n d : Z) :
  1 <= n -> In d (divisors n) ->
  Permutation
    (filter (fun k => Z.gcd n k =? d) (range 1 (n + 1)))
    (map (Z.mul d)
         (filter (fun j => Z.gcd (n / d) j =? 1) (range 1 (n / d + 1)))).
Proof.
  intros Hn Hd.
  destruct (divisors_cofactor n d Hn Hd) as (Hc & Hmul & _).
  pose proof (divisors_bound n d Hn Hd) as Hdb.
  pose proof (divisors_bound n _ Hn Hc) as Hcb.
  set (m := n / d) in *.
  apply NoDup_Permutation.
  - apply NoDup_filter, range_NoDup.
  - apply Injective_map_NoDup; [|apply NoDup_filter, range_NoDup].
    intros x y. nia.
  - intros x. rewrite in_map_iff, filter_In, in_range, Z.eqb_eq. split.
    + intros [Hx Hg].
      assert (Hdx : (d | x)) by (rewrite <- Hg; apply Z.gcd_divide_r).
      destruct Hdx as [j Hj]. exists j. split; [lia|].
      rewrite filter_In, in_range, Z.eqb_eq. split; [nia|].
      replace j with (x / d) by (subst x; apply Z.div_mul; lia).
      apply Z.gcd_div_gcd; [lia | symmetry; exact Hg].
    + intros (j & <- & Hj). rewrite filter_In, in_range, Z.eqb_eq in Hj.
      destruct Hj as [Hj Hg]. split; [nia|].
      rewrite <- Hmul, Z.gcd_mul_mono_l_nonneg, Hg by lia. lia.
Qed.

Lemma totient_count (n d : Z) :
  1 <= n -> In d (divisors n) ->
  Z.of_nat (length (filter (fun k => Z.gcd n k =? d) (range 1 (n + 1)))) =
  totient (n / d).
Proof.
  intros Hn Hd. rewrite (Permutation_length (gcd_class_Permutation n d Hn Hd)).
  rewrite length_map. reflexivity.
Qed.

(** A sum of [F (key k)] over [l], collected by the value of the key. *)
Lemma py_sum_by_key (F : Z -> Qc) (key : Z -> Z) (D l : list Z) :
  NoDup D -> (forall k, In k l -> In (key k) D) ->
  py_sum (map (fun k => F (key k)) l) =
  py_sum (map (fun d =>
                 (F d * Z2Qc (Z.of_nat (length (filter (fun k => key k =? d) l))))%Qc)
              D).
Proof.
  intros HD. induction l as [|k l IH]; intros Hkey.
  - cbn [map filter length]. rewrite py_sum_map_zero; [reflexivity|].
    intros d _. change (Z2Qc (Z.of_nat 0)) with 0%Qc. ring.
  - cbn [map filter]. rewrite py_sum_cons, IH
      by (intros k' Hk'; apply Hkey; right; exact Hk').
    rewrite <- (py_sum_select F (key k) D HD) by (apply Hkey; left; reflexivity).
    rewrite <- py_sum_map_add. apply py_sum_map_ext. intros d _.
    rewrite (Z.eqb_sym d (key k)).
    destruct (key k =? d); cbn [length].
    + rewrite Nat2Z.inj_succ, <- Z.add_1_r, Z2Qc_add.
      change (Z2Qc 1) with 1%Qc. ring.
    + ring.
Qed.

(** C6: [gcd_composition(f)(n)], that is [convolution(f, totient)(n)], is
    the sum of [f(gcd(n, k))] for [k] from [1] to [n]. *)
Theorem gcd_composition_sum (f : Z -> Qc) (n : Z) :
  1 <= n ->
  gcd_composition f n = py_sum (map (fun k => f (Z.gcd n k)) (range 1 (n + 1))).
Proof.
  intros Hn. unfold gcd_composition, convolution.
  rewrite (py_sum_by_key f (Z.gcd n) (divisors n)).
  - apply py_sum_map_ext. intros d Hd.
    rewrite (totient_count n d Hn Hd). reflexivity.
  - apply divisors_NoDup.
  - intros k Hk. apply in_range in Hk. apply in_divisors; [exact Hn|]. split.
    + pose proof (Z.gcd_nonneg n k).
      assert (Z.gcd n k <> 0) by (intros H0; apply Z.gcd_eq_0_l in H0; lia). lia.
    + apply Z.gcd_divide_l.
Qed.

Lemma gcd_composition_sum_witness :
  gcd_composition (fun n => Z2Qc (n * n)) 12 =
  py_sum (map (fun k => Z2Qc (Z.gcd 12 k * Z.gcd 12 k)) (range 1 (12 + 1))).
Proof. apply (gcd_composition_sum (fun n => Z2Qc (n * n)) 12). lia. Defined.

(* ===================================================================== *)
(** ** More about the convolution and its inverse *)
(* ===================================================================== *)

Lemma convolution_unit_l (f u : Z -> Qc) (n : Z) :
  1 <= n -> (forall m, 1 <= m -> u m = unit_function m) ->
  convolution u f n = f n.
Proof.
  intros Hn Hu. rewrite (convolution_swap u f n Hn).
  apply convolution_unit_r; assumption.
Qed.

Lemma convolution_ext (f f' h h' : Z -> Qc) (n : Z) :
  1 <= n ->
  (forall m, 1 <= m -> f m = f' m) -> (forall m, 1 <= m -> h m = h' m) ->
  convolution f h n = convolution f' h' n.
Proof.
  intros Hn Hf Hh. unfold convolution. apply py_sum_map_ext. intros d Hd.
  destruct (divisors_cofactor n d Hn Hd) as (Hc & _ & _).
  rewrite Hf by (apply (divisors_bound n d Hn Hd)).
  rewrite Hh by (apply (divisors_bound n _ Hn Hc)). reflexivity.
Qed.

(** The value at [n] of a right inverse of [f] is fixed by its values at
    the proper divisors of [n]; so [g f] is the only right inverse. *)
Lemma right_inverse_unique (f u : Z -> Qc) :
  f 1 <> Z2Qc 0 ->
  (forall m, 1 <= m -> convolution f u m = unit_function m) ->
  forall n, 1 <= n -> u n = g f n.
Proof.
  intros Hf Hu n Hn.
  assert (Hk : n <= Z.of_nat (Z.to_nat n)) by lia.
  revert Hn Hk. generalize (Z.to_nat n) as k. intros k. revert n.
  induction k as [|k IH]; intros n Hn Hk; [lia|].
  assert (Hrec : forall w : Z -> Qc,
             convolution f w n = unit_function n ->
             w n = ((unit_function n -
                     py_sum (map (fun d => f (n / d)%Z * w d)
                                 (removelast (divisors n)))) / f 1%Z)%Qc).
  { intros w Hw. rewrite (convolution_swap f w n Hn) in Hw. unfold convolution in Hw.
    rewrite (divisors_removelast n Hn) in Hw at 1.
    rewrite map_app, py_sum_app in Hw. cbn [map] in Hw.
    rewrite py_sum_cons, py_sum_nil, Z.div_same in Hw by lia.
    rewrite <- Hw.
    rewrite (py_sum_map_ext (fun d => (w d * f (n / d)%Z)%Qc)
               (fun d => (f (n / d)%Z * w d)%Qc)) by (intros; ring).
    change (Z2Qc 0) with 0%Qc in Hf. field. exact Hf. }
  rewrite (Hrec u (Hu n Hn)), (Hrec (g f) (convolution_inverse f n Hf Hn)).
  f_equal. f_equal. apply py_sum_map_ext. intros d Hd.
  apply in_removelast_divisors in Hd as [Hd Hlt]; [|exact Hn].
  pose proof (divisors_bound n d Hn Hd).
  rewrite (IH d) by lia. reflexivity.
Qed.

Lemma g_at_one (f : Z -> Qc) : g f 1 = (Z2Qc 1 / f 1%Z)%Qc.
Proof. rewrite g_recursion. reflexivity. Qed.

Lemma g_at_one_nonzero (f : Z -> Qc) : f 1 <> Z2Qc 0 -> g f 1 <> Z2Qc 0.
Proof.
  intros Hf. rewrite g_at_one. change (Z2Qc 1) with 1%Qc.
  change (Z2Qc 0) with 0%Qc in *. intros H.
  assert (E : (1 / f 1%Z * f 1%Z = 1)%Qc) by (field; exact Hf).
  rewrite H in E. ring_simplify in E. discriminate E.
Qed.

(** X1: The convolution is associative. *)
Theorem convolution_associative (f1 f2 f3 : Z -> Qc) (n : Z) :
  1 <= n ->
  convolution (convolution f1 f2) f3 n = convolution f1 (convolution f2 f3) n.
Proof. exact (convolution_assoc f1 f2 f3 n). Qed.

Lemma convolution_associative_witness :
  convolution (convolution (fun n => Z2Qc n) (fun n => Z2Qc (mobius n)))
              (fun n => Z2Qc (totient n)) 12 =
  convolution (fun n => Z2Qc n)
              (convolution (fun n => Z2Qc (mobius n)) (fun n => Z2Qc (totient n))) 12.
Proof. apply (convolution_associative _ _ _ 12). lia. Defined.

(** X2: For a [Fraction]-valued [f], what [dirichlet_inverse(f)] returns is
    an inverse of [f] on both sides. *)
Theorem dirichlet_inverse_two_sided (f : Z -> Qc) :
  f 1 <> Z2Qc 0 ->
  exists g1,
    dirichlet_inverse f = Returns g1 /\
    forall n, 1 <= n ->
      convolution f g1 n = (if n =? 1 then Z2Qc 1 else Z2Qc 0) /\
      convolution g1 f n = (if n =? 1 then Z2Qc 1 else Z2Qc 0).
Proof.
  intros Hf. exists (g f). split; [apply dirichlet_inverse_Returns; exact Hf|].
  intros n Hn. split.
  - apply (convolution_inverse f n Hf Hn).
  - rewrite (convolution_swap (g f) f n Hn). apply (convolution_inverse f n Hf Hn).
Qed.

(** For [f(n) = Fraction(n + 2, 5)]. *)
Lemma dirichlet_inverse_two_sided_witness :
  exists g1,
    dirichlet_inverse (fun n => Z2Qc (n + 2) / Z2Qc 5)%Qc = Returns g1 /\
    forall n, 1 <= n ->
      convolution (fun n => Z2Qc (n + 2) / Z2Qc 5)%Qc g1 n
      = (if n =? 1 then Z2Qc 1 else Z2Qc 0) /\
      convolution g1 (fun n => Z2Qc (n + 2) / Z2Qc 5)%Qc n
      = (if n =? 1 then Z2Qc 1 else Z2Qc 0).
Proof.
  apply (dirichlet_inverse_two_sided (fun n => Z2Qc (n + 2) / Z2Qc 5)%Qc).
  discriminate.
Defined.

(** X3: The inverse of the constant one is the Moebius function. *)
Theorem dirichlet_inverse_one_is_mobius :
  exists g1,
    dirichlet_inverse (fun _ => Z2Qc 1) = Returns g1 /\
    forall n, 1 <= n -> g1 n = Z2Qc (mobius n).
Proof.
  exists (g (fun _ => Z2Qc 1)). split; [reflexivity|].
  intros n Hn. symmetry.
  apply (right_inverse_unique (fun _ => Z2Qc 1) (fun n => Z2Qc (mobius n)));
    [discriminate | | exact Hn].
  intros m Hm. unfold convolution.
  rewrite (py_sum_map_ext _ (fun d => Z2Qc (mobius (m / d)))).
  - rewrite (py_sum_divisors_cofactor (fun d => Z2Qc (mobius d)) m Hm).
    apply mobius_sum. exact Hm.
  - intros d _. change (Z2Qc 1) with 1%Qc. ring.
Qed.

(** X4: For a [Fraction]-valued [f], inverting twice gives the function
    back. *)
Theorem dirichlet_inverse_involutive (f : Z -> Qc) :
  f 1 <> Z2Qc 0 ->
  exists g1 g2,
    dirichlet_inverse f = Returns g1 /\
    dirichlet_inverse g1 = Returns g2 /\
    forall n, 1 <= n -> g2 n = f n.
Proof.
  intros Hf. exists (g f), (g (g f)).
  split; [apply dirichlet_inverse_Returns; exact Hf|].
  split; [apply dirichlet_inverse_Returns, g_at_one_nonzero; exact Hf|].
  intros n Hn. symmetry.
  apply right_inverse_unique; [apply g_at_one_nonzero; exact Hf | | exact Hn].
  intros m Hm. rewrite (convolution_swap (g f) f m Hm).
  apply (convolution_inverse f m Hf Hm).
Qed.

(** For [f(n) = Fraction(n + 2, 5)]. *)
Lemma dirichlet_inverse_involutive_witness :
  exists g1 g2,
    dirichlet_inverse (fun n => Z2Qc (n + 2) / Z2Qc 5)%Qc = Returns g1 /\
    dirichlet_inverse g1 = Returns g2 /\
    forall n, 1 <= n -> g2 n = (Z2Qc (n + 2) / Z2Qc 5)%Qc.
Proof.
  apply (dirichlet_inverse_involutive (fun n => Z2Qc (n + 2) / Z2Qc 5)%Qc).
  discriminate.
Defined.

(** X5: The other direction of the Moebius inversion. *)
Theorem divisor_sum_mobius_inverse (f : Z -> Qc) (n : Z) :
  1 <= n -> divisor_sum (mobius_inverse f) n = f n.
Proof.
  intros Hn. unfold mobius_inverse, divisor_sum.
  rewrite (convolution_assoc f _ _ n Hn).
  apply convolution_unit_r; [exact Hn|].
  intros m Hm. unfold convolution.
  rewrite (py_sum_map_ext _ (fun d => Z2Qc (mobius d))).
  - apply mobius_sum. exact Hm.
  - intros d _. change (Z2Qc 1) with 1%Qc. ring.
Qed.

Lemma divisor_sum_mobius_inverse_witness :
  divisor_sum (mobius_inverse (fun n => Z2Qc (n * n))) 12 = Z2Qc (12 * 12).
Proof. apply (divisor_sum_mobius_inverse (fun n => Z2Qc (n * n)) 12). lia. Defined.

Lemma py_sum_ones {A : Type} (l : list A) :
  py_sum (map (fun _ => Z2Qc 1) l) = Z2Qc (Z.of_nat (length l)).
Proof.
  induction l as [|x l IH]; [reflexivity|].
  cbn [map length]. rewrite py_sum_cons, IH, Nat2Z.inj_succ, <- Z.add_1_l, Z2Qc_add.
  reflexivity.
Qed.

Lemma range_length (a b : Z) : Z.of_nat (length (range a b)) = Z.max 0 (b - a).
Proof. unfold range. rewrite length_map, length_seq. lia. Qed.

(** X6: The totients of the divisors of [n] add up to [n]. *)
Theorem divisor_sum_totient (n : Z) :
  1 <= n -> divisor_sum (fun m => Z2Qc (totient m)) n = Z2Qc n.
Proof.
  intros Hn. unfold divisor_sum.
  rewrite (convolution_swap _ _ n Hn). unfold convolution.
  transitivity (py_sum (map (fun k => (fun _ => Z2Qc 1) (Z.gcd n k)) (range 1 (n + 1)))).
  - rewrite (py_sum_by_key (fun _ => Z2Qc 1) (Z.gcd n) (divisors n)).
    + apply py_sum_map_ext. intros d Hd.
      rewrite (totient_count n d Hn Hd). reflexivity.
    + apply divisors_NoDup.
    + intros k Hk. apply in_range in Hk. apply in_divisors; [exact Hn|]. split.
      * pose proof (Z.gcd_nonneg n k).
        assert (Z.gcd n k <> 0) by (intros H0; apply Z.gcd_eq_0_l in H0; lia). lia.
      * apply Z.gcd_divide_l.
  - rewrite py_sum_ones, range_length. f_equal. lia.
Qed.

Lemma divisor_sum_totient_witness :
  divisor_sum (fun m => Z2Qc (totient m)) 12 = Z2Qc 12.
Proof. apply (divisor_sum_totient 12). lia. Defined.

(* ===================================================================== *)
(** ** [farey] between any two bounds *)
(* ===================================================================== *)

(** [Fraction] gives the same value in lowest terms. *)
Lemma Fraction_reduced (num den : Z) :
  0 < den ->
  let p := num / Z.gcd num den in
  let q := den / Z.gcd num den in
  Fraction num den = Returns (p, q) /\ reduced (p, q) /\ p * den = num * q.
Proof.
  intros Hden. unfold Fraction.
  destruct (Z.eqb_spec den 0); [lia|].
  destruct (Z.ltb_spec den 0); [lia|].
  set (g0 := Z.gcd num den).
  assert (Hg : 0 < g0).
  { pose proof (Z.gcd_nonneg num den).
    assert (g0 <> 0) by (intros Hz; apply Z.gcd_eq_0_r in Hz; lia). lia. }
  destruct (Z.gcd_divide_l num den) as [u Hu].
  destruct (Z.gcd_divide_r num den) as [v Hv]. fold g0 in Hu, Hv.
  cbv zeta. split; [reflexivity|].
  assert (Eu : num / g0 = u) by (rewrite Hu at 1; apply Z.div_mul; lia).
  assert (Ev : den / g0 = v) by (rewrite Hv at 1; apply Z.div_mul; lia).
  split; [split|].
  - cbn [snd]. rewrite Ev. nia.
  - cbn [fst snd]. apply Z.gcd_div_gcd; [lia | reflexivity].
  - rewrite Eu, Ev. clearbody g0. subst num den. ring.
Qed.

(** For coprime [a] and [b] the coefficients that [farey] takes from
    [extended_gcd(b, -a)] satisfy [b*x - a*y = 1]. *)
Lemma extended_gcd_coprime (a b : Z) :
  Z.gcd a b = 1 ->
  exists x y, extended_gcd b (- a) = Returns (mkEuclidean 1 x y) /\
              b * x - a * y = 1.
Proof.
  intros Hg.
  destruct (euclid_loop_spec b (- a) b (- a) 1 0 0 1)
    as (a' & x & y & Hrun & Hlin & Hgcd); [ring | ring |].
  rewrite Z.gcd_opp_r, Z.gcd_comm, Hg in Hgcd.
  unfold extended_gcd. rewrite Hrun. cbn [bind].
  destruct (Z.ltb_spec 0 a').
  - exists (1 * x), (1 * y). split; [f_equal; f_equal; lia | lia].
  - exists (-1 * x), (-1 * y). split; [f_equal; f_equal; lia | lia].
Qed.

Lemma farey_adjacent_step (n a b c d : Z) :
  farey_adjacent n a b c d ->
  farey_adjacent n c d ((n + b) / d * c - a) ((n + b) / d * d - b).
Proof.
  unfold farey_adjacent. intros (Hb & Hd & Hadj & Hsum).
  set (r := (n + b) / d).
  assert (Hr1 : d * r <= n + b) by (apply Z.mul_div_le; lia).
  assert (Hr2 : n + b < d * Z.succ r) by (apply Z.mul_succ_div_gt; lia).
  repeat split; lia.
Qed.

(** Each step brings the term closer to [e/f] by at least [1/n^2]. *)
Lemma farey_adjacent_measure (n a b c d e f : Z) (k : nat) :
  farey_adjacent n a b c d -> 0 < f ->
  n * n * (e * b - a * f) <= Z.of_nat (S k) * (b * f) ->
  n * n * (e * d - c * f) <= Z.of_nat k * (d * f).
Proof.
  unfold farey_adjacent. intros (Hb & Hd & Hadj & Hsum) Hf Hk.
  rewrite Nat2Z.inj_succ in Hk.
  assert (Hbd : b * d <= n * n) by nia.
  assert (E : (e * d - c * f) * b = d * (e * b - a * f) - f) by nia.
  assert (H1 : n * n * (e * d - c * f) * b
               = d * (n * n * (e * b - a * f)) - n * n * f) by nia.
  assert (H2 : d * (n * n * (e * b - a * f)) <= d * (Z.succ (Z.of_nat k) * (b * f)))
    by (apply Z.mul_le_mono_nonneg_l; lia).
  assert (H3 : b * d * f <= n * n * f) by (apply Z.mul_le_mono_nonneg_r; lia).
  assert (H : n * n * (e * d - c * f) * b <= Z.of_nat k * (d * f) * b) by nia.
  apply Z.mul_le_mono_pos_r with (p := b); lia.
Qed.

Lemma fract_le_trans (r s t : Z * Z) :
  0 < snd r -> 0 < snd s -> 0 < snd t ->
  fract_le r s -> fract_le s t -> fract_le r t.
Proof.
  unfold fract_le. destruct r as [a b], s as [p q], t as [u v]. cbn [fst snd].
  intros Hb Hq Hv H1 H2.
  assert (Ha : a * q * v <= p * b * v) by (apply Z.mul_le_mono_nonneg_r; lia).
  assert (Hp : p * v * b <= u * q * b) by (apply Z.mul_le_mono_nonneg_r; lia).
  assert (H : (a * v) * q <= (u * b) * q) by lia.
  apply Z.mul_le_mono_pos_r in H; lia.
Qed.

Lemma fract_le_antisym (r s : Z * Z) :
  reduced r -> reduced s -> fract_le r s -> fract_le s r -> r = s.
Proof.
  destruct r as [a b], s as [p q]. unfold fract_le. cbn [fst snd].
  intros Hr Hs H1 H2. apply reduced_eq; [exact Hr | exact Hs | lia].
Qed.

Section FareyBetween.

Variable n : Z.
Hypothesis n_pos : 1 <= n.

(** Once the term has reached [last] the generator yields [last], when the
    term is [last], and stops. *)
Lemma farey_loop_final (a b c d : Z) (last : Z * Z) :
  farey_adjacent n a b c d -> reduced last ->
  0 <= a * snd last - b * fst last ->
  exists l,
    (forall s, farey_next s = farey_loop n a b c d last -> generates s l) /\
    StronglySorted fract_lt l /\
    (forall t, In t l <->
               farey_member n t /\ fract_le (a, b) t /\ fract_le t last).
Proof.
  destruct last as [e f]. cbn [fst snd]. intros Hadj Hlast Hge.
  pose proof Hadj as (Hb & Hd & Hdet & Hsum).
  destruct (neighbours_reduced a b c d ltac:(lia) ltac:(lia) Hdet) as [Hrab _].
  assert (Hf : 0 < f) by apply Hlast.
  assert (Hloop : farey_loop n a b c d (e, f) =
                  if pair_eqb (a, b) (e, f) then Yield (e, f) Finished
                  else StopIteration).
  { unfold farey_loop, _fract_comp. cbn [fst snd].
    destruct (Z.ltb_spec (a * f - b * e) 0); [lia | reflexivity]. }
  rewrite Hloop. destruct (pair_eqb_spec (a, b) (e, f)) as [E|NE].
  - injection E as <- <-. exists [(a, b)]. split; [|split].
    + intros s Hs. eapply generates_yield; [exact Hs|].
      apply generates_stop. reflexivity.
    + constructor; constructor.
    + intros t. cbn [In]. split.
      * intros [<-|[]]. unfold farey_member, fract_le. cbn [fst snd].
        repeat split; try apply Hrab; lia.
      * intros ([Hred _] & H1 & H2). left. apply fract_le_antisym; assumption.
  - exists []. split; [|split].
    + intros s Hs. apply generates_stop. exact Hs.
    + constructor.
    + intros t. cbn [In]. split; [contradiction|].
      intros ([Hred _] & H1 & H2). apply NE.
      assert (H3 : fract_le (a, b) (e, f)).
      { apply (fract_le_trans (a, b) t (e, f)); cbn [snd];
          try assumption; try lia. apply Hred. }
      apply fract_le_antisym; try assumption.
      unfold fract_le. cbn [fst snd]. lia.
Qed.

(** From the test of the [while] on, the generator yields the members
    between [a/b] and [last], in increasing order. *)
Lemma farey_loop_between (k : nat) (a b c d : Z) (last : Z * Z) :
  farey_adjacent n a b c d -> reduced last ->
  n * n * (fst last * b - a * snd last) <= Z.of_nat k * (b * snd last) ->
  exists l,
    (forall s, farey_next s = farey_loop n a b c d last -> generates s l) /\
    StronglySorted fract_lt l /\
    (forall t, In t l <->
               farey_member n t /\ fract_le (a, b) t /\ fract_le t last).
Proof.
  revert a b c d. induction k as [|k IH]; intros a b c d Hadj Hlast Hk.
  all: pose proof Hadj as (Hb & Hd & Hdet & Hsum).
  all: assert (Hf : 0 < snd last) by apply Hlast.
  all: destruct (Z.le_gt_cases 0 (a * snd last - b * fst last)) as [Hge|Hlt];
    [apply farey_loop_final; assumption|].
  - exfalso. nia.
  - (* one more term: a/b, then the rest from c/d *)
    destruct last as [e f]. cbn [fst snd] in *.
    destruct (neighbours_reduced a b c d ltac:(lia) ltac:(lia) Hdet) as [Hrab Hrcd].
    pose proof (farey_adjacent_step n a b c d Hadj) as Hadj'.
    pose proof (farey_adjacent_measure n a b c d e f k Hadj Hf Hk) as Hk'.
    destruct (IH _ _ _ _ Hadj' Hlast Hk') as (l & Hgen & Hsort & Hin).
    exists ((a, b) :: l). split; [|split].
    + intros s Hs. eapply generates_yield.
      * rewrite Hs. unfold farey_loop, _fract_comp. cbn [fst snd].
        destruct (Z.ltb_spec (a * f - b * e) 0); [reflexivity | lia].
      * apply Hgen. cbn [farey_next]. unfold py_floordiv.
        destruct (Z.eqb_spec d 0); [lia | reflexivity].
    + constructor; [exact Hsort|]. apply Forall_forall. intros [u v] Ht.
      apply Hin in Ht as ([[Hv _] _] & Hle & _).
      unfold fract_lt, fract_le in *. cbn [fst snd] in *. nia.
    + intros [u v]. cbn [In]. rewrite Hin. unfold farey_member. split.
      * intros [E|(Hm & Hle & Hle')].
        -- injection E as <- <-. unfold fract_le. cbn [fst snd].
           repeat split; try apply Hrab; lia.
        -- split; [exact Hm|]. split; [|exact Hle'].
           apply (fract_le_trans (a, b) (c, d) (u, v)); cbn [snd]; try lia.
           ++ apply Hm.
           ++ unfold fract_le. cbn [fst snd]. lia.
           ++ exact Hle.
      * intros ([Hred Hvn] & Hle & Hle').
        destruct (Z.eq_dec (a * v) (u * b)) as [E|NE].
        -- left. apply reduced_eq; assumption.
        -- right. split; [split; assumption|]. split; [|exact Hle'].
           unfold fract_le in *. cbn [fst snd] in *.
           destruct (Z.le_gt_cases (c * v) (u * d)) as [|Hgt]; [assumption|]. exfalso.
           assert (Hv : 0 < v) by apply Hred.
           pose proof (between_neighbours a b c d u v). lia.
Qed.

(** The code before the loop: the first term is the least member that is
    at least [first], the second is its right neighbour. *)
Lemma farey_prologue_spec (depth : nat) (first last : Z * Z) :
  0 < snd first -> 0 < snd last ->
  snd first / Z.gcd (fst first) (snd first) <= n \/
  (0 <= fst first <= snd first /\ (Z.to_nat n <= depth)%nat) ->
  exists a b c d last',
    farey_prologue depth n first last = Returns (a, b, c, d, last') /\
    farey_adjacent n a b c d /\
    last' = (fst last / Z.gcd (fst last) (snd last),
             snd last / Z.gcd (fst last) (snd last)) /\
    reduced last' /\ fst last' * snd last = fst last * snd last' /\
    fract_le first (a, b) /\
    (forall t, farey_member n t -> fract_le first t -> fract_le (a, b) t).
Proof.
  destruct first as [p0 q0], last as [e0 f0]. cbn [fst snd].
  intros Hq0 Hf0 Hpre.
  destruct (Fraction_reduced p0 q0 Hq0) as (HF1 & Hr1 & Hv1).
  destruct (Fraction_reduced e0 f0 Hf0) as (HF2 & Hr2 & Hv2).
  set (p := p0 / Z.gcd p0 q0) in *. set (q := q0 / Z.gcd p0 q0) in *.
  set (e := e0 / Z.gcd e0 f0) in *. set (f := f0 / Z.gcd e0 f0) in *.
  assert (Hq : 0 < q) by apply Hr1.
  assert (Hfirst : exists a b,
             (if q <=? n then Returns (p, q) else _fract_ceil depth (p, q) n)
             = Returns (a, b) /\
             reduced (a, b) /\ b <= n /\ fract_le (p0, q0) (a, b) /\
             (forall t, farey_member n t -> fract_le (p0, q0) t ->
                        fract_le (a, b) t)).
  { destruct (Z.leb_spec q n) as [Hle|Hgt].
    - exists p, q. split; [reflexivity|]. split; [exact Hr1|]. split; [exact Hle|].
      split; [unfold fract_le; cbn [fst snd]; lia|].
      intros t [Hred _] Ht.
      apply (fract_le_trans (p, q) (p0, q0) t); cbn [snd]; try assumption.
      + apply Hred.
      + unfold fract_le. cbn [fst snd]. lia.
    - destruct Hpre as [Hle|[Hp0 Hdepth]]; [lia|].
      assert (Hp : 0 <= p <= q) by nia.
      destruct (_impl_fract_ceil_spec depth 0 1 1 1 p q n)
        as (r & Hrun & Hred & Hn & Hle & Hleast);
        try assumption; try lia.
      destruct r as [a b]. exists a, b. split; [exact Hrun|].
      split; [exact Hred|]. split; [exact Hn|]. split.
      + apply (fract_le_trans (p0, q0) (p, q) (a, b)); cbn [snd];
          try assumption; try apply Hred.
        unfold fract_le. cbn [fst snd]. lia.
      + intros t [Hredt Hnt] Ht. apply Hleast.
        * split; [apply Hredt | exact Hnt].
        * apply (fract_le_trans (p, q) (p0, q0) t); cbn [snd];
            try assumption; try apply Hredt.
          unfold fract_le. cbn [fst snd]. lia. }
  destruct Hfirst as (a & b & Hsel & [Hb Hgab] & Hbn & Hle & Hleast).
  cbn [fst snd] in Hb, Hgab.
  destruct (extended_gcd_coprime a b Hgab) as (x & y & Hegcd & Hxy).
  set (r := (n - y) / b).
  exists a, b, (r * a + x), (r * b + y), (e, f).
  split; [|split; [|split; [reflexivity|split; [|split; [|split]]]]];
    try assumption.
  - unfold farey_prologue. cbn [fst snd]. rewrite HF1, HF2. cbn [bind snd].
    rewrite Hsel. cbn [bind]. rewrite Hegcd. cbn [bind Euclidean_x Euclidean_y].
    unfold py_floordiv. destruct (Z.eqb_spec b 0); [lia | reflexivity].
  - unfold farey_adjacent.
    assert (Hr1' : b * r <= n - y) by (apply Z.mul_div_le; lia).
    assert (Hr2' : n - y < b * Z.succ r) by (apply Z.mul_succ_div_gt; lia).
    repeat split; lia.
Qed.

End FareyBetween.

Lemma farey_generates_between (depth : nat) (n : Z) (first last : Z * Z) :
  1 <= n -> 0 < snd first -> 0 < snd last ->
  snd first / Z.gcd (fst first) (snd first) <= n \/
  (0 <= fst first <= snd first /\ (Z.to_nat n <= depth)%nat) ->
  exists l,
    generates (farey depth n first last) l /\
    StronglySorted fract_lt l /\
    forall t, In t l <->
              reduced t /\ snd t <= n /\ fract_le first t /\ fract_le t last.
Proof.
  intros Hn Hq0 Hf0 Hpre.
  destruct (farey_prologue_spec n Hn depth first last Hq0 Hf0 Hpre)
    as (a & b & c & d & [e f] & Hpro & Hadj & _ & Hlast & Hval & Hle & Hleast).
  cbn [fst snd] in Hval.
  assert (Hb : 0 < b) by (unfold farey_adjacent in Hadj; lia).
  assert (Hf : 0 < f) by apply Hlast.
  destruct (farey_loop_between n Hn
              (Z.to_nat (n * n * (e * b - a * f))) a b c d (e, f) Hadj Hlast)
    as (l & Hgen & Hsort & Hin).
  { cbn [fst snd]. destruct (Z.le_gt_cases (n * n * (e * b - a * f)) 0) as [Hneg|Hpos].
    - assert (0 <= Z.of_nat (Z.to_nat (n * n * (e * b - a * f))) * (b * f)) by nia. lia.
    - rewrite Z2Nat.id by lia. set (X := n * n * (e * b - a * f)) in *.
      assert (1 <= b * f) by nia.
      assert (X * 1 <= X * (b * f)) by (apply Z.mul_le_mono_nonneg_l; lia). lia. }
  exists l. split; [|split; [exact Hsort|]].
  - apply Hgen. unfold farey. cbn [farey_next]. rewrite Hpro. reflexivity.
  - intros t. rewrite Hin. unfold farey_member. split.
    + intros ([Hred Hnt] & H1 & H2). repeat split; try apply Hred; try assumption.
      * apply (fract_le_trans first (a, b) t); cbn [snd]; try assumption. apply Hred.
      * apply (fract_le_trans t (e, f) last); cbn [snd]; try assumption.
        -- apply Hred.
        -- unfold fract_le. cbn [fst snd]. lia.
    + intros (Hred & Hnt & H1 & H2). split; [split; assumption|]. split.
      * apply Hleast; [split; assumption | exact H1].
      * apply (fract_le_trans t last (e, f)); cbn [snd]; try assumption.
        -- apply Hred.
        -- unfold fract_le. cbn [fst snd]. lia.
Qed.

(** X7: For bounds with positive denominators, of which the first has a
    reduced denominator of at most [n] or lies in [0..1], [farey] yields in
    increasing order exactly the fractions in lowest terms of denominator
    at most [n] between [first] and [last]. *)
Theorem farey_between (depth : nat) (n : Z) (first last : Z * Z) :
  1 <= n -> 0 < snd first -> 0 < snd last ->
  snd first / Z.gcd (fst first) (snd first) <= n \/
  (0 <= fst first <= snd first /\ (Z.to_nat n <= depth)%nat) ->
  exists l,
    generates (farey depth n first last) l /\
    StronglySorted fract_lt l /\
    forall t, In t l <->
              reduced t /\ snd t <= n /\ fract_le first t /\ fract_le t last.
Proof. exact (farey_generates_between depth n first last). Qed.

Lemma farey_between_witness :
  exists l,
    generates (farey 3 3 (3, 7) (9, 6)) l /\
    StronglySorted fract_lt l /\
    forall t, In t l <->
              reduced t /\ snd t <= 3 /\ fract_le (3, 7) t /\ fract_le t (9, 6).
Proof.
  apply (farey_between 3 3 (3, 7) (9, 6)).
  - lia.
  - cbn. lia.
  - cbn. lia.
  - right. cbn. split; lia.
Defined.

(* ===================================================================== *)
(** ** Ranges and generators *)
(* ===================================================================== *)

Lemma range_nil (a b : Z) : b <= a -> range a b = [].
Proof. intros H. unfold range. replace (Z.to_nat (b - a)) with 0%nat by lia. reflexivity. Qed.

Lemma range_cons (a b : Z) : a < b -> range a b = a :: range (a + 1) b.
Proof.
  intros H. unfold range.
  replace (Z.to_nat (b - a)) with (S (Z.to_nat (b - (a + 1)))) by lia.
  cbn [seq map]. f_equal; [lia|].
  rewrite <- seq_shift, map_map. apply map_ext. intros i. lia.
Qed.

Lemma range_snoc (a b : Z) : a <= b -> range a (b + 1) = range a b ++ [b].
Proof.
  intros H. unfold range.
  replace (Z.to_nat (b + 1 - a)) with (S (Z.to_nat (b - a))) by lia.
  rewrite seq_S, map_app. cbn [map]. do 2 f_equal. lia.
Qed.

Lemma nth_error_range (a b : Z) (k : nat) :
  (k < Z.to_nat (b - a))%nat -> nth_error (range a b) k = Some (a + Z.of_nat k).
Proof.
  intros H. unfold range. rewrite nth_error_map, nth_error_seq.
  destruct (Nat.ltb_spec k (Z.to_nat (b - a))); [reflexivity | lia].
Qed.

Lemma sum_Z_app (l l' : list Z) : sum_Z (l ++ l') = sum_Z l + sum_Z l'.
Proof. unfold sum_Z. induction l as [|x l IH]; cbn [app fold_right]; lia. Qed.

Section GeneratorFacts.

Context {St A : Type}.
Variable next : St -> gen_step St A.

Lemma gen_yields_nth (s : St) (l : list A) (k : nat) :
  gen_yields next s l -> gen_nth next k s = nth_error l k.
Proof.
  intros H. revert k. induction H as [s Hs|s x s' l Hs _ IH]; intros k.
  - destruct k; cbn; rewrite Hs; reflexivity.
  - destruct k; cbn [gen_nth nth_error]; rewrite Hs; [reflexivity | apply IH].
Qed.

Lemma gen_yields_take (s : St) (l : list A) (k : nat) :
  gen_yields next s l -> gen_take next k s = firstn k l.
Proof.
  intros H. revert k. induction H as [s Hs|s x s' l Hs _ IH]; intros k.
  - destruct k; cbn; [|rewrite Hs]; reflexivity.
  - destruct k; cbn [gen_take firstn]; [reflexivity|]. rewrite Hs, IH. reflexivity.
Qed.

End GeneratorFacts.

(* ===================================================================== *)
(** ** [farey_length] *)
(* ===================================================================== *)

(** The number of terms of the Farey sequence of order [i]. *)
Lemma farey_default_length (depth : nat) (i : Z) :
  1 <= i ->
  exists l, generates (farey depth i (0, 1) (1, 1)) l /\
            Z.of_nat (length l) = 1 + sum_Z (map totient (range 1 (i + 1))).
Proof.
  intros Hi.
  destruct (farey_generates_between depth i (0, 1) (1, 1) Hi)
    as (l & Hgen & Hsort & Hin); cbn [fst snd]; try lia.
  { left. rewrite Z.gcd_0_l. cbn. lia. }
  exists l. split; [exact Hgen|].
  rewrite Z.add_comm, <- farey_terms_length. f_equal. apply Permutation_length.
  apply NoDup_Permutation.
  - apply (StronglySorted_NoDup fract_lt); [|exact Hsort].
    intros t. unfold fract_lt. lia.
  - apply farey_terms_NoDup.
  - intros [u v]. rewrite Hin, (in_farey_terms i (u, v) Hi).
    unfold reduced, farey_term, fract_le. cbn [fst snd]. split.
    + intros ([Hv Hg] & Hvi & H0 & H1). repeat split; lia.
    + intros ([Hv Hvi] & Hg & Hu). repeat split; lia.
Qed.

Lemma farey_length_loop_yields (m : nat) (n i : Z) :
  0 <= i -> n - i <= Z.of_nat m ->
  forall s,
    farey_length_next s =
      farey_length_loop n i (1 + sum_Z (map totient (range 1 (i + 1)))) ->
    gen_yields farey_length_next s
      (map (fun j => 1 + sum_Z (map totient (range 1 (j + 1)))) (range i n)).
Proof.
  revert i. induction m as [|m IH]; intros i Hi Hm s Hs.
  - rewrite range_nil by lia. apply gen_yields_stop. rewrite Hs.
    unfold farey_length_loop. destruct (Z.ltb_spec i n); [lia | reflexivity].
  - destruct (Z.lt_ge_cases i n) as [Hlt|Hge].
    + rewrite (range_cons i n Hlt). cbn [map]. eapply gen_yields_yield.
      * rewrite Hs. unfold farey_length_loop.
        destruct (Z.ltb_spec i n); [reflexivity | lia].
      * apply IH; [lia | lia |]. cbn [farey_length_next]. f_equal.
        rewrite (range_snoc 1 (i + 1)) by lia.
        rewrite map_app, sum_Z_app.
        change (sum_Z (map totient [i + 1])) with (totient (i + 1) + 0). lia.
    + rewrite range_nil by lia. apply gen_yields_stop. rewrite Hs.
      unfold farey_length_loop. destruct (Z.ltb_spec i n); [lia | reflexivity].
Qed.

Lemma farey_length_yields (n : Z) :
  gen_yields farey_length_next (farey_length n)
    (map (fun j => 1 + sum_Z (map totient (range 1 (j + 1)))) (range 0 n)).
Proof.
  apply (farey_length_loop_yields (Z.to_nat n) n 0); [lia | lia | reflexivity].
Qed.

(** X8: [farey_length(n)] yields [n] numbers, of which the one of index
    [i >= 1] is the number of terms that [farey(i)] yields. *)
Theorem farey_length_counts_farey (depth : nat) (n i : Z) :
  1 <= i < n ->
  exists lengths l,
    gen_yields farey_length_next (farey_length n) lengths /\
    Z.of_nat (length lengths) = n /\
    generates (farey depth i (0, 1) (1, 1)) l /\
    nth_error lengths (Z.to_nat i) = Some (Z.of_nat (length l)).
Proof.
  intros Hi. destruct (farey_default_length depth i ltac:(lia)) as (l & Hgen & Hlen).
  eexists. exists l. split; [apply farey_length_yields|].
  split; [rewrite length_map, range_length; lia|]. split; [exact Hgen|].
  rewrite nth_error_map, nth_error_range by lia.
  cbn [option_map]. rewrite Hlen. do 5 f_equal. lia.
Qed.

Lemma farey_length_counts_farey_witness :
  exists lengths l,
    gen_yields farey_length_next (farey_length 6) lengths /\
    Z.of_nat (length lengths) = 6 /\
    generates (farey 0 5 (0, 1) (1, 1)) l /\
    nth_error lengths (Z.to_nat 5) = Some (Z.of_nat (length l)).
Proof. apply (farey_length_counts_farey 0 6 5). lia. Defined.

(* ===================================================================== *)
(** ** More about [_fract_ceil] *)
(* ===================================================================== *)

(** X9: A fraction of [0..1] in lowest terms whose denominator is at most [n]
    is its own ceiling, and so the search is idempotent. *)
Theorem fract_ceil_idempotent (depth : nat) (fract r : Z * Z) (n : Z) :
  1 <= n -> reduced fract -> 0 <= fst fract <= snd fract ->
  (Z.to_nat n <= depth)%nat ->
  _fract_ceil depth fract n = Returns r ->
  _fract_ceil depth r n = Returns r.
Proof.
  destruct fract as [p q]. cbn [fst snd]. intros Hn Hred Hp Hdepth Hrun.
  unfold _fract_ceil in *.
  destruct (_impl_fract_ceil_spec depth 0 1 1 1 p q n)
    as (r' & Hrun' & Hredr & Hnr & Hle & Hleast); try assumption; try lia.
  rewrite Hrun in Hrun'. injection Hrun' as <-.
  destruct r as [a b]. cbn [fst snd] in *.
  assert (Hb : 0 < b) by apply Hredr.
  assert (Ha : 0 <= a <= b).
  { unfold fract_le in Hle. cbn [fst snd] in Hle.
    assert (H1 : fract_le (a, b) (1, 1)).
    { apply Hleast; [cbn; lia|]. unfold fract_le. cbn [fst snd]. lia. }
    unfold fract_le in H1. cbn [fst snd] in H1.
    assert (0 < q) by apply Hred. nia. }
  destruct (_impl_fract_ceil_spec depth 0 1 1 1 a b n)
    as (r2 & Hrun2 & Hred2 & Hn2 & Hle2 & Hleast2); try assumption; try lia.
  rewrite Hrun2. f_equal. symmetry.
  apply fract_le_antisym; try assumption.
  apply Hleast2; [cbn [snd]; lia|]. unfold fract_le. lia.
Qed.

Lemma fract_ceil_idempotent_witness :
  _fract_ceil 5 (1, 3) 5 = Returns (1, 3).
Proof.
  apply (fract_ceil_idempotent 5 (2, 7) (1, 3) 5).
  - lia.
  - split; [cbn; lia | reflexivity].
  - cbn. lia.
  - vm_compute. lia.
  - reflexivity.
Defined.

(* ===================================================================== *)
(** ** The earlier [farey] of mathematics/sequences.py *)
(* ===================================================================== *)

(** The [extended_gcd] of math/functions.py meets the contract. *)
Lemma extended_gcd_meets_contract : extended_gcd_contract extended_gcd.
Proof.
  intros a b _.
  destruct (euclid_loop_spec a b a b 1 0 0 1)
    as (a' & x & y & Hrun & Hlin & Hgcd); [ring | ring |].
  unfold extended_gcd. rewrite Hrun. cbn [bind].
  pose proof (Z.gcd_nonneg a b) as Hpos.
  rewrite Z.gcd_abs_l, Z.gcd_abs_r.
  destruct (Z.ltb_spec 0 a').
  - exists (1 * a'), (1 * x), (1 * y). repeat split; lia.
  - exists (-1 * a'), (-1 * x), (-1 * y). repeat split; lia.
Qed.

(** A member has one right neighbour only. *)
Lemma farey_adjacent_unique (n a b c d c' d' : Z) :
  farey_adjacent n a b c d -> farey_adjacent n a b c' d' ->
  c = c' /\ d = d'.
Proof.
  unfold farey_adjacent. intros (Hb & Hd & Hdet & Hsum) (_ & Hd' & Hdet' & Hsum').
  destruct (neighbours_reduced a b c d ltac:(lia) ltac:(lia) Hdet) as [[_ Hab] _].
  assert (Hdiv : (b | d - d')).
  { apply Z.gauss with (m := a); [|rewrite Z.gcd_comm; exact Hab].
    exists (c - c'). lia. }
  destruct Hdiv as [k Hk].
  assert (k = 0) by nia.
  assert (d = d') by lia. subst d'. split; [nia | reflexivity].
Qed.

(** With an [extended_gcd] that meets its contract, and a reduced first
    bound whose denominator is at most [n], the earlier version starts
    from that bound and its right neighbour. *)
Lemma farey_old_prologue_spec (egcd : Z -> Z -> outcome Euclidean)
      (n : Z) (first last : Z * Z) :
  extended_gcd_contract egcd ->
  0 < snd first -> 0 < snd last ->
  snd first / Z.gcd (fst first) (snd first) <= n ->
  exists c d,
    farey_old_prologue egcd n first last =
      Returns (fst first / Z.gcd (fst first) (snd first),
               snd first / Z.gcd (fst first) (snd first), c, d,
               (fst last / Z.gcd (fst last) (snd last),
                snd last / Z.gcd (fst last) (snd last))) /\
    farey_adjacent n (fst first / Z.gcd (fst first) (snd first))
                     (snd first / Z.gcd (fst first) (snd first)) c d.
Proof.
  intros Hegcd Hq Hf Hn. unfold farey_old_prologue.
  destruct (Fraction_reduced (fst first) (snd first) Hq) as (-> & [Hq' Hred] & _).
  destruct (Fraction_reduced (fst last) (snd last) Hf) as (-> & _ & _).
  cbn [bind fst snd] in *.
  set (p := fst first / Z.gcd (fst first) (snd first)) in *.
  set (q := snd first / Z.gcd (fst first) (snd first)) in *.
  destruct (Hegcd q (- p)) as (g0 & x & y & -> & Hlin & Hg); [lia|].
  cbn [bind Euclidean_x Euclidean_y].
  rewrite Z.gcd_abs_l, Z.gcd_abs_r, Z.gcd_opp_r, Z.gcd_comm, Hred in Hg. subst g0.
  unfold py_floordiv. destruct (Z.eqb_spec q 0); [lia|]. cbn [bind].
  set (r := (n - y) / q).
  assert (Hr1 : q * r <= n - y) by (apply Z.mul_div_le; lia).
  assert (Hr2 : n - y < q * Z.succ r) by (apply Z.mul_succ_div_gt; lia).
  eexists _, _. split; [reflexivity|].
  unfold farey_adjacent. repeat split; lia.
Qed.

(** So it starts as the later version does. *)
Lemma farey_old_prologue_eq (egcd : Z -> Z -> outcome Euclidean)
      (depth : nat) (n : Z) (first last : Z * Z) :
  extended_gcd_contract egcd ->
  1 <= n -> 0 < snd first -> 0 < snd last ->
  snd first / Z.gcd (fst first) (snd first) <= n ->
  farey_old_prologue egcd n first last = farey_prologue depth n first last.
Proof.
  intros Hegcd Hn1 Hq Hf Hn.
  destruct (farey_old_prologue_spec egcd n first last Hegcd Hq Hf Hn)
    as (c & d & -> & Hadj).
  destruct (farey_old_prologue_spec extended_gcd n first last
              extended_gcd_meets_contract Hq Hf Hn)
    as (c' & d' & Hrun & Hadj').
  destruct (farey_adjacent_unique _ _ _ _ _ _ _ Hadj Hadj') as [<- <-].
  rewrite <- Hrun. unfold farey_old_prologue, farey_prologue.
  destruct (Fraction_reduced (fst first) (snd first) Hq) as (-> & _ & _).
  destruct (Fraction_reduced (fst last) (snd last) Hf) as (-> & _ & _).
  cbn [bind fst snd].
  destruct (Z.leb_spec (snd first / Z.gcd (fst first) (snd first)) n); [|lia].
  reflexivity.
Qed.

Section FareyOld.

Variable egcd : Z -> Z -> outcome Euclidean.
Variable n : Z.
Hypothesis n_pos : 1 <= n.

(** As long as the term has not passed [last], a member, the two loops
    yield the same terms and stop together. *)
Lemma farey_loops_agree (k : nat) (a b c d : Z) (last : Z * Z) :
  farey_adjacent n a b c d -> farey_member n last ->
  fract_le (a, b) last ->
  n * n * (fst last * b - a * snd last) <= Z.of_nat k * (b * snd last) ->
  exists l,
    (forall s, farey_next s = farey_loop n a b c d last -> generates s l) /\
    (forall s, farey_old_next egcd s = farey_old_loop n a b c d last ->
               gen_yields (farey_old_next egcd) s l).
Proof.
  destruct last as [e f]. cbn [fst snd]. intros Hadj [Hlast Hfn]. cbn [snd] in Hfn.
  revert a b c d Hadj. induction k as [|k IH]; intros a b c d Hadj Hle Hk.
  all: pose proof Hadj as (Hb & Hd & Hdet & Hsum).
  all: destruct (neighbours_reduced a b c d ltac:(lia) ltac:(lia) Hdet) as [Hrab Hrcd].
  all: assert (Hf : 0 < f) by apply Hlast.
  all: unfold fract_le in Hle; cbn [fst snd] in Hle.
  all: destruct (Z.eq_dec (a * f) (e * b)) as [E|NE].
  1,3: assert (Hab : (a, b) = (e, f)) by (apply reduced_eq; assumption);
       injection Hab as <- <-;
       exists [(a, b)]; split; intros s Hs;
       [ eapply generates_yield;
         [ rewrite Hs; unfold farey_loop, _fract_comp; cbn [fst snd];
           destruct (Z.ltb_spec (a * b - b * a) 0); [lia|];
           destruct (pair_eqb_spec (a, b) (a, b)); [reflexivity | congruence]
         | apply generates_stop; reflexivity ]
       | eapply gen_yields_yield;
         [ rewrite Hs; unfold farey_old_loop;
           destruct (pair_eqb_spec (a, b) (a, b)); [reflexivity | congruence]
         | apply gen_yields_stop; reflexivity ] ].
  - exfalso. nia.
  - pose proof (farey_adjacent_step n a b c d Hadj) as Hadj'.
    pose proof (farey_adjacent_measure n a b c d e f k Hadj Hf Hk) as Hk'.
    assert (Hle' : fract_le (c, d) (e, f)).
    { unfold fract_le. cbn [fst snd].
      destruct (Z.le_gt_cases (c * f) (e * d)) as [|Hgt]; [assumption|]. exfalso.
      pose proof (between_neighbours a b c d e f). lia. }
    destruct (IH _ _ _ _ Hadj' Hle' Hk') as (l & Hgen & Hold).
    exists ((a, b) :: l). split; intros s Hs.
    + eapply generates_yield.
      * rewrite Hs. unfold farey_loop, _fract_comp. cbn [fst snd].
        destruct (Z.ltb_spec (a * f - b * e) 0); [reflexivity | lia].
      * apply Hgen. cbn [farey_next]. unfold py_floordiv.
        destruct (Z.eqb_spec d 0); [lia | reflexivity].
    + eapply gen_yields_yield.
      * rewrite Hs. unfold farey_old_loop.
        destruct (pair_eqb_spec (a, b) (e, f)) as [Eq|_]; [|reflexivity].
        injection Eq as -> ->. lia.
      * apply Hold. cbn [farey_old_next]. unfold py_floordiv.
        destruct (Z.eqb_spec d 0); [lia | reflexivity].
Qed.

(** Past every member there is another one: when [last] is not a member,
    the earlier loop never meets it. *)
Lemma farey_old_loop_endless (k : nat) (a b c d : Z) (last : Z * Z) :
  farey_adjacent n a b c d -> n < snd last ->
  forall s, farey_old_next egcd s = farey_old_loop n a b c d last ->
            exists t, gen_nth (farey_old_next egcd) k s = Some t.
Proof.
  intros Hadj Hlast. revert a b c d Hadj.
  induction k as [|k IH]; intros a b c d Hadj s Hs.
  all: pose proof Hadj as (Hb & Hd & Hdet & Hsum).
  all: assert (Hloop : farey_old_loop n a b c d last =
                       Yield (a, b) (OYielded n a b c d last))
         by (unfold farey_old_loop;
             destruct (pair_eqb_spec (a, b) last) as [<-|_];
             [cbn [snd] in Hlast; lia | reflexivity]).
  all: cbn [gen_nth]; rewrite Hs, Hloop.
  - eauto.
  - apply (IH _ _ _ _ (farey_adjacent_step n a b c d Hadj)).
    cbn [farey_old_next]. unfold py_floordiv.
    destruct (Z.eqb_spec d 0); [lia | reflexivity].
Qed.

End FareyOld.

(** X10: Between two members [first <= last] of the sequence of order [n], the
    [farey] of math/sequences.py and the one of mathematics/sequences.py
    yield the same terms, whichever [extended_gcd] meeting the contract
    the latter imports. *)
Theorem farey_versions_agree (egcd : Z -> Z -> outcome Euclidean)
        (depth : nat) (n : Z) (first last : Z * Z) :
  extended_gcd_contract egcd ->
  1 <= n -> 0 < snd first -> 0 < snd last ->
  snd first / Z.gcd (fst first) (snd first) <= n ->
  snd last / Z.gcd (fst last) (snd last) <= n ->
  fract_le first last ->
  exists l,
    generates (farey depth n first last) l /\
    gen_yields (farey_old_next egcd) (farey_old n first last) l.
Proof.
  intros Hegcd Hn Hq0 Hf0 Hfirst Hlast Hle.
  destruct (farey_prologue_spec n Hn depth first last Hq0 Hf0 (or_introl Hfirst))
    as (a & b & c & d & [e f] & Hpro & Hadj & Hef & Hred & Hval & Hle1 & Hleast).
  assert (Hfn : f <= n) by (injection Hef as _ ->; exact Hlast).
  assert (Hb : 0 < b) by (unfold farey_adjacent in Hadj; lia).
  assert (Hf : 0 < f) by apply Hred.
  cbn [fst snd] in Hval.
  assert (Hab : fract_le (a, b) (e, f)).
  { apply Hleast; [split; assumption|].
    apply (fract_le_trans first last (e, f)); cbn [snd]; try assumption.
    unfold fract_le. cbn [fst snd]. lia. }
  destruct (farey_loops_agree egcd n Hn
              (Z.to_nat (n * n * (e * b - a * f))) a b c d (e, f) Hadj
              (conj Hred Hfn) Hab)
    as (l & Hgen & Hold).
  { cbn [fst snd]. unfold fract_le in Hab. cbn [fst snd] in Hab.
    rewrite Z2Nat.id by nia. set (X := n * n * (e * b - a * f)) in *.
    assert (0 <= X) by (subst X; nia).
    assert (1 <= b * f) by nia.
    assert (X * 1 <= X * (b * f)) by (apply Z.mul_le_mono_nonneg_l; lia). lia. }
  exists l. split.
  - apply Hgen. unfold farey. cbn [farey_next]. rewrite Hpro. reflexivity.
  - apply Hold. unfold farey_old. cbn [farey_old_next].
    rewrite (farey_old_prologue_eq egcd depth n first last Hegcd Hn Hq0 Hf0 Hfirst),
      Hpro.
    reflexivity.
Qed.

Lemma farey_versions_agree_witness :
  exists l,
    generates (farey 0 4 (-2, 6) (5, 4)) l /\
    gen_yields (farey_old_next extended_gcd) (farey_old 4 (-2, 6) (5, 4)) l.
Proof.
  apply (farey_versions_agree extended_gcd 0 4 (-2, 6) (5, 4)).
  - exact extended_gcd_meets_contract.
  - lia.
  - cbn. lia.
  - cbn. lia.
  - vm_compute. discriminate.
  - vm_compute. discriminate.
  - unfold fract_le. cbn. lia.
Defined.

(** X11: When the reduced [last] has a denominator above [n], the earlier
    version never stops: it yields a term of every index. *)
Theorem farey_old_endless (egcd : Z -> Z -> outcome Euclidean)
        (n : Z) (first last : Z * Z) (k : nat) :
  extended_gcd_contract egcd ->
  1 <= n -> 0 < snd first -> 0 < snd last ->
  snd first / Z.gcd (fst first) (snd first) <= n ->
  n < snd last / Z.gcd (fst last) (snd last) ->
  exists t, gen_nth (farey_old_next egcd) k (farey_old n first last) = Some t.
Proof.
  intros Hegcd Hn Hq0 Hf0 Hfirst Hlast.
  destruct (farey_old_prologue_spec egcd n first last Hegcd Hq0 Hf0 Hfirst)
    as (c & d & Hpro & Hadj).
  apply (farey_old_loop_endless egcd n k _ _ c d
           (fst last / Z.gcd (fst last) (snd last),
            snd last / Z.gcd (fst last) (snd last)) Hadj).
  - exact Hlast.
  - unfold farey_old. cbn [farey_old_next]. rewrite Hpro. reflexivity.
Qed.

Lemma farey_old_endless_witness :
  exists t,
    gen_nth (farey_old_next extended_gcd) 40 (farey_old 5 (0, 1) (7, 9)) = Some t.
Proof.
  apply (farey_old_endless extended_gcd 5 (0, 1) (7, 9) 40).
  - exact extended_gcd_meets_contract.
  - lia.
  - cbn. lia.
  - cbn. lia.
  - vm_compute. discriminate.
  - vm_compute. reflexivity.
Defined.

(* ===================================================================== *)
(** ** [lcm] *)
(* ===================================================================== *)

(** One step of the fold on integers that are not zero: the absolute
    value becomes the least common multiple, the signs multiply. *)
Lemma lcm_step_nonzero (a b : Z) :
  a <> 0 -> b <> 0 ->
  (q <- py_floordiv a (Z.gcd a b) ;; Returns (q * b)) =
    Returns (a / Z.gcd a b * b) /\
  Z.abs (a / Z.gcd a b * b) = Z.lcm a b /\
  Z.sgn (a / Z.gcd a b * b) = Z.sgn a * Z.sgn b /\
  a / Z.gcd a b * b <> 0.
Proof.
  intros Ha Hb.
  assert (Hg : 0 < Z.gcd a b).
  { pose proof (Z.gcd_nonneg a b).
    assert (Z.gcd a b <> 0) by (intros Hz; apply Z.gcd_eq_0_l in Hz; lia). lia. }
  destruct (Z.gcd_divide_l a b) as [u Hu]. destruct (Z.gcd_divide_r a b) as [v Hv].
  set (g0 := Z.gcd a b) in *.
  assert (Eu : a / g0 = u) by (rewrite Hu at 1; apply Z.div_mul; lia).
  assert (Ev : b / g0 = v) by (rewrite Hv at 1; apply Z.div_mul; lia).
  split; [|split; [|split]].
  - unfold py_floordiv. destruct (Z.eqb_spec g0 0); [lia | reflexivity].
  - unfold Z.lcm. fold g0. rewrite Eu, Ev. clearbody g0. subst a b.
    f_equal. ring.
  - rewrite Eu, Z.sgn_mul. f_equal. clearbody g0. subst a.
    rewrite Z.sgn_mul, (Z.sgn_pos g0) by lia. lia.
  - rewrite Eu. nia.
Qed.

Lemma lcm_fold_nonzero (l : list Z) (a : Z) :
  a <> 0 -> Forall (fun x => x <> 0) l ->
  exists m,
    py_reduce (fun a b => q <- py_floordiv a (Z.gcd a b) ;; Returns (q * b)) l a
      = Returns m /\
    m <> 0 /\
    Z.abs m = fold_left Z.lcm l (Z.abs a) /\
    Z.sgn m = fold_left (fun s x => s * Z.sgn x) l (Z.sgn a).
Proof.
  intros Ha Hl. revert a Ha. induction Hl as [|b l Hb Hl IH]; intros a Ha.
  - exists a. cbn. auto.
  - destruct (lcm_step_nonzero a b Ha Hb) as (Hstep & Habs & Hsgn & Hnz).
    destruct (IH _ Hnz) as (m & Hrun & Hm & Hmabs & Hmsgn).
    exists m. cbn [py_reduce fold_left]. rewrite Hstep. cbn [bind].
    rewrite Hrun, Hmabs, Hmsgn, Habs, Hsgn, Z.lcm_abs_l. auto.
Qed.

(** The least common multiple of a list, as a fold. *)
Lemma fold_lcm_spec (l : list Z) (a : Z) :
  0 <= a ->
  let m := fold_left Z.lcm l a in
  0 <= m /\ (a | m) /\ Forall (fun x => (x | m)) l /\
  forall c, (a | c) -> Forall (fun x => (x | c)) l -> (m | c).
Proof.
  revert a. induction l as [|b l IH]; intros a Ha; cbn [fold_left].
  - repeat split; auto. apply Z.divide_refl.
  - destruct (IH (Z.lcm a b) (Z.lcm_nonneg a b)) as (H0 & H1 & H2 & H3).
    cbv zeta in *. repeat split.
    + exact H0.
    + apply Z.divide_trans with (2 := H1). apply Z.divide_lcm_l.
    + constructor; [|exact H2].
      apply Z.divide_trans with (2 := H1). apply Z.divide_lcm_r.
    + intros c Hac Hc. inversion Hc as [|? ? Hbc Hlc]; subst.
      apply H3; [|exact Hlc]. apply Z.lcm_least; assumption.
Qed.

(** X12: For positive integers [lcm] returns their least common multiple: a
    positive multiple of each that divides every common multiple. *)
Theorem lcm_positive (l : list Z) :
  Forall (fun x => 0 < x) l ->
  exists m,
    lcm l = Returns m /\ 0 < m /\
    Forall (fun x => (x | m)) l /\
    forall c, Forall (fun x => (x | c)) l -> (m | c).
Proof.
  intros Hl.
  destruct (lcm_fold_nonzero l 1) as (m & Hrun & Hm & Habs & Hsgn); [lia | |].
  { eapply Forall_impl; [|exact Hl]. intros x. cbn. lia. }
  assert (Hs : forall s, 0 < s ->
             0 < fold_left (fun s x => s * Z.sgn x) l s).
  { clear -Hl. induction Hl as [|b l Hb _ IH]; intros s Hs; cbn [fold_left]; [exact Hs|].
    apply IH. rewrite (Z.sgn_pos b) by lia. lia. }
  specialize (Hs (Z.sgn 1) ltac:(cbn; lia)). rewrite <- Hsgn in Hs.
  assert (Hpos : 0 < m) by (apply Z.sgn_pos_iff; lia).
  rewrite Z.abs_eq in Habs by lia.
  destruct (fold_lcm_spec l (Z.abs 1) ltac:(cbn; lia)) as (_ & _ & Hdiv & Hleast).
  cbv zeta in *. rewrite <- Habs in *.
  exists m. repeat split; try assumption.
  intros c Hc. apply Hleast; [apply Z.divide_1_l | exact Hc].
Qed.

Lemma lcm_positive_witness :
  exists m,
    lcm [4; 6; 10] = Returns m /\ 0 < m /\
    Forall (fun x => (x | m)) [4; 6; 10] /\
    forall c, Forall (fun x => (x | c)) [4; 6; 10] -> (m | c).
Proof. apply (lcm_positive [4; 6; 10]). repeat constructor. Defined.

(** X13: For integers that are not zero the result has the least common
    multiple as absolute value and the product of the signs as sign: it is
    negative when an odd number of them is. *)
Theorem lcm_sign (l : list Z) :
  Forall (fun x => x <> 0) l ->
  exists m,
    lcm l = Returns m /\
    Z.abs m = fold_left Z.lcm l 1 /\
    Z.sgn m = fold_left (fun s x => s * Z.sgn x) l 1.
Proof.
  intros Hl.
  destruct (lcm_fold_nonzero l 1 ltac:(lia) Hl) as (m & Hrun & _ & Habs & Hsgn).
  exists m. auto.
Qed.

Lemma lcm_sign_witness :
  exists m,
    lcm [-4; 6] = Returns m /\
    Z.abs m = fold_left Z.lcm [-4; 6] 1 /\
    Z.sgn m = fold_left (fun s x => s * Z.sgn x) [-4; 6] 1.
Proof. apply (lcm_sign [-4; 6]). repeat constructor; lia. Defined.

(** With the accumulator at zero, the fold returns zero unless another
    zero comes, which raises. *)
Lemma lcm_fold_from_zero (l : list Z) :
  py_reduce (fun a b => q <- py_floordiv a (Z.gcd a b) ;; Returns (q * b)) l 0 =
  if (0 <? count_occ Z.eq_dec l 0%Z)%nat then Raises ZeroDivisionError
  else Returns 0.
Proof.
  induction l as [|b l IH]; [reflexivity|].
  cbn [py_reduce count_occ]. destruct (Z.eq_dec b 0) as [->|Hb].
  - reflexivity.
  - unfold py_floordiv. rewrite Z.gcd_0_l.
    destruct (Z.eqb_spec (Z.abs b) 0); [lia|]. cbn [bind].
    rewrite Z.div_0_l by lia. rewrite Z.mul_0_l. exact IH.
Qed.

Lemma lcm_fold_zeros (l : list Z) (a : Z) :
  a <> 0 ->
  py_reduce (fun a b => q <- py_floordiv a (Z.gcd a b) ;; Returns (q * b)) l a =
    (if (1 <? count_occ Z.eq_dec l 0%Z)%nat then Raises ZeroDivisionError
     else if (0 <? count_occ Z.eq_dec l 0%Z)%nat then Returns 0
     else py_reduce (fun a b => q <- py_floordiv a (Z.gcd a b) ;; Returns (q * b))
                    l a).
Proof.
  revert a. induction l as [|b l IH]; intros a Ha; [reflexivity|].
  cbn [count_occ]. destruct (Z.eq_dec b 0) as [->|Hb].
  - cbn [py_reduce]. unfold py_floordiv. rewrite Z.gcd_0_r.
    destruct (Z.eqb_spec (Z.abs a) 0); [lia|]. cbn [bind].
    rewrite Z.mul_0_r, lcm_fold_from_zero.
    destruct (count_occ Z.eq_dec l 0%Z); reflexivity.
  - destruct (lcm_step_nonzero a b Ha Hb) as (Hstep & _ & _ & Hnz).
    cbn [py_reduce]. rewrite Hstep. cbn [bind]. rewrite (IH _ Hnz).
    destruct (1 <? count_occ Z.eq_dec l 0%Z)%nat; [reflexivity|].
    destruct (0 <? count_occ Z.eq_dec l 0%Z)%nat; reflexivity.
Qed.

(** X14: [lcm] raises [ZeroDivisionError] exactly when two or more of the
    integers are zero; with a single zero it returns zero. *)
Theorem lcm_zeros (l : list Z) :
  (lcm l = Raises ZeroDivisionError <-> (2 <= count_occ Z.eq_dec l 0%Z)%nat) /\
  (count_occ Z.eq_dec l 0 = 1%nat -> lcm l = Returns 0).
Proof.
  unfold lcm. rewrite (lcm_fold_zeros l 1) by lia.
  destruct (Nat.ltb_spec 1 (count_occ Z.eq_dec l 0%Z)) as [H2|H2].
  - split; [split; [lia | reflexivity] | lia].
  - destruct (Nat.ltb_spec 0 (count_occ Z.eq_dec l 0%Z)) as [H1|H1].
    + split; [split; [discriminate | lia] | reflexivity].
    + split; [|lia]. split; [|lia]. intros Hr.
      assert (Hnz : Forall (fun x => x <> 0) l).
      { apply Forall_forall. intros x Hx ->.
        apply (count_occ_In Z.eq_dec) in Hx. lia. }
      destruct (lcm_fold_nonzero l 1 ltac:(lia) Hnz) as (m & Hrun & _).
      rewrite Hrun in Hr. discriminate.
Qed.

(* ===================================================================== *)
(** ** [double_factorial] *)
(* ===================================================================== *)

Lemma range_step_down_cons (n : Z) :
  2 <= n -> range_step n 1 (-2) = n :: range_step (n - 2) 1 (-2).
Proof.
  intros Hn. unfold range_step. cbn [Z.ltb Z.compare Z.opp].
  replace (n - 1 - -2 - 1) with (n - 2 + 1 * 2) by lia.
  replace (n - 2 - 1 - -2 - 1) with (n - 2) by lia.
  rewrite Z.div_add by lia.
  assert (0 <= (n - 2) / 2) by (apply Z.div_pos; lia).
  replace (Z.to_nat ((n - 2) / 2 + 1)) with (S (Z.to_nat ((n - 2) / 2))) by lia.
  cbn [seq map]. f_equal; [lia|].
  rewrite <- seq_shift, map_map. apply map_ext. intros i. lia.
Qed.

Lemma range_step_down_nil (n : Z) : n < 2 -> range_step n 1 (-2) = [].
Proof.
  intros Hn. unfold range_step. cbn [Z.ltb Z.compare Z.opp].
  replace (n - 1 - -2 - 1) with n by lia.
  assert (n / 2 <= 0).
  { destruct (Z.le_gt_cases 0 n).
    - rewrite Z.div_small by lia. lia.
    - apply Z.lt_le_incl, Z.div_lt_upper_bound; lia. }
  replace (Z.to_nat (n / 2)) with 0%nat by lia. reflexivity.
Qed.

Lemma fold_left_mul_scale (l : list Z) (c a : Z) :
  fold_left Z.mul l (c * a) = c * fold_left Z.mul l a.
Proof.
  revert a. induction l as [|x l IH]; intros a; cbn [fold_left]; [reflexivity|].
  rewrite <- Z.mul_assoc. apply IH.
Qed.

(** [n!! = n * (n - 2)!!] from two on. *)
Lemma double_factorial_step (n : Z) :
  2 <= n ->
  exists v, double_factorial (n - 2) = Some v /\
            double_factorial n = Some (n * v).
Proof.
  intros Hn. unfold double_factorial at 2.
  destruct (Z.leb_spec (-1) n); [|lia]. destruct (Z.ltb_spec n 2); [lia|].
  cbn [andb]. rewrite (range_step_down_cons n Hn). cbn [py_reduce_mul].
  unfold double_factorial.
  destruct (Z.leb_spec (-1) (n - 2)); [|lia]. cbn [andb].
  destruct (Z.ltb_spec (n - 2) 2) as [Hsmall|Hbig].
  - exists 1. split; [reflexivity|].
    rewrite range_step_down_nil by lia. cbn [fold_left]. f_equal. lia.
  - rewrite (range_step_down_cons (n - 2) Hbig). cbn [py_reduce_mul fold_left].
    eexists. split; [reflexivity|]. f_equal. apply fold_left_mul_scale.
Qed.

(** X15: The double factorials of [n] and [n - 1] multiply to the factorial of
    [n]. *)
Theorem double_factorial_product (n : Z) :
  1 <= n ->
  exists a b,
    double_factorial n = Some a /\ double_factorial (n - 1) = Some b /\
    a * b = Z.of_nat (fact (Z.to_nat n)).
Proof.
  intros Hn. assert (Hk : n = Z.of_nat (Z.to_nat n)) by lia.
  revert Hn Hk. generalize (Z.to_nat n) as k. intros k. revert n.
  induction k as [|k IH]; intros n Hn Hk; [lia|].
  destruct (Z.eq_dec n 1) as [->|Hn1].
  - exists 1, 1. repeat split. replace k with 0%nat by lia. reflexivity.
  - destruct (IH (n - 1) ltac:(lia) ltac:(lia)) as (b & c & Hb & Hc & Hbc).
    destruct (double_factorial_step n ltac:(lia)) as (v & Hv & Ha).
    replace (n - 1 - 1) with (n - 2) in Hc by lia.
    rewrite Hc in Hv. injection Hv as <-.
    exists (n * c), b. repeat split; try assumption.
    change (fact (S k)) with (S k * fact k)%nat.
    rewrite Nat2Z.inj_mul, <- Hbc, <- Hk. ring.
Qed.

Lemma double_factorial_product_witness :
  exists a b,
    double_factorial 9 = Some a /\ double_factorial (9 - 1) = Some b /\
    a * b = Z.of_nat (fact (Z.to_nat 9)).
Proof. apply (double_factorial_product 9). lia. Defined.

(* ===================================================================== *)
(** ** [fusc] *)
(* ===================================================================== *)

(** More stack frames do not change a value. *)
Lemma fusc_depth_mono (d d' : nat) (n v : Z) :
  (d <= d')%nat -> fusc d n = Returns v -> fusc d' n = Returns v.
Proof.
  revert d' n v. induction d as [|d IH]; intros d' n v Hd Hrun; [discriminate|].
  destruct d' as [|d']; [lia|]. cbn [fusc] in *.
  destruct (n =? 0); [exact Hrun|].
  destruct (Z.land n (n - 1) =? 0); [exact Hrun|].
  destruct (n mod 2 =? 0); [apply IH; [lia | exact Hrun]|].
  destruct (fusc d (n / 2)) as [a|] eqn:Ea; [|discriminate].
  destruct (fusc d (n / 2 + 1)) as [b|] eqn:Eb; [|discriminate].
  rewrite (IH d' _ a), (IH d' _ b); try assumption; lia.
Qed.

Lemma fusc_functional (d d' : nat) (n v v' : Z) :
  fusc d n = Returns v -> fusc d' n = Returns v' -> v = v'.
Proof.
  intros H H'.
  apply (fusc_depth_mono d (Nat.max d d')) in H; [|lia].
  apply (fusc_depth_mono d' (Nat.max d d')) in H'; [|lia]. congruence.
Qed.

(** The test [n & (n - 1) == 0] on [2n] and on [2n + 1]. *)
Lemma land_double_odd (a b : Z) : Z.land (2 * a) (2 * b + 1) = 2 * Z.land a b.
Proof.
  apply Z.bits_inj'. intros m Hm. rewrite Z.land_spec.
  destruct (Z.eq_dec m 0) as [->|Hm0].
  - rewrite !Z.testbit_even_0. reflexivity.
  - replace m with (Z.succ (m - 1)) by lia.
    rewrite !Z.testbit_even_succ, Z.testbit_odd_succ, Z.land_spec by lia.
    reflexivity.
Qed.

Lemma land_odd_double (a : Z) : Z.land (2 * a + 1) (2 * a) = 2 * a.
Proof.
  apply Z.bits_inj'. intros m Hm. rewrite Z.land_spec.
  destruct (Z.eq_dec m 0) as [->|Hm0].
  - rewrite Z.testbit_even_0, Z.testbit_odd_0. reflexivity.
  - replace m with (Z.succ (m - 1)) by lia.
    rewrite Z.testbit_even_succ, Z.testbit_odd_succ by lia.
    apply andb_diag.
Qed.

Lemma fusc_even_test (n : Z) :
  (Z.land (2 * n) (2 * n - 1) =? 0) = (Z.land n (n - 1) =? 0).
Proof.
  replace (2 * n - 1) with (2 * (n - 1) + 1) by lia. rewrite land_double_odd.
  destruct (Z.eqb_spec (Z.land n (n - 1)) 0) as [->|H]; [reflexivity|].
  apply Z.eqb_neq. lia.
Qed.

Lemma fusc_odd_test (n : Z) :
  n <> 0 -> (Z.land (2 * n + 1) (2 * n + 1 - 1) =? 0) = false.
Proof.
  intros Hn. replace (2 * n + 1 - 1) with (2 * n) by lia.
  rewrite land_odd_double. apply Z.eqb_neq. lia.
Qed.

(** A number up to [2^depth] needs no more than [depth] frames. *)
Lemma fusc_returns (depth : nat) (n : Z) :
  (1 <= depth)%nat -> 0 <= n <= 2 ^ Z.of_nat depth ->
  exists v, fusc depth n = Returns v.
Proof.
  revert n. induction depth as [|d IH]; intros n Hd Hn; [lia|].
  cbn [fusc]. destruct (Z.eqb_spec n 0); [eauto|].
  destruct (Z.eqb_spec (Z.land n (n - 1)) 0) as [|Hland]; [eauto|].
  rewrite Nat2Z.inj_succ, Z.pow_succ_r in Hn by lia.
  assert (Hd1 : (1 <= d)%nat).
  { destruct d; [|lia]. exfalso. change (2 ^ Z.of_nat 0) with 1 in Hn.
    assert (Hc : n = 1 \/ n = 2) by lia.
    destruct Hc as [-> | ->]; apply Hland; reflexivity. }
  pose proof (Z.div_mod n 2 ltac:(lia)) as Hdm.
  pose proof (Z.mod_pos_bound n 2 ltac:(lia)) as Hmb.
  destruct (Z.eqb_spec (n mod 2) 0).
  - apply IH; [exact Hd1 | lia].
  - destruct (IH (n / 2) Hd1 ltac:(lia)) as (a & ->).
    destruct (IH (n / 2 + 1) Hd1 ltac:(lia)) as (b & ->).
    cbn [bind]. eauto.
Qed.

(** The values of [fusc] obey the recurrence of Stern's diatomic
    sequence, across the shortcut for the powers of two. *)
Lemma fusc_recurrence_values (depth : nat) (n : Z) :
  0 <= n -> 2 * n + 2 <= 2 ^ Z.of_nat depth ->
  exists a b,
    fusc depth n = Returns a /\ fusc depth (n + 1) = Returns b /\
    fusc depth (2 * n) = Returns a /\
    fusc depth (2 * n + 1) = Returns (a + b).
Proof.
  intros Hn Hdepth.
  destruct depth as [|d]; [change (2 ^ Z.of_nat 0) with 1 in Hdepth; lia|].
  rewrite Nat2Z.inj_succ, Z.pow_succ_r in Hdepth by lia.
  destruct (fusc_returns (S d) n) as (a & Ha);
    [lia | rewrite Nat2Z.inj_succ, Z.pow_succ_r by lia; lia |].
  destruct (fusc_returns (S d) (n + 1)) as (b & Hb);
    [lia | rewrite Nat2Z.inj_succ, Z.pow_succ_r by lia; lia |].
  exists a, b. split; [exact Ha|]. split; [exact Hb|].
  destruct (Z.eq_dec n 0) as [->|Hn0].
  { cbn in Ha, Hb. injection Ha as <-. injection Hb as <-. split; reflexivity. }
  assert (Hd1 : (1 <= d)%nat).
  { destruct d; [|lia]. change (2 ^ Z.of_nat 0) with 1 in Hdepth. lia. }
  destruct (fusc_returns d n Hd1 ltac:(lia)) as (a' & Ha').
  destruct (fusc_returns d (n + 1) Hd1 ltac:(lia)) as (b' & Hb').
  assert (a' = a) by (apply (fusc_functional _ _ _ _ _ Ha' Ha)).
  assert (b' = b) by (apply (fusc_functional _ _ _ _ _ Hb' Hb)). subst a' b'.
  split.
  - cbn [fusc]. destruct (Z.eqb_spec (2 * n) 0); [lia|].
    rewrite fusc_even_test.
    destruct (Z.eqb_spec (Z.land n (n - 1)) 0) as [Hp|Hp].
    + cbn [fusc] in Ha. destruct (Z.eqb_spec n 0); [lia|].
      rewrite Hp in Ha. cbn in Ha. congruence.
    + replace (2 * n) with (n * 2) by lia.
      rewrite Z.mod_mul, Z.div_mul by lia. cbn [Z.eqb]. exact Ha'.
  - cbn [fusc]. destruct (Z.eqb_spec (2 * n + 1) 0); [lia|].
    rewrite (fusc_odd_test n Hn0).
    replace (2 * n + 1) with (1 + n * 2) by lia.
    rewrite Z.mod_add, Z.div_add by lia. cbn [Z.modulo Z.div Z.eqb Z.add].
    change (1 mod 2) with 1. change (1 / 2) with 0. cbn [Z.eqb Z.add].
    rewrite Ha', Hb'. reflexivity.
Qed.

(** X16: [fusc(2n) = fusc(n)] and [fusc(2n + 1) = fusc(n) + fusc(n + 1)] for
    [n >= 0], also where the shortcut for the powers of two answers. *)
Theorem fusc_recurrence (depth : nat) (n : Z) :
  0 <= n -> 2 * n + 2 <= 2 ^ Z.of_nat depth ->
  exists a b,
    fusc depth n = Returns a /\ fusc depth (n + 1) = Returns b /\
    fusc depth (2 * n) = Returns a /\
    fusc depth (2 * n + 1) = Returns (a + b).
Proof. exact (fusc_recurrence_values depth n). Qed.

Lemma fusc_recurrence_witness :
  exists a b,
    fusc 5 7 = Returns a /\ fusc 5 (7 + 1) = Returns b /\
    fusc 5 (2 * 7) = Returns a /\
    fusc 5 (2 * 7 + 1) = Returns (a + b).
Proof. apply (fusc_recurrence 5 7); [lia | vm_compute; discriminate]. Defined.

(** X17: Consecutive terms are coprime. *)
Theorem fusc_consecutive_coprime (depth : nat) (n : Z) :
  0 <= n -> n + 1 <= 2 ^ Z.of_nat depth -> (1 <= depth)%nat ->
  exists a b,
    fusc depth n = Returns a /\ fusc depth (n + 1) = Returns b /\
    Z.gcd a b = 1.
Proof.
  intros Hn Hdepth Hd1.
  destruct (fusc_returns depth n Hd1 ltac:(lia)) as (a & Ha).
  destruct (fusc_returns depth (n + 1) Hd1 ltac:(lia)) as (b & Hb).
  exists a, b. split; [exact Ha|]. split; [exact Hb|].
  clear Hdepth Hd1. revert depth a b Ha Hb.
  assert (Hk : n <= Z.of_nat (Z.to_nat n)) by lia.
  revert Hn Hk. generalize (Z.to_nat n) as k. intros k. revert n.
  induction k as [|k IH]; intros n Hn Hk depth a b Ha Hb.
  - assert (n = 0) by lia. subst n.
    assert (a = 0) by (symmetry; apply (fusc_functional 1 depth 0 0 a); [reflexivity | exact Ha]).
    assert (b = 1) by (symmetry; apply (fusc_functional 1 depth 1 1 b); [reflexivity | exact Hb]).
    subst. reflexivity.
  - destruct (Z.eq_dec n 0) as [->|Hn0].
    { assert (a = 0) by (symmetry; apply (fusc_functional 1 depth 0 0 a); [reflexivity | exact Ha]).
      assert (b = 1) by (symmetry; apply (fusc_functional 1 depth 1 1 b); [reflexivity | exact Hb]).
      subst. reflexivity. }
    pose proof (Z.div_mod n 2 ltac:(lia)) as Hdm.
    pose proof (Z.mod_pos_bound n 2 ltac:(lia)) as Hmb.
    set (m := n / 2) in *.
    set (D := S (Z.to_nat (2 * m + 4))).
    assert (HD : 2 * (m + 1) + 2 <= 2 ^ Z.of_nat D).
    { subst D. rewrite Nat2Z.inj_succ, Z.pow_succ_r by lia.
      pose proof (Z.pow_gt_lin_r 2 (Z.of_nat (Z.to_nat (2 * m + 4))) ltac:(lia)). lia. }
    destruct (fusc_recurrence_values D m ltac:(lia) ltac:(lia))
      as (x & y & Hx & Hy & H2m & H2m1).
    destruct (fusc_recurrence_values D (m + 1) ltac:(lia) HD)
      as (y' & z & Hy' & _ & H2m2 & _).
    assert (y' = y) by (apply (fusc_functional _ _ _ _ _ Hy' Hy)). subst y'.
    assert (Hxy : Z.gcd x y = 1) by (apply (IH m ltac:(lia) ltac:(lia) D); assumption).
    assert (Hcase : n mod 2 = 0 \/ n mod 2 = 1) by lia.
    destruct Hcase as [E|E]; rewrite E in Hdm.
    + replace n with (2 * m) in Ha, Hb by lia.
      assert (a = x) by (apply (fusc_functional _ _ _ _ _ Ha H2m)).
      assert (b = x + y) by (apply (fusc_functional _ _ _ _ _ Hb H2m1)).
      subst a b. replace (x + y) with (y + 1 * x) by lia.
      rewrite Z.gcd_add_mult_diag_r. exact Hxy.
    + replace n with (2 * m + 1) in Ha by lia.
      replace (n + 1) with (2 * (m + 1)) in Hb by lia.
      assert (a = x + y) by (apply (fusc_functional _ _ _ _ _ Ha H2m1)).
      assert (b = y) by (apply (fusc_functional _ _ _ _ _ Hb H2m2)).
      subst a b. replace (x + y) with (x + 1 * y) by lia.
      rewrite Z.gcd_comm, Z.gcd_add_mult_diag_r. rewrite Z.gcd_comm. exact Hxy.
Qed.

Lemma fusc_consecutive_coprime_witness :
  exists a b,
    fusc 5 20 = Returns a /\ fusc 5 (20 + 1) = Returns b /\ Z.gcd a b = 1.
Proof.
  apply (fusc_consecutive_coprime 5 20); [lia | vm_compute; discriminate | lia].
Defined.

(** X18: On a negative number the recursion never reaches a base case:
    whatever the number of frames, they run out. *)
Theorem fusc_negative (depth : nat) (n : Z) :
  n < 0 -> fusc depth n = Raises RecursionError.
Proof.
  revert n. induction depth as [|d IH]; intros n Hn; [reflexivity|].
  cbn [fusc]. destruct (Z.eqb_spec n 0); [lia|].
  destruct (Z.eqb_spec (Z.land n (n - 1)) 0) as [Hl|_].
  - exfalso. assert (Z.land n (n - 1) < 0) by (apply Z.land_neg; lia). lia.
  - assert (n / 2 < 0) by (apply Z.div_lt_upper_bound; lia).
    destruct (n mod 2 =? 0); [apply IH; assumption|].
    rewrite IH by assumption. reflexivity.
Qed.

Lemma fusc_negative_witness : fusc 50 (-6) = Raises RecursionError.
Proof. apply (fusc_negative 50 (-6)). lia. Defined.

(* ===================================================================== *)
(** ** [_upsilon] and [unrelated] *)
(* ===================================================================== *)

Lemma length_filter_incl_excl {A : Type} (p q : A -> bool) (l : list A) :
  Z.of_nat (length l) =
  Z.of_nat (length (filter p l)) + Z.of_nat (length (filter q l))
  - Z.of_nat (length (filter (fun x => p x && q x) l))
  + Z.of_nat (length (filter (fun x => negb (p x) && negb (q x)) l)).
Proof.
  induction l as [|x l IH]; [reflexivity|].
  cbn [filter length]. destruct (p x), (q x); cbn [andb negb length]; lia.
Qed.

Lemma filter_none {A : Type} (p : A -> bool) (l : list A) :
  (forall x, In x l -> p x = false) -> filter p l = [].
Proof.
  induction l as [|x l IH]; intros H; [reflexivity|].
  cbn [filter]. rewrite (H x (or_introl eq_refl)).
  apply IH. intros y Hy. apply H. right. exact Hy.
Qed.

Lemma gcd_bounds (n k : Z) : 1 <= n -> 1 <= k -> 1 <= Z.gcd n k <= k.
Proof.
  intros Hn Hk. pose proof (Z.gcd_nonneg n k).
  assert (Z.gcd n k <> 0) by (intros Hz; apply Z.gcd_eq_0_l in Hz; lia).
  pose proof (Z.divide_pos_le (Z.gcd n k) k ltac:(lia) (Z.gcd_divide_r n k)). lia.
Qed.

Lemma gcd_eq_r_iff (n k : Z) : 1 <= k -> Z.gcd n k = k <-> n mod k = 0.
Proof.
  intros Hk. rewrite Z.mod_divide by lia. split.
  - intros <-. apply Z.gcd_divide_l.
  - intros H. rewrite Z.gcd_comm. apply Z.divide_gcd_iff; [lia | exact H].
Qed.

(** Only [1] is both coprime to [n] and a divisor of [n]. *)
Lemma coprime_divisor_one (n : Z) :
  1 <= n ->
  filter (fun k => (Z.gcd n k =? 1) && (n mod k =? 0)) (range 1 (n + 1)) = [1].
Proof.
  intros Hn. rewrite (range_cons 1 (n + 1)) by lia. cbn [filter].
  rewrite Z.gcd_1_r, Z.mod_1_r. cbn [Z.eqb Pos.eqb andb]. f_equal.
  apply filter_none.
  intros k Hk. apply in_range in Hk. apply andb_false_iff.
  destruct (Z.eqb_spec (Z.gcd n k) 1) as [E|]; [|left; reflexivity].
  right. apply Z.eqb_neq. intros Hm. apply gcd_eq_r_iff in Hm; lia.
Qed.

(** X19: [unrelated(n)] is the number of terms that [_upsilon(n)] yields. *)
Theorem unrelated_counts_upsilon (n : Z) :
  1 <= n -> Z.of_nat (length (_upsilon n)) = unrelated n.
Proof.
  intros Hn. unfold unrelated, divisor_count, totient, divisors.
  rewrite Z.abs_eq by lia.
  pose proof (length_filter_incl_excl
                (fun k => Z.gcd n k =? 1) (fun k => n mod k =? 0)
                (range 1 (n + 1))) as H.
  cbv beta in H.
  rewrite (coprime_divisor_one n Hn), range_length in H. cbn [length] in H.
  assert (E : filter (fun k => negb (Z.gcd n k =? 1) && negb (n mod k =? 0))
                     (range 1 (n + 1)) = _upsilon n).
  { rewrite (range_snoc 1 n) by lia. rewrite filter_app. cbn [filter].
    rewrite Z.mod_same by lia. cbn [Z.eqb negb andb]. rewrite andb_false_r, app_nil_r.
    unfold _upsilon. apply filter_ext_in. intros k Hk. apply in_range in Hk.
    pose proof (gcd_bounds n k Hn ltac:(lia)) as Hg.
    pose proof (gcd_eq_r_iff n k ltac:(lia)) as Hdiv.
    destruct (Z.eqb_spec (Z.gcd n k) 1), (Z.eqb_spec (n mod k) 0),
      (Z.ltb_spec 1 (Z.gcd n k)), (Z.ltb_spec (Z.gcd n k) k);
      cbn [negb andb]; try reflexivity; exfalso; lia. }
  rewrite E in H. lia.
Qed.

Lemma unrelated_counts_upsilon_witness :
  Z.of_nat (length (_upsilon 18)) = unrelated 18.
Proof. apply (unrelated_counts_upsilon 18). lia. Defined.

(* ===================================================================== *)
(** ** [extended_fibonacci] *)
(* ===================================================================== *)

(** The terms of the loop are linear in the two values it starts from. *)
Lemma fibonacci_loop_linear (k : nat) (a b c d x y : Z) :
  exists u v,
    gen_nth extended_fibonacci_next k (FibLoop a b) = Some u /\
    gen_nth extended_fibonacci_next k (FibLoop c d) = Some v /\
    gen_nth extended_fibonacci_next k
            (FibLoop (x * a + y * c) (x * b + y * d)) = Some (x * u + y * v).
Proof.
  revert a b c d. induction k as [|k IH]; intros a b c d.
  - cbn [gen_nth extended_fibonacci_next]. eexists. eexists.
    split; [reflexivity|]. split; [reflexivity|]. f_equal. ring.
  - cbn [gen_nth extended_fibonacci_next].
    replace (x * a + y * c + (x * b + y * d))
      with (x * (a + b) + y * (c + d)) by ring.
    apply IH.
Qed.

(** X20: The terms of [extended_fibonacci(x, y)] from the second on are
    [x * F(j) + y * F(j + 1)], with [F] the terms of [fibonacci()]; the
    generator never stops. *)
Theorem extended_fibonacci_linear (x y : Z) (j : nat) :
  exists u v,
    gen_nth extended_fibonacci_next j fibonacci = Some u /\
    gen_nth extended_fibonacci_next (S j) fibonacci = Some v /\
    gen_nth extended_fibonacci_next (S j) (extended_fibonacci x y)
      = Some (x * u + y * v).
Proof.
  unfold fibonacci, extended_fibonacci.
  destruct j as [|[|k]].
  - exists 0, 1. cbn. repeat split. f_equal. ring.
  - exists 1, 1. cbn. repeat split. f_equal. ring.
  - destruct (fibonacci_loop_linear (S k) 1 0 0 1 x y) as (u & v & Hu & Hv & Hxy).
    replace (x * 1 + y * 0) with x in Hxy by ring.
    replace (x * 0 + y * 1) with y in Hxy by ring.
    exists u, v. split; [|split].
    + cbn [gen_nth extended_fibonacci_next] in Hu |- *. exact Hu.
    + cbn [gen_nth extended_fibonacci_next] in Hv |- *. exact Hv.
    + cbn [gen_nth extended_fibonacci_next] in Hxy |- *. exact Hxy.
Qed.

(* ===================================================================== *)
(** ** [perfect_squares] *)
(* ===================================================================== *)

Lemma perfect_squares_loop_yields (m : nat) (a b : Z) :
  - Z.abs b < a -> Z.abs b - a <= Z.of_nat m ->
  forall s, perfect_squares_next s = perfect_squares_loop a b (a * a) ->
            gen_yields perfect_squares_next s
                       (map (fun k => k * k) (range a (Z.abs b))).
Proof.
  revert a. induction m as [|m IH]; intros a Hlo Hm s Hs.
  all: assert (Hb2 : b ^ 2 = Z.abs b * Z.abs b) by (rewrite Z.pow_2_r; lia).
  - rewrite range_nil by lia. apply gen_yields_stop. rewrite Hs.
    unfold perfect_squares_loop. rewrite Hb2.
    destruct (Z.ltb_spec (a * a) (Z.abs b * Z.abs b)); [nia | reflexivity].
  - destruct (Z.lt_ge_cases a (Z.abs b)) as [Hlt|Hge].
    + rewrite (range_cons a (Z.abs b) Hlt). cbn [map]. eapply gen_yields_yield.
      * rewrite Hs. unfold perfect_squares_loop. rewrite Hb2.
        destruct (Z.ltb_spec (a * a) (Z.abs b * Z.abs b)); [reflexivity | nia].
      * apply IH; [lia | lia |]. cbn [perfect_squares_next]. f_equal. ring.
    + rewrite range_nil by lia. apply gen_yields_stop. rewrite Hs.
      unfold perfect_squares_loop. rewrite Hb2.
      destruct (Z.ltb_spec (a * a) (Z.abs b * Z.abs b)); [nia | reflexivity].
Qed.

(** X21: [perfect_squares(a, b)] yields the squares of [a], [a + 1], ... up to
    [abs(b) - 1] when [abs(a) < abs(b)], and nothing otherwise; the running
    sum of odd numbers is the square. *)
Theorem perfect_squares_yields (a b : Z) :
  gen_yields perfect_squares_next (perfect_squares a b)
    (if Z.abs a <? Z.abs b then map (fun k => k * k) (range a (Z.abs b))
     else []).
Proof.
  destruct (Z.ltb_spec (Z.abs a) (Z.abs b)) as [Hlt|Hge].
  - apply (perfect_squares_loop_yields (Z.to_nat (Z.abs b - a)) a b); [lia | lia |].
    cbn [perfect_squares perfect_squares_next]. f_equal. apply Z.pow_2_r.
  - apply gen_yields_stop. cbn [perfect_squares perfect_squares_next].
    unfold perfect_squares_loop. rewrite !Z.pow_2_r.
    destruct (Z.ltb_spec (a * a) (b * b)); [nia | reflexivity].
Qed.

(* ===================================================================== *)
(** ** [least_non_divisors] *)
(* ===================================================================== *)

Lemma inner_loop_spec (fuel : nat) (n m : Z) :
  n <> 0 -> 1 <= m ->
  (forall k, 1 <= k < m -> n mod k = 0) ->
  Z.abs n + 1 - m < Z.of_nat fuel ->
  exists r, inner_loop fuel n m = Some r /\ m <= r /\ n mod r <> 0 /\
            forall k, 1 <= k < r -> n mod k = 0.
Proof.
  revert m. induction fuel as [|fuel IH]; intros m Hn Hm Hall Hfuel.
  - exfalso.
    destruct (Z.eq_dec m 1) as [->|]; [lia|].
    specialize (Hall (m - 1) ltac:(lia)).
    apply Z.mod_divide in Hall; [|lia].
    apply Z.divide_abs_r in Hall. apply Z.divide_pos_le in Hall; lia.
  - cbn [inner_loop]. destruct (Z.eqb_spec (n mod m) 0) as [E|NE].
    + assert (Hle : m <= Z.abs n).
      { apply Z.mod_divide in E; [|lia].
        apply Z.divide_abs_r in E. apply Z.divide_pos_le in E; lia. }
      destruct (IH (m + 1)) as (r & Hrun & Hr & Hnd & Hdiv); try lia.
      * intros k Hk. destruct (Z.eq_dec k m) as [->|]; [exact E | apply Hall; lia].
      * exists r. repeat split; try assumption. lia.
    + exists m. repeat split; try assumption. lia.
Qed.

(** A positive number is a power of a given prime times a number that the
    prime does not divide. *)
Lemma prime_power_decompose (p m : Z) :
  Z.prime p -> 1 <= m ->
  exists e r, 0 <= e /\ 1 <= r /\ m = p ^ e * r /\ ~ (p | r).
Proof.
  intros Hp Hm. pose proof (Z.prime_ge_2 p Hp) as Hp2.
  assert (Hk : m <= Z.of_nat (Z.to_nat m)) by lia.
  revert Hm Hk. generalize (Z.to_nat m) as k. intros k. revert m.
  induction k as [|k IH]; intros m Hm Hk; [lia|].
  destruct (Z.BoolSpec_divide p m) as [[q Hq]|Hnd].
  - assert (1 <= q) by nia.
    destruct (IH q ltac:(lia) ltac:(nia)) as (e & r & He & Hr & Hqr & Hpr).
    exists (e + 1), r. repeat split; try assumption; try lia.
    rewrite Z.pow_add_r, Z.pow_1_r by lia. subst m q. ring.
  - exists 0, m. repeat split; try assumption; try lia.
Qed.

Lemma coprime_mul_divide (a b n : Z) :
  Z.gcd a b = 1 -> (a | n) -> (b | n) -> (a * b | n).
Proof.
  intros Hg [u Hu] Hb. subst n.
  rewrite (Z.mul_comm a b). apply Z.mul_divide_mono_r.
  apply Z.gauss with (m := a); [|rewrite Z.gcd_comm; exact Hg].
  rewrite Z.mul_comm. exact Hb.
Qed.

(** The least number that does not divide [n] is a power of a prime: were
    it a product of two coprime numbers, both smaller, they would divide
    [n] and so would it. *)
Lemma least_non_divisor_prime_power (n r : Z) :
  2 <= r -> n mod r <> 0 -> (forall k, 1 <= k < r -> n mod k = 0) ->
  exists p e, Z.prime p /\ 1 <= e /\ r = p ^ e.
Proof.
  intros Hr Hnd Hall.
  destruct (exists_prime_divisor r Hr) as (p & Hp & Hpr).
  pose proof (Z.prime_ge_2 p Hp) as Hp2.
  destruct (prime_power_decompose p r Hp ltac:(lia)) as (e & q & He & Hq & Hrq & Hpq).
  assert (He1 : 1 <= e).
  { destruct (Z.eq_dec e 0) as [->|]; [|lia].
    rewrite Z.pow_0_r, Z.mul_1_l in Hrq. subst q. contradiction. }
  exists p, e. split; [exact Hp|]. split; [exact He1|].
  destruct (Z.eq_dec q 1) as [->|Hq1]; [lia|]. exfalso.
  assert (Hpe : 2 <= p ^ e).
  { replace e with (1 + (e - 1)) by lia.
    rewrite Z.pow_add_r, Z.pow_1_r by lia.
    pose proof (Z.pow_pos_nonneg p (e - 1) ltac:(lia) ltac:(lia)). nia. }
  apply Hnd. apply Z.mod_divide; [lia|]. rewrite Hrq.
  apply coprime_mul_divide.
  - apply Z.coprime_pow_l; [lia|]. apply Z.coprime_prime_l; assumption.
  - apply Z.mod_divide; [lia|]. apply Hall. nia.
  - apply Z.mod_divide; [lia|]. apply Hall. nia.
Qed.

(** X22: For [n] other than zero, [inner(n)] returns the least [m >= 2] with
    [n % m != 0]: every smaller positive number divides [n].  It is always
    a power of a prime. *)
Theorem inner_least_non_divisor (fuel : nat) (n : Z) :
  n <> 0 -> Z.abs n < Z.of_nat fuel ->
  exists r,
    inner fuel n = Some r /\ 2 <= r /\ n mod r <> 0 /\
    (forall k, 1 <= k < r -> n mod k = 0) /\
    exists p e, Z.prime p /\ 1 <= e /\ r = p ^ e.
Proof.
  intros Hn Hfuel.
  destruct (inner_loop_spec fuel n 1 Hn ltac:(lia)) as (r & Hrun & Hr & Hnd & Hall);
    [intros k Hk; lia | lia |].
  assert (Hr2 : 2 <= r).
  { destruct (Z.eq_dec r 1) as [->|]; [|lia]. rewrite Z.mod_1_r in Hnd. contradiction. }
  exists r. repeat split; try assumption.
  apply (least_non_divisor_prime_power n r); assumption.
Qed.

Lemma inner_least_non_divisor_witness :
  exists r,
    inner 61 60 = Some r /\ 2 <= r /\ 60 mod r <> 0 /\
    (forall k, 1 <= k < r -> 60 mod k = 0) /\
    exists p e, Z.prime p /\ 1 <= e /\ r = p ^ e.
Proof. apply (inner_least_non_divisor 61 60); [lia | vm_compute; reflexivity]. Defined.

Lemma inner_loop_zero (fuel : nat) (m : Z) : inner_loop fuel 0 m = None.
Proof.
  revert m. induction fuel as [|fuel IH]; intros m; [reflexivity|].
  cbn [inner_loop]. rewrite Zmod_0_l. apply IH.
Qed.

Lemma sequence_options_None {A : Type} (l : list (option A)) :
  In None l -> sequence_options l = None.
Proof.
  induction l as [|[x|] l IH]; intros H; [contradiction | | reflexivity].
  cbn [sequence_options]. rewrite IH; [reflexivity|].
  destruct H as [H|H]; [discriminate | exact H].
Qed.

(** X23: Every number divides zero, so the loop of [inner(0)] does not end:
    over a range that holds zero, [least_non_divisors] never finishes,
    however many tests are allowed. *)
Theorem least_non_divisors_zero (fuel : nat) (a b : Z) :
  a <= 0 < b -> least_non_divisors fuel a b = None.
Proof.
  intros H. unfold least_non_divisors. apply sequence_options_None.
  apply in_map_iff. exists 0. split; [apply inner_loop_zero | apply in_range; lia].
Qed.

Lemma least_non_divisors_zero_witness : least_non_divisors 1000 (-3) 4 = None.
Proof. apply (least_non_divisors_zero 1000 (-3) 4). lia. Defined.

(* ===================================================================== *)
(** ** [hamming_weight] *)
(* ===================================================================== *)

Lemma binary_weight_double (m : Z) :
  0 <= m ->
  binary_weight (2 * m) = binary_weight m /\
  binary_weight (2 * m + 1) = binary_weight m + 1.
Proof.
  intros Hm. destruct m as [|p|p]; [split; reflexivity | | lia].
  split; [reflexivity|].
  change (2 * Z.pos p + 1) with (Z.pos p~1). cbn [binary_weight ones]. lia.
Qed.

(** Setting a bit above all the others adds one to the weight. *)
Lemma binary_weight_high (j : nat) (k : Z) :
  0 <= k < 2 ^ Z.of_nat j ->
  binary_weight (k + 2 ^ Z.of_nat j) = binary_weight k + 1.
Proof.
  revert k. induction j as [|j IH]; intros k Hk.
  - change (2 ^ Z.of_nat 0) with 1 in *. assert (k = 0) by lia. subst k. reflexivity.
  - rewrite Nat2Z.inj_succ, Z.pow_succ_r in * by lia.
    pose proof (Z.div_mod k 2 ltac:(lia)) as Hdm.
    pose proof (Z.mod_pos_bound k 2 ltac:(lia)) as Hmb.
    set (h := k / 2) in *.
    assert (Hh : 0 <= h < 2 ^ Z.of_nat j) by lia.
    specialize (IH h Hh).
    destruct (binary_weight_double h ltac:(lia)) as [E0 E1].
    destruct (binary_weight_double (h + 2 ^ Z.of_nat j) ltac:(lia)) as [F0 F1].
    assert (Hcase : k mod 2 = 0 \/ k mod 2 = 1) by lia.
    destruct Hcase as [E|E]; rewrite E in Hdm.
    + replace k with (2 * h) by lia.
      replace (2 * h + 2 * 2 ^ Z.of_nat j) with (2 * (h + 2 ^ Z.of_nat j)) by lia.
      lia.
    + replace k with (2 * h + 1) by lia.
      replace (2 * h + 1 + 2 * 2 ^ Z.of_nat j)
        with (2 * (h + 2 ^ Z.of_nat j) + 1) by lia.
      lia.
Qed.

Lemma range_app (a b c : Z) : a <= b <= c -> range a c = range a b ++ range b c.
Proof.
  intros H. assert (Hm : b - a <= Z.of_nat (Z.to_nat (b - a))) by lia.
  revert H Hm. generalize (Z.to_nat (b - a)) as m. intros m. revert a.
  induction m as [|m IH]; intros a H Hm.
  - assert (a = b) by lia. subst a. rewrite (range_nil b b) by lia. reflexivity.
  - destruct (Z.eq_dec a b) as [->|Hab].
    + rewrite (range_nil b b) by lia. reflexivity.
    + rewrite (range_cons a c), (range_cons a b) by lia. cbn [app]. f_equal.
      apply IH; lia.
Qed.

Lemma range_shift (a b c : Z) :
  range (a + c) (b + c) = map (fun k => k + c) (range a b).
Proof.
  unfold range. replace (b + c - (a + c)) with (b - a) by lia.
  rewrite map_map. apply map_ext. intros i. lia.
Qed.

(** The weights of [0 .. 2^(j+1) - 1] are those of [0 .. 2^j - 1] followed
    by the same plus one. *)
Lemma binary_weight_doubling (j : nat) :
  map binary_weight (range 0 (2 ^ Z.of_nat (S j))) =
  map binary_weight (range 0 (2 ^ Z.of_nat j)) ++
  map (fun i => i + 1) (map binary_weight (range 0 (2 ^ Z.of_nat j))).
Proof.
  rewrite Nat2Z.inj_succ, Z.pow_succ_r by lia.
  pose proof (Z.pow_pos_nonneg 2 (Z.of_nat j) ltac:(lia) ltac:(lia)) as Hp.
  set (P := 2 ^ Z.of_nat j) in *.
  rewrite (range_app 0 P (2 * P)) by lia. rewrite map_app. f_equal.
  replace (range P (2 * P)) with (range (0 + P) (P + P)) by (f_equal; lia).
  rewrite range_shift, !map_map. apply map_ext_in. intros k Hk.
  apply in_range in Hk. apply binary_weight_high. exact Hk.
Qed.

Lemma hamming_weight_loop_from (fuel j : nat) (n : Z) :
  Z.of_nat j <= n -> n - Z.of_nat j < Z.of_nat fuel ->
  hamming_weight_loop fuel n (map binary_weight (range 0 (2 ^ Z.of_nat j))) =
  Some (map binary_weight (range 0 (2 ^ n))).
Proof.
  revert j. induction fuel as [|fuel IH]; intros j Hj Hfuel; [lia|].
  cbn [hamming_weight_loop]. rewrite length_map, range_length.
  pose proof (Z.pow_pos_nonneg 2 (Z.of_nat j) ltac:(lia) ltac:(lia)) as Hp.
  destruct (Z.leb_spec 0 n); [|lia]. cbn [andb].
  replace (Z.max 0 (2 ^ Z.of_nat j - 0)) with (2 ^ Z.of_nat j) by lia.
  destruct (Z.ltb_spec (2 ^ Z.of_nat j) (2 ^ n)) as [Hlt|Hge].
  - assert (Z.of_nat j < n) by (apply (Z.pow_lt_mono_r_iff 2); lia).
    rewrite <- binary_weight_doubling. apply IH; lia.
  - assert (Z.of_nat j = n).
    { destruct (Z.eq_dec (Z.of_nat j) n); [assumption|]. exfalso.
      assert (2 ^ Z.of_nat j < 2 ^ n) by (apply Z.pow_lt_mono_r; lia). lia. }
    subst n. reflexivity.
Qed.

(** X24: [hamming_weight(n)] is the list of the numbers of one bits of
    [0, 1, ..., 2^n - 1]. *)
Theorem hamming_weight_binary (fuel : nat) (n : Z) :
  0 <= n -> n < Z.of_nat fuel ->
  hamming_weight fuel n None = Some (map binary_weight (range 0 (2 ^ n))).
Proof.
  intros Hn Hfuel. unfold hamming_weight.
  apply (hamming_weight_loop_from fuel 0 n); lia.
Qed.

Lemma hamming_weight_binary_witness :
  hamming_weight 5 4 None = Some (map binary_weight (range 0 (2 ^ 4))).
Proof. apply (hamming_weight_binary 5 4); [lia | vm_compute; reflexivity]. Defined.

(** X25: Given the weights of [0 .. 2^j - 1] as [subseq], [hamming_weight(n)]
    completes them to the same result, in [n - j] rounds. *)
Theorem hamming_weight_subseq (fuel j : nat) (n : Z) :
  Z.of_nat j <= n -> n - Z.of_nat j < Z.of_nat fuel ->
  hamming_weight fuel n (Some (map binary_weight (range 0 (2 ^ Z.of_nat j)))) =
  Some (map binary_weight (range 0 (2 ^ n))).
Proof.
  intros Hj Hfuel. unfold hamming_weight.
  pose proof (Z.pow_pos_nonneg 2 (Z.of_nat j) ltac:(lia) ltac:(lia)) as Hp.
  pose proof (hamming_weight_loop_from fuel j n Hj Hfuel) as Hloop.
  assert (Hlen : Z.of_nat (length (map binary_weight (range 0 (2 ^ Z.of_nat j))))
                 = 2 ^ Z.of_nat j) by (rewrite length_map, range_length; lia).
  destruct (map binary_weight (range 0 (2 ^ Z.of_nat j))) as [|w W];
    [cbn [length] in Hlen; lia | exact Hloop].
Qed.

Lemma hamming_weight_subseq_witness :
  hamming_weight 2 4 (Some (map binary_weight (range 0 (2 ^ Z.of_nat 3)))) =
  Some (map binary_weight (range 0 (2 ^ 4))).
Proof. apply (hamming_weight_subseq 2 3 4); vm_compute; [discriminate | reflexivity]. Defined.

(* ===================================================================== *)
(** ** [ensure_unique] *)
(* ===================================================================== *)

Lemma filter_remove (old : list Z) (x : Z) (l : list Z) :
  filter (fun y => if in_dec Z.eq_dec y (x :: old) then false else true) l =
  filter (fun y => if in_dec Z.eq_dec y old then false else true)
         (remove Z.eq_dec x l).
Proof.
  induction l as [|y l IH]; [reflexivity|].
  cbn [filter remove]. destruct (Z.eq_dec x y) as [->|Hxy].
  - destruct (in_dec Z.eq_dec y (y :: old)) as [_|Hn]; [exact IH|].
    exfalso. apply Hn. left. reflexivity.
  - cbn [filter]. rewrite IH.
    destruct (in_dec Z.eq_dec y (x :: old)) as [[E|Hin]|Hn],
             (in_dec Z.eq_dec y old) as [Hin'|Hn'];
      try reflexivity; try contradiction; try congruence.
    exfalso. apply Hn. right. exact Hin'.
Qed.

Lemma filter_remove_old (old : list Z) (x : Z) (l : list Z) :
  In x old ->
  filter (fun y => if in_dec Z.eq_dec y old then false else true)
         (remove Z.eq_dec x l) =
  filter (fun y => if in_dec Z.eq_dec y old then false else true) l.
Proof.
  intros Hx. induction l as [|y l IH]; [reflexivity|].
  cbn [filter remove]. destruct (Z.eq_dec x y) as [->|Hxy].
  - destruct (in_dec Z.eq_dec y old); [exact IH | contradiction].
  - cbn [filter]. rewrite IH. reflexivity.
Qed.

(** Without a bound on the skips, the loop yields the first occurrences
    of the elements that are not in [old]. *)
Lemma ensure_unique_loop_unbounded (old : list Z) (i : Z) (l : list Z) :
  ensure_unique_loop None old i l =
  filter (fun y => if in_dec Z.eq_dec y old then false else true)
         (first_occurrences l).
Proof.
  revert old i. induction l as [|x l IH]; intros old i; [reflexivity|].
  cbn [ensure_unique_loop within_skips first_occurrences filter].
  destruct (in_dec Z.eq_dec x old) as [Hin|Hn].
  - rewrite IH. symmetry. apply filter_remove_old. exact Hin.
  - f_equal. rewrite IH. apply filter_remove.
Qed.

Lemma first_occurrences_In (l : list Z) (x : Z) :
  In x (first_occurrences l) <-> In x l.
Proof.
  induction l as [|y l IH]; [reflexivity|].
  cbn [first_occurrences In]. destruct (Z.eq_dec y x) as [->|Hyx]; [tauto|].
  rewrite <- IH. split.
  - intros [E|H]; [auto|]. right. apply in_remove in H. tauto.
  - intros [E|H]; [auto|]. right. apply in_in_remove; [congruence | exact H].
Qed.

Lemma remove_NoDup (x : Z) (l : list Z) : NoDup l -> NoDup (remove Z.eq_dec x l).
Proof.
  induction 1 as [|y l Hy Hl IH]; cbn [remove]; [constructor|].
  destruct (Z.eq_dec x y); [exact IH|]. constructor; [|exact IH].
  intros H. apply in_remove in H. tauto.
Qed.

Lemma first_occurrences_NoDup (l : list Z) : NoDup (first_occurrences l).
Proof.
  induction l as [|x l IH]; cbn [first_occurrences]; constructor.
  - apply remove_In.
  - apply remove_NoDup, IH.
Qed.

(** A bound on the skips only cuts the sequence short. *)
Lemma ensure_unique_loop_prefix (max_skips : option Z) (old : list Z) (i : Z)
  (l : list Z) :
  exists rest,
    ensure_unique_loop None old i l =
    ensure_unique_loop max_skips old i l ++ rest.
Proof.
  revert old i. induction l as [|x l IH]; intros old i.
  - exists []. cbn. destruct (within_skips i max_skips); reflexivity.
  - cbn [ensure_unique_loop within_skips].
    destruct (within_skips i max_skips); [|cbn [app]; eauto].
    destruct (in_dec Z.eq_dec x old).
    + apply IH.
    + destruct (IH (x :: old) 0) as (rest & Hrest). exists rest.
      cbn [app]. f_equal. exact Hrest.
Qed.

(** X26: With the default [max_skips], [ensure_unique] yields each element of
    the iterable once, at its first occurrence. *)
Theorem ensure_unique_first_occurrences (l : list Z) :
  ensure_unique l None = first_occurrences l /\
  NoDup (ensure_unique l None) /\
  forall x, In x (ensure_unique l None) <-> In x l.
Proof.
  assert (E : ensure_unique l None = first_occurrences l).
  { unfold ensure_unique. rewrite ensure_unique_loop_unbounded.
    induction (first_occurrences l) as [|y t IH]; [reflexivity|].
    cbn [filter]. destruct (in_dec Z.eq_dec y []) as [[]|_]. f_equal. exact IH. }
  rewrite E. split; [reflexivity|]. split.
  - apply first_occurrences_NoDup.
  - apply first_occurrences_In.
Qed.

(** X27: With any [max_skips], what is yielded is a beginning of what the
    default yields, and has no repetition. *)
Theorem ensure_unique_prefix (l : list Z) (max_skips : option Z) :
  (exists rest, ensure_unique l None = ensure_unique l max_skips ++ rest) /\
  NoDup (ensure_unique l max_skips).
Proof.
  destruct (ensure_unique_loop_prefix max_skips [] 0 l) as (rest & Hrest).
  split; [exists rest; exact Hrest|].
  fold (ensure_unique l None) in Hrest. fold (ensure_unique l max_skips) in Hrest.
  assert (Hnd : NoDup (ensure_unique l None)).
  { unfold ensure_unique. rewrite ensure_unique_loop_unbounded.
    apply NoDup_filter, first_occurrences_NoDup. }
  rewrite Hrest in Hnd. apply NoDup_app_remove_r in Hnd. exact Hnd.
Qed.

Lemma ensure_unique_loop_stops (old skipped rest : list Z) (m i : Z) :
  0 <= i -> Z.of_nat (length skipped) = m + 1 - i ->
  Forall (fun x => In x old) skipped ->
  ensure_unique_loop (Some m) old i (skipped ++ rest) = [].
Proof.
  intros Hi Hlen Hall. revert i Hi Hlen.
  induction Hall as [|x skipped Hx _ IH]; intros i Hi Hlen.
  - cbn [length] in Hlen. cbn [app].
    destruct rest; cbn [ensure_unique_loop within_skips];
      destruct (Z.leb_spec i m); try lia; reflexivity.
  - cbn [length] in Hlen. cbn [app ensure_unique_loop within_skips].
    destruct (Z.leb_spec i m); [|reflexivity].
    destruct (in_dec Z.eq_dec x old); [|contradiction].
    apply IH; lia.
Qed.

(** Distinct new terms are all yielded. *)
Lemma ensure_unique_loop_distinct (m : Z) (old p rest : list Z) :
  0 <= m -> NoDup p -> (forall x, In x p -> ~ In x old) ->
  ensure_unique_loop (Some m) old 0 (p ++ rest) =
  p ++ ensure_unique_loop (Some m) (rev p ++ old) 0 rest.
Proof.
  intros Hm Hnd. revert old. induction Hnd as [|x p Hx Hp IH]; intros old Hold.
  - reflexivity.
  - cbn [app ensure_unique_loop within_skips rev].
    destruct (Z.leb_spec 0 m); [|lia].
    destruct (in_dec Z.eq_dec x old) as [Hin|_].
    { exfalso. apply (Hold x); [left; reflexivity | exact Hin]. }
    f_equal. rewrite IH.
    + rewrite <- app_assoc. reflexivity.
    + intros y Hy [E|Hin]; [subst; contradiction|].
      apply (Hold y); [right; exact Hy | exact Hin].
Qed.

(** X28: Once more than [max_skips] terms in a row have been seen before, the
    generator stops: what follows is never reached. *)
Theorem ensure_unique_stops (p skipped rest : list Z) (m : Z) :
  0 <= m -> NoDup p -> Z.of_nat (length skipped) = m + 1 ->
  Forall (fun x => In x p) skipped ->
  ensure_unique (p ++ skipped ++ rest) (Some m) = p.
Proof.
  intros Hm Hnd Hlen Hall. unfold ensure_unique.
  rewrite (ensure_unique_loop_distinct m [] p (skipped ++ rest) Hm Hnd)
    by (intros x _ []).
  rewrite ensure_unique_loop_stops; [apply app_nil_r | lia | lia |].
  eapply Forall_impl; [|exact Hall]. intros x Hx.
  apply in_or_app. left. apply in_rev in Hx. exact Hx.
Qed.

Lemma ensure_unique_stops_witness :
  ensure_unique ([3; 1] ++ [3; 3] ++ [2; 4]) (Some 1) = [3; 1].
Proof.
  apply (ensure_unique_stops [3; 1] [3; 3] [2; 4] 1).
  - lia.
  - repeat constructor; cbn; intuition lia.
  - reflexivity.
  - repeat constructor; cbn; auto.
Defined.

(* ===================================================================== *)
(** ** [collatz] and [shortcut_collatz] *)
(* ===================================================================== *)

Section GeneratorInversion.

Context {St A : Type}.
Variable next : St -> gen_step St A.

Lemma gen_yields_yield_inv (s s' : St) (x : A) (l : list A) :
  next s = Yield x s' -> gen_yields next s l ->
  exists l', l = x :: l' /\ gen_yields next s' l'.
Proof.
  intros Hs H. inversion H as [? Hs'|? y s'' l' Hs' Hrest]; subst.
  - congruence.
  - rewrite Hs in Hs'. injection Hs' as <- <-. eauto.
Qed.

Lemma gen_yields_stop_inv (s : St) (l : list A) :
  next s = StopIteration -> gen_yields next s l -> l = [].
Proof.
  intros Hs H. inversion H as [? Hs'|? y s'' l' Hs' Hrest]; subst;
    [reflexivity | congruence].
Qed.

End GeneratorInversion.

Lemma collatz_shortcut_loop (len : nat) (l : list Z) (n : Z) :
  (length l <= len)%nat -> 1 <= n ->
  forall s s',
    collatz_next s = collatz_loop n ->
    shortcut_collatz_next s' = shortcut_collatz_loop n ->
    gen_yields collatz_next s l ->
    gen_yields shortcut_collatz_next s' (shortcut_terms false l).
Proof.
  revert l n. induction len as [|len IH]; intros l n Hlen Hn s s' Hs Hs' Hl.
  all: unfold collatz_loop in Hs; unfold shortcut_collatz_loop in Hs'.
  all: destruct (Z.eqb_spec n 1) as [->|Hn1]; cbn [negb] in Hs.
  1,3: destruct (gen_yields_yield_inv _ _ _ _ _ Hs Hl) as (l' & -> & Hl');
       pose proof (gen_yields_stop_inv collatz_next CLast l' eq_refl Hl');
       subst l'; cbn [shortcut_terms];
       eapply gen_yields_yield; [exact Hs'|]; apply gen_yields_stop; reflexivity.
  all: destruct (gen_yields_yield_inv _ _ _ _ _ Hs Hl) as (l' & -> & Hl').
  - cbn [length] in Hlen. lia.
  - destruct (Z.ltb_spec 1 n); [|lia].
    pose proof (Z.div_mod n 2 ltac:(lia)) as Hdm.
    pose proof (Z.mod_pos_bound n 2 ltac:(lia)) as Hmb.
    cbn [shortcut_terms length] in *.
    eapply gen_yields_yield; [exact Hs'|].
    destruct (Z.eqb_spec (n mod 2) 0) as [Heven|Hodd]; cbn [negb].
    + apply (IH l' (n / 2) ltac:(lia) ltac:(lia) (CYielded n) (CYielded n));
        [ | | exact Hl'].
      * cbn [collatz_next]. destruct (Z.eqb_spec (n mod 2) 0); [reflexivity | lia].
      * cbn [shortcut_collatz_next].
        destruct (Z.eqb_spec (n mod 2) 0); [reflexivity | lia].
    + assert (Hnext : collatz_next (CYielded n) = Yield (3 * n + 1) (CYielded (3 * n + 1))).
      { cbn [collatz_next]. destruct (Z.eqb_spec (n mod 2) 0); [lia|].
        unfold collatz_loop. destruct (Z.eqb_spec (3 * n + 1) 1); [lia | reflexivity]. }
      destruct (gen_yields_yield_inv _ _ _ _ _ Hnext Hl') as (l'' & -> & Hl'').
      cbn [shortcut_terms length] in *.
      assert (Heven' : (3 * n + 1) mod 2 = 0).
      { replace (3 * n + 1) with (0 + (3 * (n / 2) + 2) * 2) by lia.
        rewrite Z.mod_add by lia. reflexivity. }
      assert (0 < (3 * n + 1) / 2) by (apply Z.div_str_pos; lia).
      apply (IH l'' ((3 * n + 1) / 2) ltac:(lia) ltac:(lia)
                (CYielded (3 * n + 1)) (CYielded n)); [ | | exact Hl''].
      * cbn [collatz_next]. rewrite Heven'. reflexivity.
      * cbn [shortcut_collatz_next].
        destruct (Z.eqb_spec (n mod 2) 0); [lia | reflexivity].
Qed.

(** X29: For [n >= 1], when [collatz(n)] comes to its end, [shortcut_collatz(n)]
    yields the same terms except the one that follows each odd term. *)
Theorem shortcut_collatz_of_collatz (n : Z) (l : list Z) :
  1 <= n ->
  gen_yields collatz_next (collatz n) l ->
  gen_yields shortcut_collatz_next (shortcut_collatz n) (shortcut_terms false l).
Proof.
  intros Hn Hl.
  apply (collatz_shortcut_loop (length l) l n (le_n _) Hn (collatz n));
    [reflexivity | reflexivity | exact Hl].
Qed.

Lemma shortcut_collatz_of_collatz_witness :
  gen_yields shortcut_collatz_next (shortcut_collatz 6)
             (shortcut_terms false [6; 3; 10; 5; 16; 8; 4; 2; 1]).
Proof.
  apply (shortcut_collatz_of_collatz 6 [6; 3; 10; 5; 16; 8; 4; 2; 1]).
  - lia.
  - repeat (eapply gen_yields_yield; [reflexivity|]).
    apply gen_yields_stop. reflexivity.
Defined.

Lemma collatz_loop_nonpositive (k : nat) (n : Z) :
  n <= 0 ->
  forall s, collatz_next s = collatz_loop n ->
            exists t, gen_nth collatz_next k s = Some t /\ t <= 0.
Proof.
  revert n. induction k as [|k IH]; intros n Hn s Hs.
  all: unfold collatz_loop in Hs; destruct (Z.eqb_spec n 1); [lia|]; cbn [negb] in Hs.
  all: cbn [gen_nth]; rewrite Hs.
  - eauto.
  - apply (IH (if n mod 2 =? 0 then n / 2 else 3 * n + 1)); [|reflexivity].
    destruct (Z.eqb_spec (n mod 2) 0) as [|Hodd].
    + apply Z.div_le_upper_bound; lia.
    + assert (n <> 0) by (intros ->; apply Hodd; reflexivity). lia.
Qed.

(** X30: From zero or a negative number the terms of [collatz] stay there and
    the generator never reaches one, while [shortcut_collatz] yields one
    and stops. *)
Theorem collatz_nonpositive (n : Z) (k : nat) :
  n <= 0 ->
  (exists t, gen_nth collatz_next k (collatz n) = Some t /\ t <= 0) /\
  gen_yields shortcut_collatz_next (shortcut_collatz n) [1].
Proof.
  intros Hn. split.
  - apply (collatz_loop_nonpositive k n Hn). reflexivity.
  - eapply gen_yields_yield.
    + cbn [shortcut_collatz shortcut_collatz_next]. unfold shortcut_collatz_loop.
      destruct (Z.ltb_spec 1 n); [lia | reflexivity].
    + apply gen_yields_stop. reflexivity.
Qed.

Lemma collatz_nonpositive_witness :
  (exists t, gen_nth collatz_next 25 (collatz (-5)) = Some t /\ t <= 0) /\
  gen_yields shortcut_collatz_next (shortcut_collatz (-5)) [1].
Proof. apply (collatz_nonpositive (-5) 25). lia. Defined.
